(** * Plugin uploader: reconciliation and idempotent delivery

    A shallow embedding of the TypeScript sources of the plugin notifier
    (key derivation, merge engine, delta engine, state cache, webhook
    sender and sequential delivery pipeline), with the properties the
    specification states about them.

    Conventions of the embedding:
    - an optional property [x?: T] is an [option T]; a property that is
      missing and a property holding [undefined] are the same [None];
    - JavaScript truthiness of an optional string is [truthy]: present and
      different from the empty string;
    - finite numbers are integers ([Z]): every number the modelled code
      handles is a byte count, a status code or a schema version; where
      [Number.parseInt] can produce [NaN] (a header, the attachment limit of
      the environment) the number is a [JsNumber]; the [retry_after] of a
      rate-limit response, which has a fraction, is an IEEE 754 double and
      is multiplied and rounded as one;
    - strings are sequences of bytes, the UTF-8 form of the JavaScript
      string (a lone surrogate in its three-byte form); lengths and
      positions that the code counts in UTF-16 code units are counted so
      ([utf16_length], [slice]); [toLowerCase] acts on the ASCII letters
      and is used where the code compares with an ASCII name;
    - the state of the cache is a typed [StateFile]; a parsed file is read
      through the interface ([asStateFile]), which gives the value the code
      holds exactly when the file is the JSON of a [StateFile]
      ([savedByCache]);
    - code that can throw returns a [Completion], and code that also acts
      on the cache, the disk, the clock or the network runs in the monad
      [Js] over an explicit [World];
    - the transport ([head], [getBinary], [httpClient.post]), the hash
      function and the file-name sanitizer are parameters; calls of the
      logger, which only print, are left out. *)

From Stdlib Require Import ZArith String Ascii List Bool Lia.
From Stdlib Require PrimFloat SpecFloat FloatOps.
From stdpp Require Import base option list strings pretty gmap fin_maps.

Local Open Scope string_scope.
Local Open Scope Z_scope.

(* ===================================================================== *)
(** ** JavaScript values and helpers *)
(* ===================================================================== *)

(** [JsonValue] of [types.ts]; objects keep their properties as an
    association list in insertion order. *)
#[local] Unset Elimination Schemes.
Inductive JsonValue : Type :=
  | JUndefined
  | JNull
  | JBool (b : bool)
  | JNum (n : Z)
  | JStr (s : string)
  | JArr (items : list JsonValue)
  | JObj (props : list (string * JsonValue)).
#[local] Set Elimination Schemes.

(** Truthiness of [s?: string]: [undefined] and [""] are falsy. *)
Definition truthy (o : option string) : bool :=
  match o with
  | Some s => negb (String.eqb s "")
  | None => false
  end.

(** [a ?? b] on two optional values. *)
Definition nullish {A : Type} (a b : option A) : option A :=
  match a with
  | Some x => Some x
  | None => b
  end.

Infix "??" := nullish (at level 61, left associativity).

(* ===================================================================== *)
(** ** Domain model ([types.ts]) *)
(* ===================================================================== *)

Module PluginFileRef.
Record t : Type := mk {
  path : option string;
  raw_url : option string;
  sha : option string;
  size : option Z
}.
End PluginFileRef.

Module PluginRepoRef.
Record t : Type := mk {
  name : option string;
  full_name : option string;
  html_url : option string;
  description : option string;
  stargazers_count : option Z;
  archived : option bool
}.
End PluginRepoRef.

(** [plugin_resource_id?: string | number]. *)
Inductive ResourceId : Type :=
  | RidString (s : string)
  | RidNumber (n : Z).

Module IndexedPlugin.
Record t : Type := mk {
  plugin_name : option string;
  plugin_author : option string;
  plugin_version : option string;
  plugin_description : option string;
  plugin_resource_id : option ResourceId;
  categories : option (list string);
  file : PluginFileRef.t;
  repository : option PluginRepoRef.t;
  extra : option (gmap string JsonValue)
}.
End IndexedPlugin.

Module PluginIndex.
Record t : Type := mk {
  generated_at : string;
  query : option string;
  count : Z;
  items : list IndexedPlugin.t
}.
End PluginIndex.

Module CachedEntry.
Record t : Type := mk {
  key : string;
  etag : option string;
  lastModified : option string;
  contentHash : option string;
  fileSha : option string;
  fileSize : option Z;
  notifiedAt : string
}.
End CachedEntry.

Module StateFile.
Record t : Type := mk {
  entries : gmap string CachedEntry.t;
  version : Z;
  updatedAt : string
}.
End StateFile.

(* ===================================================================== *)
(** ** Key derivation ([utils/plugin-key.ts]) *)
(* ===================================================================== *)

Definition pluginKey (plugin : IndexedPlugin.t) : string :=
  let file := IndexedPlugin.file plugin in
  if truthy (PluginFileRef.raw_url file) then
    default "" (PluginFileRef.raw_url file)
  else
    let repository :=
      default "repository"
        ((IndexedPlugin.repository plugin ≫= PluginRepoRef.full_name)
           ?? (IndexedPlugin.repository plugin ≫= PluginRepoRef.name)) in
    let path := default "file" (PluginFileRef.path file) in
    repository ++ "::" ++ path.

(* ===================================================================== *)
(** ** Merge engine ([merger.ts]) *)
(* ===================================================================== *)

(** The test [secondary === ""] of [mergeField], per instantiation of its
    type parameter. *)
Class StrictEqEmptyString (T : Type) := is_empty_string : T → bool.

#[global] Instance string_is_empty : StrictEqEmptyString string :=
  λ s, String.eqb s "".

#[global] Instance resource_id_is_empty : StrictEqEmptyString ResourceId :=
  λ r, match r with
       | RidString s => String.eqb s ""
       | RidNumber _ => false
       end.

Definition mergeField {T : Type} `{StrictEqEmptyString T}
    (primary secondary : option T) : option T :=
  match secondary with
  | None => primary
  | Some v => if is_empty_string v then primary else secondary
  end.

(** [xs?.length] as a condition. *)
Definition has_length {A : Type} (xs : option (list A)) : bool :=
  match xs with
  | Some (_ :: _) => true
  | _ => false
  end.

(** [{ ...a, ...b }] on optional objects: spreading [undefined] adds
    nothing, and a property of [b] replaces the one of [a]. *)
Definition spread2 {V : Type} (a b : option (gmap string V)) : gmap string V :=
  default ∅ b ∪ default ∅ a.

Definition mergePlugin (existing incoming : IndexedPlugin.t) : IndexedPlugin.t :=
  {| IndexedPlugin.plugin_name :=
       mergeField (IndexedPlugin.plugin_name existing) (IndexedPlugin.plugin_name incoming);
     IndexedPlugin.plugin_author :=
       mergeField (IndexedPlugin.plugin_author existing) (IndexedPlugin.plugin_author incoming);
     IndexedPlugin.plugin_version :=
       mergeField (IndexedPlugin.plugin_version existing) (IndexedPlugin.plugin_version incoming);
     IndexedPlugin.plugin_description :=
       mergeField (IndexedPlugin.plugin_description existing)
                  (IndexedPlugin.plugin_description incoming);
     IndexedPlugin.plugin_resource_id :=
       mergeField (IndexedPlugin.plugin_resource_id existing)
                  (IndexedPlugin.plugin_resource_id incoming);
     IndexedPlugin.categories :=
       if has_length (IndexedPlugin.categories incoming)
       then IndexedPlugin.categories incoming
       else IndexedPlugin.categories existing;
     IndexedPlugin.file :=
       if truthy (PluginFileRef.raw_url (IndexedPlugin.file incoming))
       then IndexedPlugin.file incoming
       else IndexedPlugin.file existing;
     IndexedPlugin.repository :=
       IndexedPlugin.repository incoming ?? IndexedPlugin.repository existing;
     IndexedPlugin.extra :=
       Some (spread2 (IndexedPlugin.extra existing) (IndexedPlugin.extra incoming)) |}.

(** The JavaScript [Map<string, V>]: entries in insertion order; [set] on a
    key already present replaces the value where the key stands. *)
Module JsMap.
Section Ops.
Context {V : Type}.

Definition t : Type := list (string * V).

Definition empty : t := [].

Fixpoint get (k : string) (m : t) : option V :=
  match m with
  | [] => None
  | (k', v) :: m' => if String.eqb k' k then Some v else get k m'
  end.

Fixpoint set (k : string) (v : V) (m : t) : t :=
  match m with
  | [] => [(k, v)]
  | (k', v') :: m' =>
      if String.eqb k' k then (k', v) :: m' else (k', v') :: set k v m'
  end.

Definition keys (m : t) : list string := map fst m.
Definition values (m : t) : list V := map snd m.
End Ops.
Arguments t : clear implicits.
End JsMap.

(** First loop of [mergeIndices]: the map seeded from the base index. *)
Definition seedFromBase (oxideItems : list IndexedPlugin.t) : JsMap.t IndexedPlugin.t :=
  fold_left (λ merged plugin, JsMap.set (pluginKey plugin) plugin merged)
            oxideItems JsMap.empty.

(** Body of the second loop. *)
Definition mergeInto (merged : JsMap.t IndexedPlugin.t) (plugin : IndexedPlugin.t)
    : JsMap.t IndexedPlugin.t :=
  let key := pluginKey plugin in
  let existing := JsMap.get key merged in
  JsMap.set key
    (match existing with
     | Some existing => mergePlugin existing plugin
     | None => plugin
     end)
    merged.

Definition mergedMap (oxide crawled : PluginIndex.t) : JsMap.t IndexedPlugin.t :=
  fold_left mergeInto (PluginIndex.items crawled) (seedFromBase (PluginIndex.items oxide)).

(** [mergeIndices]; [now] is the value of [new Date().toISOString()]. *)
Definition mergeIndices (now : string) (oxide crawled : PluginIndex.t) : PluginIndex.t :=
  let items := JsMap.values (mergedMap oxide crawled) in
  {| PluginIndex.generated_at := now;
     PluginIndex.query :=
       Some ("Merged oxide(" ++ pretty (PluginIndex.count oxide)
               ++ ") + crawled(" ++ pretty (PluginIndex.count crawled) ++ ")");
     PluginIndex.count := Z.of_nat (length items);
     PluginIndex.items := items |}.

(* ===================================================================== *)
(** ** Exceptions *)
(* ===================================================================== *)

(** JavaScript numbers that are not whole: IEEE 754 doubles, with the
    multiplication of the machine. *)
Module Double.
Import PrimFloat.

Definition t : Type := float.

Definition one : t := 1%float.
Definition thousand : t := 1000%float.

(** [x * y]. *)
Definition times (x y : t) : t := PrimFloat.mul x y.

(** The least integer that is not below a finite [x]; [None] for [NaN] and
    the infinities. *)
Definition ceiling (x : t) : option Z :=
  match FloatOps.Prim2SF x with
  | SpecFloat.S754_zero _ => Some 0
  | SpecFloat.S754_finite negative m e =>
      let v := if negative then Z.neg m else Z.pos m in
      Some (if 0 <=? e then v * 2 ^ e else - ((- v) / 2 ^ (- e)))
  | SpecFloat.S754_infinity _ | SpecFloat.S754_nan => None
  end.
End Double.

(** A number of milliseconds as [sleep] is given it: whole, or one of the
    [NaN] and the infinities that [Math.ceil] passes through. *)
Inductive Millis : Type :=
  | Ms (n : Z)
  | NotFinite (x : Double.t).
Coercion Ms : Z >-> Millis.

(** [Math.ceil(x)]; the sign of a zero is not kept. *)
Definition Math_ceil (x : Double.t) : Millis :=
  match Double.ceiling x with
  | Some n => Ms n
  | None => NotFinite x
  end.

(** The [response] of an [AxiosError]; [retry_after] is
    [response.data.retry_after], in seconds. *)
Module AxiosResponse.
Record t : Type := mk {
  status : Z;
  statusText : option string;
  retry_after : option Double.t
}.
End AxiosResponse.

(** A thrown value: an [Error], or an [AxiosError] when [response] or
    [code] is set. *)
Module JsError.
Record t : Type := mk {
  message : string;
  code : option string;
  response : option AxiosResponse.t
}.
End JsError.

Definition Error (message : string) : JsError.t :=
  JsError.mk message None None.

(** How the evaluation of an expression ends. *)
Inductive Completion (A : Type) : Type :=
  | Returns (a : A)
  | Throws (e : JsError.t).
Arguments Returns {A} a.
Arguments Throws {A} e.

(* ===================================================================== *)
(** ** URL helper ([utils/url.ts]) and header parsing *)
(* ===================================================================== *)

(** [rawUrl.replace(/#/g, "%23")]. *)
Fixpoint normalizeRawUrl (rawUrl : string) : string :=
  match rawUrl with
  | EmptyString => EmptyString
  | String c rest =>
      if Ascii.eqb c "#"%char then "%23" ++ normalizeRawUrl rest
      else String c (normalizeRawUrl rest)
  end.

(** A JavaScript number that may be [NaN]. *)
Inductive JsNumber : Type :=
  | NaN
  | Num (n : Z).

(** [a === b] on numbers: [NaN] is equal to nothing. *)
Definition strict_eq (a b : JsNumber) : bool :=
  match a, b with
  | Num x, Num y => Z.eqb x y
  | _, _ => false
  end.

Definition is_space (c : ascii) : bool :=
  let n := nat_of_ascii c in
  (Nat.eqb n 32 || (Nat.leb 9 n && Nat.leb n 13))%bool.

Definition digit_of (c : ascii) : option Z :=
  let n := nat_of_ascii c in
  if (Nat.leb 48 n && Nat.leb n 57)%bool then Some (Z.of_nat n - 48) else None.

Fixpoint skip_spaces (s : string) : string :=
  match s with
  | String c rest => if is_space c then skip_spaces rest else s
  | EmptyString => s
  end.

(** Longest prefix of decimal digits, read left to right. *)
Fixpoint read_digits (acc : option Z) (s : string) : option Z :=
  match s with
  | String c rest =>
      match digit_of c with
      | Some d => read_digits (Some (10 * default 0 acc + d)) rest
      | None => acc
      end
  | EmptyString => acc
  end.

(** [Number.parseInt(s, 10)]. *)
Definition parseInt10 (s : string) : JsNumber :=
  let s := skip_spaces s in
  let '(negative, digits) :=
    match s with
    | String c rest =>
        if Ascii.eqb c "-"%char then (true, rest)
        else if Ascii.eqb c "+"%char then (false, rest)
        else (false, s)
    | EmptyString => (false, s)
    end in
  match read_digits None digits with
  | Some n => Num (if negative : bool then - n else n)
  | None => NaN
  end.

(* ===================================================================== *)
(** ** HEAD metadata ([api.ts]) *)
(* ===================================================================== *)

(** Result of [head] in [utils/http.ts]: lower-cased headers and status. *)
Module HeadResponse.
Record t : Type := mk {
  headers : gmap string string;
  status : Z
}.
End HeadResponse.

Module HeadMeta.
Record t : Type := mk {
  etag : option string;
  lastModified : option string;
  contentLength : option JsNumber;
  contentType : option string
}.
(** The object [{}]. *)
Definition empty : t := mk None None None None.
End HeadMeta.

Section Api.
(** The transport: [head i url] is what the [i]-th probe of the run
    (the one made for the record at position [i]) gets for [url]. *)
Variable head : nat → string → Completion HeadResponse.t.

Definition headMeta (i : nat) (rawUrl : string) : HeadMeta.t :=
  match head i (normalizeRawUrl rawUrl) with
  | Returns response =>
      let headers := HeadResponse.headers response in
      {| HeadMeta.etag := headers !! "etag";
         HeadMeta.lastModified := headers !! "last-modified";
         HeadMeta.contentLength :=
           if truthy (headers !! "content-length")
           then parseInt10 <$> headers !! "content-length"
           else None;
         HeadMeta.contentType := headers !! "content-type" |}
  | Throws error => HeadMeta.empty
  end.
End Api.

(* ===================================================================== *)
(** ** Delta engine ([diff.ts]) *)
(* ===================================================================== *)

Inductive DiffReason : Type :=
  | New
  | Updated.

Module DiffMetadata.
Record t : Type := mk {
  etag : option string;
  lastModified : option string;
  contentLength : option JsNumber;
  requiresContentHashCheck : bool
}.
End DiffMetadata.

Module DiffItem.
Record t : Type := mk {
  plugin : IndexedPlugin.t;
  reason : DiffReason;
  cacheKey : string;
  metadata : DiffMetadata.t;
  previous : option CachedEntry.t
}.
End DiffItem.

Definition hasReliableMarkers (meta : DiffMetadata.t) (plugin : IndexedPlugin.t) : bool :=
  truthy (DiffMetadata.etag meta)
  || truthy (DiffMetadata.lastModified meta)
  || truthy (PluginFileRef.sha (IndexedPlugin.file plugin)).

(** [a && b && a === b] on optional strings. *)
Definition same_marker (a b : option string) : bool :=
  truthy a && truthy b && bool_decide (a = b).

(** [a !== undefined && b !== undefined && a === b] on optional numbers. *)
Definition same_number (a b : option JsNumber) : bool :=
  match a, b with
  | Some x, Some y => strict_eq x y
  | _, _ => false
  end.

Definition unchanged (meta : DiffMetadata.t) (plugin : IndexedPlugin.t)
    (previous : CachedEntry.t) : bool :=
  if same_marker (DiffMetadata.etag meta) (CachedEntry.etag previous) then true
  else if same_marker (DiffMetadata.lastModified meta) (CachedEntry.lastModified previous)
  then true
  else if same_marker (PluginFileRef.sha (IndexedPlugin.file plugin))
                      (CachedEntry.fileSha previous)
  then true
  else if same_number (DiffMetadata.contentLength meta)
                      (Num <$> CachedEntry.fileSize previous)
  then true
  else if same_number (Num <$> PluginFileRef.size (IndexedPlugin.file plugin))
                      (Num <$> CachedEntry.fileSize previous)
  then true
  else false.

Section Diff.
Variable head : nat → string → Completion HeadResponse.t.

(** [plugin.file.raw_url ? await headMeta(plugin.file.raw_url) : {}]. *)
Definition probe (i : nat) (plugin : IndexedPlugin.t) : HeadMeta.t :=
  let raw_url := PluginFileRef.raw_url (IndexedPlugin.file plugin) in
  if truthy raw_url then headMeta head i (default "" raw_url) else HeadMeta.empty.

(** The task [computeDelta] runs for the record at position [i]; [None]
    is its [null] result. *)
Definition deltaTask (cache : gmap string CachedEntry.t) (i : nat)
    (plugin : IndexedPlugin.t) : option DiffItem.t :=
  let key := pluginKey plugin in
  match cache !! key with
  | None =>
      let meta := probe i plugin in
      let metadata :=
        {| DiffMetadata.etag := HeadMeta.etag meta;
           DiffMetadata.lastModified := HeadMeta.lastModified meta;
           DiffMetadata.contentLength :=
             HeadMeta.contentLength meta
               ?? (Num <$> PluginFileRef.size (IndexedPlugin.file plugin));
           DiffMetadata.requiresContentHashCheck := false |} in
      Some {| DiffItem.plugin := plugin;
              DiffItem.reason := New;
              DiffItem.cacheKey := key;
              DiffItem.metadata := metadata;
              DiffItem.previous := None |}
  | Some previous =>
      let meta := probe i plugin in
      let baseMeta :=
        {| DiffMetadata.etag := HeadMeta.etag meta;
           DiffMetadata.lastModified := HeadMeta.lastModified meta;
           DiffMetadata.contentLength :=
             HeadMeta.contentLength meta
               ?? (Num <$> PluginFileRef.size (IndexedPlugin.file plugin));
           DiffMetadata.requiresContentHashCheck := false |} in
      let reliable := hasReliableMarkers baseMeta plugin in
      let metadata :=
        {| DiffMetadata.etag := DiffMetadata.etag baseMeta;
           DiffMetadata.lastModified := DiffMetadata.lastModified baseMeta;
           DiffMetadata.contentLength := DiffMetadata.contentLength baseMeta;
           DiffMetadata.requiresContentHashCheck := negb reliable |} in
      if negb reliable then
        Some {| DiffItem.plugin := plugin;
                DiffItem.reason := Updated;
                DiffItem.cacheKey := key;
                DiffItem.metadata := metadata;
                DiffItem.previous := Some previous |}
      else if unchanged metadata plugin previous then None
      else
        Some {| DiffItem.plugin := plugin;
                DiffItem.reason := Updated;
                DiffItem.cacheKey := key;
                DiffItem.metadata := metadata;
                DiffItem.previous := Some previous |}
  end.

(** [Promise.all] keeps the order of the records, whatever the order in
    which the limited tasks finish; the [null] results are filtered out.
    The progress counter of the source is only logged. *)
Definition computeDelta (plugins : list IndexedPlugin.t)
    (cache : gmap string CachedEntry.t) : list DiffItem.t :=
  omap id (imap (deltaTask cache) plugins).
End Diff.

(* ===================================================================== *)
(** ** Configuration ([config.ts]) *)
(* ===================================================================== *)

Definition STATE_PATH : string := "plugins-state.json".
Definition STATE_VERSION : Z := 1.

(** The values read from the environment when the module is loaded. *)
Module Config.
Record t : Type := mk {
  WEBHOOK_URL : string;
  MAX_ATTACHMENT_BYTES : JsNumber;
  ONLY_CS_ATTACHMENTS : bool
}.
End Config.

(* ===================================================================== *)
(** ** The world a run acts on, and the monad of its effects *)
(* ===================================================================== *)

(** What a path of the file system holds: text that [JSON.parse] accepts,
    or anything that makes [fs.readJson] throw. *)
Inductive FileContent : Type :=
  | Unreadable (reason : string)
  | JsonText (value : JsonValue).

(** One webhook call as a mock would record it: arguments and result. *)
Module AttachmentPayload.
Record t : Type := mk {
  name : string;
  buffer : list Byte.byte
}.
End AttachmentPayload.

Module WebhookCall.
Record t : Type := mk {
  plugin : IndexedPlugin.t;
  attachment : option AttachmentPayload.t;
  result : Completion unit
}.
End WebhookCall.

(** Requests of the webhook sender ([webhook.ts]). *)
Module DiscordEmbedField.
Record t : Type := mk {
  name : string;
  value : string;
  inline : option bool
}.
End DiscordEmbedField.

Module DiscordEmbed.
Record t : Type := mk {
  title : string;
  description : string;
  color : Z;
  fields : list DiscordEmbedField.t;
  timestamp : string
}.
End DiscordEmbed.

(** The two bodies [httpClient.post] is called with: the JSON object
    [{ embeds: [embed] }], or the multipart form carrying it and a file. *)
Inductive WebhookBody : Type :=
  | JsonBody (embeds : list DiscordEmbed.t)
  | FormBody (embeds : list DiscordEmbed.t) (filename contentType : string)
             (file : list Byte.byte).

(** What one call of [sendPluginWebhook] does to the outside: the post of
    attempt [attempt] with its outcome, and the timer waits. *)
Inductive WebhookEvent : Type :=
  | Posted (attempt : nat) (body : WebhookBody) (outcome : Completion unit)
  | Slept (delayMs : Millis).

(** [state] is the private field of the one [StateCache] instance of the
    run, [disk] the file system, [clock] and [ticks] the successive values
    of [new Date().toISOString()], [net] the outside network, [timeline]
    the posts and waits so far, and [webhookCalls] the finished calls of
    [sendPluginWebhook].  Writes to [disk] always succeed; the logger,
    which only prints, is left out. *)
Module World.
Record t {Net : Type} : Type := mk {
  state : StateFile.t;
  disk : gmap string FileContent;
  clock : nat → string;
  ticks : nat;
  net : Net;
  timeline : list WebhookEvent;
  webhookCalls : list WebhookCall.t
}.
Arguments t : clear implicits.
Arguments mk {Net}.

Section Updates.
Context {Net : Type}.

Definition with_state (s : StateFile.t) (w : t Net) : t Net :=
  mk s (disk w) (clock w) (ticks w) (net w) (timeline w) (webhookCalls w).

Definition with_disk (d : gmap string FileContent) (w : t Net) : t Net :=
  mk (state w) d (clock w) (ticks w) (net w) (timeline w) (webhookCalls w).

Definition tick (w : t Net) : t Net :=
  mk (state w) (disk w) (clock w) (S (ticks w)) (net w) (timeline w) (webhookCalls w).

Definition with_net (n : Net) (w : t Net) : t Net :=
  mk (state w) (disk w) (clock w) (ticks w) n (timeline w) (webhookCalls w).

Definition happened (ev : WebhookEvent) (w : t Net) : t Net :=
  mk (state w) (disk w) (clock w) (ticks w) (net w) (timeline w ++ [ev]) (webhookCalls w).

Definition called (c : WebhookCall.t) (w : t Net) : t Net :=
  mk (state w) (disk w) (clock w) (ticks w) (net w) (timeline w) (webhookCalls w ++ [c]).
End Updates.
End World.

(** A computation that reads and writes a store [S] and returns or throws;
    the store survives a throw. *)
Definition Js (S A : Type) : Type := S → Completion A * S.

#[global] Instance js_ret {S : Type} : MRet (Js S) :=
  λ A a w, (Returns a, w).

#[global] Instance js_bind {S : Type} : MBind (Js S) :=
  λ A B f m w,
    match m w with
    | (Returns a, w') => f a w'
    | (Throws e, w') => (Throws e, w')
    end.

Definition throw {S A : Type} (e : JsError.t) : Js S A :=
  λ w, (Throws e, w).

(** [try { body } catch (error) { handler }]. *)
Definition try_catch {S A : Type} (body : Js S A) (handler : JsError.t → Js S A)
    : Js S A :=
  λ w,
    match body w with
    | (Returns a, w') => (Returns a, w')
    | (Throws e, w') => handler e w'
    end.

Definition gets {S A : Type} (f : S → A) : Js S A :=
  λ w, (Returns (f w), w).

Definition modify {S : Type} (f : S → S) : Js S unit :=
  λ w, (Returns tt, f w).

(** [for (const x of xs) { body }] over loop variables [L]. *)
Fixpoint for_of {S A L : Type} (xs : list A) (body : L → A → Js S L) (l : L)
    : Js S L :=
  match xs with
  | [] => mret l
  | x :: xs' => l' ← body l x; for_of xs' body l'
  end.

(* ===================================================================== *)
(** ** JSON form of the state file *)
(* ===================================================================== *)

(** A property whose value is [undefined] is left out by
    [JSON.stringify]. *)
Definition optional_prop (name : string) (v : option JsonValue)
    : list (string * JsonValue) :=
  match v with
  | Some v => [(name, v)]
  | None => []
  end.

Definition entryToJson (e : CachedEntry.t) : JsonValue :=
  JObj ([("key", JStr (CachedEntry.key e))]
          ++ optional_prop "etag" (JStr <$> CachedEntry.etag e)
          ++ optional_prop "lastModified" (JStr <$> CachedEntry.lastModified e)
          ++ optional_prop "contentHash" (JStr <$> CachedEntry.contentHash e)
          ++ optional_prop "fileSha" (JStr <$> CachedEntry.fileSha e)
          ++ optional_prop "fileSize" (JNum <$> CachedEntry.fileSize e)
          ++ [("notifiedAt", JStr (CachedEntry.notifiedAt e))]).

(** What [fs.writeJson] serialises for a [StateFile]. *)
Definition stateToJson (s : StateFile.t) : JsonValue :=
  JObj [("entries",
         JObj (prod_map id entryToJson <$> map_to_list (StateFile.entries s)));
        ("version", JNum (StateFile.version s));
        ("updatedAt", JStr (StateFile.updatedAt s))].

(** Own property [name] of a value, [None] for [undefined]; property names
    are unique in an object. *)
Definition prop (name : string) (v : JsonValue) : option JsonValue :=
  match v with
  | JObj props => snd <$> find (λ kv, String.eqb (fst kv) name) props
  | _ => None
  end.

Definition asString (v : option JsonValue) : option string :=
  match v with
  | Some (JStr s) => Some s
  | _ => None
  end.

Definition asNumber (v : option JsonValue) : option Z :=
  match v with
  | Some (JNum n) => Some n
  | _ => None
  end.

(** The unchecked casts [as CachedEntry] and [as StateFile]: the parsed
    tree read through the interface.  A property that does not have the
    declared type reads as absent ([""] where the interface requires a
    string), and properties outside the interface are not kept. *)
Definition asCachedEntry (v : JsonValue) : CachedEntry.t :=
  {| CachedEntry.key := default "" (asString (prop "key" v));
     CachedEntry.etag := asString (prop "etag" v);
     CachedEntry.lastModified := asString (prop "lastModified" v);
     CachedEntry.contentHash := asString (prop "contentHash" v);
     CachedEntry.fileSha := asString (prop "fileSha" v);
     CachedEntry.fileSize := asNumber (prop "fileSize" v);
     CachedEntry.notifiedAt := default "" (asString (prop "notifiedAt" v)) |}.

Definition asStateFile (v : JsonValue) : StateFile.t :=
  {| StateFile.entries :=
       match prop "entries" v with
       | Some (JObj props) => list_to_map (prod_map id asCachedEntry <$> props)
       | _ => ∅
       end;
     StateFile.version := default 0 (asNumber (prop "version" v));
     StateFile.updatedAt := default "" (asString (prop "updatedAt" v)) |}.

(* ===================================================================== *)
(** ** State cache ([cache.ts]) *)
(* ===================================================================== *)

Definition EMPTY_STATE : StateFile.t :=
  {| StateFile.entries := ∅;
     StateFile.version := STATE_VERSION;
     StateFile.updatedAt := "" |}.

Section StateCache.
Context {Net : Type}.
#[local] Abbreviation W := (World.t Net).

Definition set_state (s : StateFile.t) : Js W unit :=
  modify (World.with_state s).

Definition set_disk (d : gmap string FileContent) : Js W unit :=
  modify (World.with_disk d).

(** [new Date().toISOString()]. *)
Definition now : Js W string :=
  λ w, (Returns (World.clock w (World.ticks w)), World.tick w).

(** The [fs-extra] calls the cache makes. *)
Definition pathExists (path : string) : Js W bool :=
  gets (λ w : W, bool_decide (is_Some (World.disk w !! path))).

Definition readJson (path : string) : Js W JsonValue :=
  λ w,
    match World.disk w !! path with
    | Some (JsonText value) => (Returns value, w)
    | Some (Unreadable reason) => (Throws (Error reason), w)
    | None => (Throws (Error "ENOENT: no such file or directory"), w)
    end.

Definition writeJson (path : string) (value : JsonValue) : Js W unit :=
  d ← gets World.disk; set_disk (<[path := JsonText value]> d).

(** [fs.move(src, dest, { overwrite: true })]. *)
Definition move (src dest : string) : Js W unit :=
  d ← gets World.disk;
  match d !! src with
  | Some content => set_disk (<[dest := content]> (delete src d))
  | None => throw (Error "ENOENT: no such file or directory")
  end.

(** [parsed.version]: reading a property of [null] or [undefined] is a
    [TypeError]. *)
Definition read_version (parsed : JsonValue) : Js W (option JsonValue) :=
  match parsed with
  | JNull | JUndefined =>
      throw (Error "Cannot read properties of null (reading 'version')")
  | _ => mret (prop "version" parsed)
  end.

(** [v !== STATE.VERSION]. *)
Definition version_differs (v : option JsonValue) : bool :=
  match v with
  | Some (JNum n) => negb (Z.eqb n STATE_VERSION)
  | _ => true
  end.


Definition load : Js W unit :=
  present ← pathExists STATE_PATH;
  if negb present then
    set_state EMPTY_STATE
  else
    try_catch
      (parsed ← readJson STATE_PATH;
       version ← read_version parsed;
       if version_differs version then
         set_state EMPTY_STATE
       else
         set_state (asStateFile parsed))
      (λ error, set_state EMPTY_STATE).

Definition get (key : string) : Js W (option CachedEntry.t) :=
  gets (λ w : W, StateFile.entries (World.state w) !! key).

Definition set (entry : CachedEntry.t) : Js W unit :=
  s ← gets World.state;
  set_state {| StateFile.entries :=
                 <[CachedEntry.key entry := entry]> (StateFile.entries s);
               StateFile.version := StateFile.version s;
               StateFile.updatedAt := StateFile.updatedAt s |}.

Definition save : Js W unit :=
  s ← gets World.state;
  updatedAt ← now;
  let payload :=
    {| StateFile.entries := StateFile.entries s;
       StateFile.version := StateFile.version s;
       StateFile.updatedAt := updatedAt |} in
  let tempPath := STATE_PATH ++ ".tmp" in
  writeJson tempPath (stateToJson payload);;
  move tempPath STATE_PATH;;
  set_state payload.

Definition clear : Js W unit :=
  set_state EMPTY_STATE;; save.

Definition stats : Js W (Z * string) :=
  gets (λ w : W,
    (Z.of_nat (size (StateFile.entries (World.state w))),
     StateFile.updatedAt (World.state w))).

(** [Object.values(this.state.entries)]. *)
Definition entries : Js W (list CachedEntry.t) :=
  gets (λ w : W, (map_to_list (StateFile.entries (World.state w))).*2).
End StateCache.

(* ===================================================================== *)
(** ** String helpers used by the sender and the pipeline *)
(* ===================================================================== *)

Definition lower_ascii (c : ascii) : ascii :=
  let n := nat_of_ascii c in
  if (Nat.leb 65 n && Nat.leb n 90)%bool then ascii_of_nat (n + 32) else c.

(** [s.toLowerCase()], on the ASCII letters. *)
Fixpoint toLowerCase (s : string) : string :=
  match s with
  | EmptyString => EmptyString
  | String c rest => String (lower_ascii c) (toLowerCase rest)
  end.

(** The character whose UTF-8 form starts with the byte [c]: the number of
    bytes that follow [c] in it, and the number of UTF-16 code units it
    takes (two outside the basic plane, which is where the UTF-8 form has
    four bytes). *)
Definition utf8_tail (c : ascii) : nat :=
  let n := nat_of_ascii c in
  if Nat.ltb n 192 then 0%nat
  else if Nat.ltb n 224 then 1%nat
  else if Nat.ltb n 240 then 2%nat
  else 3%nat.

Definition utf16_units (c : ascii) : nat :=
  if Nat.ltb (nat_of_ascii c) 240 then 1%nat else 2%nat.

(** [s.length], for what is left of a string after the first byte of a
    character that has [tail] more bytes. *)
Fixpoint utf16_length_from (tail : nat) (s : string) : nat :=
  match s with
  | EmptyString => 0%nat
  | String c rest =>
      match tail with
      | S tail' => utf16_length_from tail' rest
      | O => (utf16_units c + utf16_length_from (utf8_tail c) rest)%nat
      end
  end.

(** [s.length]. *)
Definition utf16_length (s : string) : nat := utf16_length_from 0%nat s.

(** The first of the two UTF-16 code units of the character with the
    four-byte form [c :: rest], in its own three-byte form. *)
Definition high_surrogate (c : ascii) (rest : string) : string :=
  let bits (b : ascii) : Z := Z.of_nat (nat_of_ascii b) in
  let byte (i : nat) : Z := default 128 (bits <$> String.get i rest) in
  let codePoint : Z :=
    (bits c mod 8) * 262144 + (byte 0%nat mod 64) * 4096
    + (byte 1%nat mod 64) * 64 + byte 2%nat mod 64 in
  let unit : Z := 55296 + (codePoint - 65536) / 1024 in
  let char (n : Z) : ascii := ascii_of_nat (Z.to_nat n) in
  String (char 237)
    (String (char (128 + (unit / 64) mod 64))
       (String (char (128 + unit mod 64)) EmptyString)).

(** The first [units] code units of what is left of a string after the
    first byte of a character that has [tail] more bytes; a character of
    two units that only one unit is left for gives its first unit. *)
Fixpoint slice_from (units tail : nat) (s : string) : string :=
  match s with
  | EmptyString => EmptyString
  | String c rest =>
      match tail with
      | S tail' => String c (slice_from units tail' rest)
      | O =>
          if Nat.leb (utf16_units c) units then
            String c (slice_from (units - utf16_units c)%nat (utf8_tail c) rest)
          else if Nat.eqb units 1 then high_surrogate c rest
          else EmptyString
      end
  end.

(** [s.slice(0, units)]. *)
Definition slice (units : nat) (s : string) : string := slice_from units 0%nat s.

(** [s.endsWith(suffix)]. *)
Definition endsWith (s suffix : string) : bool :=
  let n := String.length s in
  let m := String.length suffix in
  (Nat.leb m n && String.eqb (substring (n - m) m s) suffix)%bool.

(** [path.split("/").pop()]: what follows the last ["/"]. *)
Fixpoint last_segment (current : string) (path : string) : string :=
  match path with
  | EmptyString => current
  | String c rest =>
      if Ascii.eqb c "/"%char then last_segment EmptyString rest
      else last_segment (current ++ String c EmptyString) rest
  end.

Definition byteLength (buffer : list Byte.byte) : Z := Z.of_nat (length buffer).

(** [n > limit] and [n <= limit] against a limit that may be [NaN]. *)
Definition exceeds (n : Z) (limit : JsNumber) : bool :=
  match limit with
  | Num l => Z.ltb l n
  | NaN => false
  end.

Definition within (n : Z) (limit : JsNumber) : bool :=
  match limit with
  | Num l => Z.leb n l
  | NaN => false
  end.

(* ===================================================================== *)
(** ** Webhook sender ([webhook.ts]) *)
(* ===================================================================== *)

Definition MAX_WEBHOOK_ATTEMPTS : nat := 5.

(** [Math.ceil(retryAfterSeconds * 1000)] with
    [retryAfterSeconds = response?.data?.retry_after ?? 1]; the product is
    that of two doubles, rounded to a double. *)
Definition retryDelay (response : option AxiosResponse.t) : Millis :=
  let retryAfterSeconds := default Double.one (response ≫= AxiosResponse.retry_after) in
  Math_ceil (Double.times retryAfterSeconds Double.thousand).

(** [500 * (attempt + 1)]. *)
Definition serverErrorDelay (attempt : nat) : Z :=
  500 * (Z.of_nat attempt + 1).

(** How one turn of the retry loop ends. *)
Inductive LoopExit : Type :=
  | Return
  | Continue.

Section Webhook.
Context {Net : Type}.
#[local] Abbreviation W := (World.t Net).

Variable config : Config.t.
(** [sanitize-filename]. *)
Variable sanitize : string → string.
(** [httpClient.post(url, body)] against the outside network. *)
Variable post : string → WebhookBody → Net → Completion unit * Net.

Definition buildEmbed (plugin : IndexedPlugin.t) : Js W DiscordEmbed.t :=
  let field name value inline := DiscordEmbedField.mk name value (Some inline) in
  let fields : list DiscordEmbedField.t :=
    ((if truthy (IndexedPlugin.plugin_author plugin)
     then [field "👤 Author" (default "" (IndexedPlugin.plugin_author plugin)) true]
     else [])
    ++ (if truthy (IndexedPlugin.plugin_version plugin)
        then [field "🏷 Version" (default "" (IndexedPlugin.plugin_version plugin)) true]
        else [])
    ++ (if truthy (IndexedPlugin.repository plugin ≫= PluginRepoRef.full_name)
        then [field "📦 Repository"
                (default "" (IndexedPlugin.repository plugin ≫= PluginRepoRef.full_name))
                true]
        else [])
    ++ (if has_length (IndexedPlugin.categories plugin)
        then [field "🏷 Categories"
                (String.concat ", " (default [] (IndexedPlugin.categories plugin)))
                false]
        else [])
    ++ (if truthy (PluginFileRef.raw_url (IndexedPlugin.file plugin))
        then [field "🔗 Raw"
                (default "" (PluginFileRef.raw_url (IndexedPlugin.file plugin)))
                false]
        else []))%list in
  timestamp ← now;
  mret {| DiscordEmbed.title :=
            "🧩 " ++ default "Plugin"
                       (IndexedPlugin.plugin_name plugin
                          ?? PluginFileRef.path (IndexedPlugin.file plugin));
          DiscordEmbed.description :=
            default "New or updated plugin detected."
                    (slice 500 <$> IndexedPlugin.plugin_description plugin);
          DiscordEmbed.color := 44543;
          DiscordEmbed.fields := fields;
          DiscordEmbed.timestamp := timestamp |}.

(** [await sleep(delayMs)]. *)
Definition sleep (delayMs : Millis) : Js W unit :=
  modify (World.happened (Slept delayMs)).

Definition attachmentAllowed (plugin : IndexedPlugin.t)
    (attachment : AttachmentPayload.t) : bool :=
  if exceeds (byteLength (AttachmentPayload.buffer attachment))
             (Config.MAX_ATTACHMENT_BYTES config)
  then false
  else if Config.ONLY_CS_ATTACHMENTS config
          && negb (endsWith (toLowerCase (AttachmentPayload.name attachment)) ".cs")
  then false
  else true.

(** The request of one attempt: the form when the attachment may go out,
    the plain JSON body otherwise. *)
Definition requestBody (plugin : IndexedPlugin.t) (embed : DiscordEmbed.t)
    (attachment : option AttachmentPayload.t) (sanitizedName : option string)
    : WebhookBody :=
  match attachment with
  | Some a =>
      if truthy sanitizedName && attachmentAllowed plugin a
      then FormBody [embed] (default "" sanitizedName) "text/plain"
                    (AttachmentPayload.buffer a)
      else JsonBody [embed]
  | None => JsonBody [embed]
  end.

(** [await httpClient.post(DISCORD.WEBHOOK_URL, body)] at attempt
    [attempt]. *)
Definition httpPost (attempt : nat) (body : WebhookBody) : Js W unit :=
  λ w,
    let '(outcome, n) := post (Config.WEBHOOK_URL config) body (World.net w) in
    (outcome, World.happened (Posted attempt body outcome) (World.with_net n w)).

(** The loop [for (attempt = 0; attempt < MAX_WEBHOOK_ATTEMPTS; attempt += 1)]
    from [attempt] on, [remaining] being [MAX_WEBHOOK_ATTEMPTS - attempt],
    followed by the [throw] after the loop. *)
Fixpoint attempts (plugin : IndexedPlugin.t) (embed : DiscordEmbed.t)
    (attachment : option AttachmentPayload.t) (sanitizedName : option string)
    (remaining attempt : nat) : Js W unit :=
  match remaining with
  | O => throw (Error "Failed to deliver webhook after retries.")
  | S remaining' =>
      exit ← try_catch
        (httpPost attempt (requestBody plugin embed attachment sanitizedName);;
         mret Return)
        (λ cause,
           let response := JsError.response cause in
           let status := default 0 (AxiosResponse.status <$> response) in
           if Z.eqb status 429 then
             sleep (retryDelay response);; mret Continue
           else if Z.leb 500 status && Z.ltb status 600 then
             sleep (serverErrorDelay attempt);; mret Continue
           else
             throw cause);
      match exit with
      | Return => mret tt
      | Continue =>
          attempts plugin embed attachment sanitizedName remaining' (S attempt)
      end
  end.

(** Body of [sendPluginWebhook]. *)
Definition sendPluginWebhook_body (plugin : IndexedPlugin.t)
    (attachment : option AttachmentPayload.t) : Js W unit :=
  if String.eqb (Config.WEBHOOK_URL config) "" then
    throw (Error "DISCORD_WEBHOOK_URL must be configured.")
  else
    embed ← buildEmbed plugin;
    let sanitizedName := sanitize <$> (AttachmentPayload.name <$> attachment) in
    attempts plugin embed attachment sanitizedName MAX_WEBHOOK_ATTEMPTS 0.

(** [sendPluginWebhook]; when the call is over, its arguments and result
    are appended to [webhookCalls]. *)
Definition sendPluginWebhook (plugin : IndexedPlugin.t)
    (attachment : option AttachmentPayload.t) : Js W unit :=
  λ w,
    let '(result, w') := sendPluginWebhook_body plugin attachment w in
    (result, World.called (WebhookCall.mk plugin attachment result) w').
End Webhook.

(* ===================================================================== *)
(** ** Sequential delivery ([cli.ts]) *)
(* ===================================================================== *)

(** The variables the upload loop changes. *)
Module LoopVars.
Record t : Type := mk {
  index : Z;
  uploaded : Z;
  processedKeys : gset string
}.
End LoopVars.

Section Cli.
Context {Net : Type}.
#[local] Abbreviation W := (World.t Net).

Variable config : Config.t.
Variable sanitize : string → string.
Variable post : string → WebhookBody → Net → Completion unit * Net.
(** [getBinary(url)] of the transport, reduced to the payload it returns. *)
Variable getBinary : string → Net → Completion (list Byte.byte) * Net.
(** [sha256] of [utils/hashing.ts]. *)
Variable sha256 : list Byte.byte → string.

(** [getFile] of [api.ts]. *)
Definition getFile (rawUrl : string) : Js W (list Byte.byte) :=
  λ w,
    let '(result, n) := getBinary (normalizeRawUrl rawUrl) (World.net w) in
    (result, World.with_net n w).

(** The filter that computes [pending]. *)
Definition is_pending (processedKeys : gset string) (plugin : IndexedPlugin.t) : bool :=
  if truthy (PluginFileRef.raw_url (IndexedPlugin.file plugin))
  then negb (bool_decide (pluginKey plugin ∈ processedKeys))
  else false.

(** [plugins.filter(...)], the [pending] list of a run and of a dry run. *)
Definition pendingOf (processedKeys : gset string) (plugins : list IndexedPlugin.t)
    : list IndexedPlugin.t :=
  filter (λ plugin, is_pending processedKeys plugin = true) plugins.

(** [new Set(state.entries().map(entry => entry.key))]. *)
Definition keysOf (es : list CachedEntry.t) : gset string :=
  list_to_set (CachedEntry.key <$> es).

(** Name given to the attachment of [plugin]. *)
Definition attachmentNameOf (plugin : IndexedPlugin.t) : string :=
  let path := PluginFileRef.path (IndexedPlugin.file plugin) in
  let candidateName :=
    if truthy path then last_segment "" (default "" path)
    else default "plugin" (IndexedPlugin.plugin_name plugin) in
  if endsWith (toLowerCase candidateName) ".cs" then candidateName
  else candidateName ++ ".cs".

(** Body of the loop over [plugins]. *)
Definition uploadOne (vars : LoopVars.t) (plugin : IndexedPlugin.t) : Js W LoopVars.t :=
  let rawUrl := PluginFileRef.raw_url (IndexedPlugin.file plugin) in
  if negb (truthy rawUrl) then mret vars
  else
    let rawUrl := default "" rawUrl in
    let key := pluginKey plugin in
    if bool_decide (key ∈ LoopVars.processedKeys vars) then mret vars
    else
      let index := LoopVars.index vars + 1 in
      let allowsAttachment :=
        negb (Config.ONLY_CS_ATTACHMENTS config)
        || endsWith (toLowerCase rawUrl) ".cs" in
      downloaded ←
        (if allowsAttachment then
           try_catch
             (attachmentBuffer ← getFile rawUrl;
              mret (Some attachmentBuffer, Some (sha256 attachmentBuffer)))
             (λ error, mret (None, None))
         else mret (None, None));
      let '(attachmentBuffer, contentHash) := downloaded in
      let attachmentName := attachmentNameOf plugin in
      let safeBuffer :=
        match attachmentBuffer with
        | Some buffer =>
            if within (byteLength buffer) (Config.MAX_ATTACHMENT_BYTES config)
            then Some buffer else None
        | None => None
        end in
      try_catch
        (sendPluginWebhook config sanitize post plugin
           (AttachmentPayload.mk attachmentName <$> safeBuffer);;
         notifiedAt ← now;
         set {| CachedEntry.key := key;
                CachedEntry.etag := None;
                CachedEntry.lastModified := None;
                CachedEntry.contentHash := contentHash;
                CachedEntry.fileSha := PluginFileRef.sha (IndexedPlugin.file plugin);
                CachedEntry.fileSize :=
                  (byteLength <$> safeBuffer)
                    ?? PluginFileRef.size (IndexedPlugin.file plugin);
                CachedEntry.notifiedAt := notifiedAt |};;
         save;;
         mret {| LoopVars.index := index;
                 LoopVars.uploaded := LoopVars.uploaded vars + 1;
                 LoopVars.processedKeys := {[key]} ∪ LoopVars.processedKeys vars |})
        (λ error,
           mret {| LoopVars.index := index;
                   LoopVars.uploaded := LoopVars.uploaded vars;
                   LoopVars.processedKeys := LoopVars.processedKeys vars |}).

Definition processAllPluginsSequentially (plugins : list IndexedPlugin.t) : Js W unit :=
  es ← entries;
  let processedKeys := keysOf es in
  let pending := pendingOf processedKeys plugins in
  if Nat.eqb (length pending) 0 then
    save
  else
    vars ← for_of plugins uploadOne
             {| LoopVars.index := 0;
                LoopVars.uploaded := 0;
                LoopVars.processedKeys := processedKeys |};
    if Z.eqb (LoopVars.uploaded vars) 0 then save else mret tt.

(** The [pending] list an invocation computes when it starts in [w]. *)
Definition pendingIn (w : W) (plugins : list IndexedPlugin.t) : list IndexedPlugin.t :=
  pendingOf (keysOf ((map_to_list (StateFile.entries (World.state w))).*2)) plugins.
End Cli.

(* ===================================================================== *)
(** ** The life of a [StateCache] instance *)
(* ===================================================================== *)


Section Instance.
Context {Net : Type}.
#[local] Abbreviation W := (World.t Net).



(** [new StateCache()] over the world [w]: the field starts as
    [EMPTY_STATE]. *)
Definition freshInstance (w : W) : W :=
  World.with_state EMPTY_STATE w.
End Instance.

(* ===================================================================== *)
(** ** Vocabulary of the specification *)
(* ===================================================================== *)

(** The key as the specification words it: the direct-download URL when
    present, otherwise the repository full name and the file path joined by
    ["::"], with the placeholders ["repository"] and ["file"]. *)
Definition specifiedKey (plugin : IndexedPlugin.t) : string :=
  match PluginFileRef.raw_url (IndexedPlugin.file plugin) with
  | Some url => url
  | None =>
      default "repository" (IndexedPlugin.repository plugin ≫= PluginRepoRef.full_name)
      ++ "::" ++ default "file" (PluginFileRef.path (IndexedPlugin.file plugin))
  end.

(** A scalar that is absent or empty. *)
Definition blank {T : Type} `{StrictEqEmptyString T} (o : option T) : Prop :=
  o = None ∨ ∃ v, o = Some v ∧ is_empty_string v = true.

(** "Take the enriched value unless it is absent or empty, in which case
    keep the base value." *)
Definition prefersEnriched {T : Type} `{StrictEqEmptyString T}
    (base enriched merged : option T) : Prop :=
  (blank enriched → merged = base) ∧ (¬ blank enriched → merged = enriched).

(** The record a merge returns for a record merged with itself: the same
    record, with an empty extension map if it had none. *)
Definition withExtensionMap (plugin : IndexedPlugin.t) : IndexedPlugin.t :=
  {| IndexedPlugin.plugin_name := IndexedPlugin.plugin_name plugin;
     IndexedPlugin.plugin_author := IndexedPlugin.plugin_author plugin;
     IndexedPlugin.plugin_version := IndexedPlugin.plugin_version plugin;
     IndexedPlugin.plugin_description := IndexedPlugin.plugin_description plugin;
     IndexedPlugin.plugin_resource_id := IndexedPlugin.plugin_resource_id plugin;
     IndexedPlugin.categories := IndexedPlugin.categories plugin;
     IndexedPlugin.file := IndexedPlugin.file plugin;
     IndexedPlugin.repository := IndexedPlugin.repository plugin;
     IndexedPlugin.extra := Some (default ∅ (IndexedPlugin.extra plugin)) |}.

(** The records of a list whose key is [k], in list order. *)
Definition keyed (k : string) (items : list IndexedPlugin.t) : list IndexedPlugin.t :=
  filter (λ plugin, pluginKey plugin = k) items.

(** The failures of a post the sender tells apart: a rate-limit response,
    a 5xx response, and the rest (another status, or no response at all). *)
Definition rateLimited (e : JsError.t) : Prop :=
  ∃ r, JsError.response e = Some r ∧ AxiosResponse.status r = 429.

Definition serverError (e : JsError.t) : Prop :=
  ∃ r, JsError.response e = Some r
       ∧ 500 ≤ AxiosResponse.status r ∧ AxiosResponse.status r < 600.

Definition isPost (ev : WebhookEvent) : bool :=
  match ev with
  | Posted _ _ _ => true
  | Slept _ => false
  end.

(** Attempt numbers of the posts of a timeline, in order. *)
Definition attemptsOf (evs : list WebhookEvent) : list nat :=
  omap (λ ev, match ev with Posted attempt _ _ => Some attempt | Slept _ => None end) evs.

(** The timelines the retry loop can leave from attempt [attempt] on, with
    the result of the call. *)
Inductive retryTimeline : nat → list WebhookEvent → Completion unit → Prop :=
  | rt_exhausted :
      retryTimeline MAX_WEBHOOK_ATTEMPTS []
        (Throws (Error "Failed to deliver webhook after retries."))
  | rt_delivered (attempt : nat) (body : WebhookBody) :
      (attempt < MAX_WEBHOOK_ATTEMPTS)%nat →
      retryTimeline attempt [Posted attempt body (Returns tt)] (Returns tt)
  | rt_terminal (attempt : nat) (body : WebhookBody) (e : JsError.t) :
      (attempt < MAX_WEBHOOK_ATTEMPTS)%nat →
      ¬ rateLimited e → ¬ serverError e →
      retryTimeline attempt [Posted attempt body (Throws e)] (Throws e)
  | rt_rate_limited (attempt : nat) (body : WebhookBody) (e : JsError.t)
      (evs : list WebhookEvent) (result : Completion unit) :
      (attempt < MAX_WEBHOOK_ATTEMPTS)%nat →
      rateLimited e →
      retryTimeline (S attempt) evs result →
      retryTimeline attempt
        (Posted attempt body (Throws e)
           :: Slept (retryDelay (JsError.response e)) :: evs) result
  | rt_server_error (attempt : nat) (body : WebhookBody) (e : JsError.t)
      (evs : list WebhookEvent) (result : Completion unit) :
      (attempt < MAX_WEBHOOK_ATTEMPTS)%nat →
      serverError e →
      retryTimeline (S attempt) evs result →
      retryTimeline attempt
        (Posted attempt body (Throws e)
           :: Slept (serverErrorDelay attempt) :: evs) result.

(* ===================================================================== *)
(** ** Sample data *)
(* ===================================================================== *)

Module Sample.

Definition fileAt (url path : string) : PluginFileRef.t :=
  PluginFileRef.mk (Some path) (Some url) None None.

Definition repo (full_name : string) : PluginRepoRef.t :=
  PluginRepoRef.mk None (Some full_name) None None None None.

(** A record of the base catalog, as in the merge test. *)
Definition legacy : IndexedPlugin.t :=
  {| IndexedPlugin.plugin_name := Some "Legacy";
     IndexedPlugin.plugin_author := None;
     IndexedPlugin.plugin_version := Some "1.0.0";
     IndexedPlugin.plugin_description := Some "Oxide desc";
     IndexedPlugin.plugin_resource_id := Some (RidNumber 1);
     IndexedPlugin.categories := Some ["oxide"];
     IndexedPlugin.file := fileAt "https://example.com/plugin.cs" "plugin.cs";
     IndexedPlugin.repository := Some (repo "oxide/repo");
     IndexedPlugin.extra := Some ∅ |}.

(** The record of the enriched catalog with the same key. *)
Definition enhanced : IndexedPlugin.t :=
  {| IndexedPlugin.plugin_name := Some "Enhanced";
     IndexedPlugin.plugin_author := Some "Crawler";
     IndexedPlugin.plugin_version := Some "";
     IndexedPlugin.plugin_description := Some "Crawled desc";
     IndexedPlugin.plugin_resource_id := Some (RidNumber 1);
     IndexedPlugin.categories := Some ["crawled"];
     IndexedPlugin.file := fileAt "https://example.com/plugin.cs" "src/plugin.cs";
     IndexedPlugin.repository := Some (repo "oxide/repo");
     IndexedPlugin.extra := Some {[ "stars" := JNum 3 ]} |}.

(** A record without a download URL whose repository is known by its short
    name only. *)
Definition shortNamed : IndexedPlugin.t :=
  {| IndexedPlugin.plugin_name := Some "Kits";
     IndexedPlugin.plugin_author := None;
     IndexedPlugin.plugin_version := None;
     IndexedPlugin.plugin_description := None;
     IndexedPlugin.plugin_resource_id := None;
     IndexedPlugin.categories := None;
     IndexedPlugin.file := PluginFileRef.mk (Some "Kits.cs") None None None;
     IndexedPlugin.repository :=
       Some (PluginRepoRef.mk (Some "rust-kits") None None None None None);
     IndexedPlugin.extra := None |}.

Definition catalog (items : list IndexedPlugin.t) : PluginIndex.t :=
  {| PluginIndex.generated_at := "2024-01-01T00:00:00Z";
     PluginIndex.query := None;
     PluginIndex.count := Z.of_nat (length items);
     PluginIndex.items := items |}.

(** A transport on which every HEAD request fails. *)
Definition failingHead : nat → string → Completion HeadResponse.t :=
  λ _ _, Throws (JsError.mk "timeout of 30000ms exceeded" (Some "ECONNABORTED") None).

(** The cache entry of an earlier delivery of [shortNamed]. *)
Definition deliveredShortNamed : CachedEntry.t :=
  {| CachedEntry.key := "rust-kits::Kits.cs";
     CachedEntry.etag := None;
     CachedEntry.lastModified := None;
     CachedEntry.contentHash := Some "hash";
     CachedEntry.fileSha := None;
     CachedEntry.fileSize := None;
     CachedEntry.notifiedAt := "2024-01-02T00:00:00Z" |}.

(** The cache entry of an earlier delivery of the record under
    ["https://example.com/alpha.cs"]. *)
Definition deliveredAlpha : CachedEntry.t :=
  {| CachedEntry.key := "https://example.com/alpha.cs";
     CachedEntry.etag := None;
     CachedEntry.lastModified := None;
     CachedEntry.contentHash := None;
     CachedEntry.fileSha := None;
     CachedEntry.fileSize := None;
     CachedEntry.notifiedAt := "2024-01-02T00:00:00Z" |}.

(** A state with that one entry, and a disk that holds its JSON as the
    state file. *)
Definition savedState : StateFile.t :=
  {| StateFile.entries := {[ "https://example.com/alpha.cs" := deliveredAlpha ]};
     StateFile.version := STATE_VERSION;
     StateFile.updatedAt := "2024-01-02T00:00:00Z" |}.


(** A world with nothing on disk, a clock that always shows the same
    instant, and no network state. *)
Definition emptyWorld : World.t unit :=
  {| World.state := EMPTY_STATE;
     World.disk := ∅;
     World.clock := λ _, "2024-01-03T00:00:00Z";
     World.ticks := 0;
     World.net := tt;
     World.timeline := [];
     World.webhookCalls := [] |}.

Definition config : Config.t :=
  {| Config.WEBHOOK_URL := "https://discord.example/webhook";
     Config.MAX_ATTACHMENT_BYTES := Num 1024;
     Config.ONLY_CS_ATTACHMENTS := true |}.

Definition httpError (status : Z) (retry_after : option Double.t) : JsError.t :=
  JsError.mk "Request failed" None (Some (AxiosResponse.mk status None retry_after)).

(** The double that the JSON number [2.007] is read as. *)
Module Seconds.
Import PrimFloat.
Definition two_and_seven_thousandths : Double.t := 0x1.00e5604189375p+1%float.
End Seconds.

(** A sink that counts the posts it has seen: it answers the first with
    429 and a retry-after of 2.007 seconds, the second with 500, and
    accepts from the third on. *)
Definition flakySink : string → WebhookBody → nat → Completion unit * nat :=
  λ _ _ seen,
    (match seen with
     | 0%nat => Throws (httpError 429 (Some Seconds.two_and_seven_thousandths))
     | 1%nat => Throws (httpError 500 None)
     | _ => Returns tt
     end, S seen).

(** A sink that accepts the first post and answers 400 to the rest. *)
Definition onceOnlySink : string → WebhookBody → nat → Completion unit * nat :=
  λ _ _ seen,
    (match seen with
     | 0%nat => Returns tt
     | _ => Throws (httpError 400 None)
     end, S seen).

(** A transport whose downloads fail. *)
Definition noDownload : string → nat → Completion (list Byte.byte) * nat :=
  λ _ seen, (Throws (Error "Request failed with status code 404"), seen).

(** The world of [emptyWorld], over a sink that has seen no post. *)
Definition quietWorld : World.t nat :=
  {| World.state := EMPTY_STATE;
     World.disk := ∅;
     World.clock := λ _, "2024-01-03T00:00:00Z";
     World.ticks := 0;
     World.net := 0%nat;
     World.timeline := [];
     World.webhookCalls := [] |}.

Definition alpha : IndexedPlugin.t :=
  {| IndexedPlugin.plugin_name := Some "Alpha";
     IndexedPlugin.plugin_author := None;
     IndexedPlugin.plugin_version := None;
     IndexedPlugin.plugin_description := None;
     IndexedPlugin.plugin_resource_id := None;
     IndexedPlugin.categories := None;
     IndexedPlugin.file := fileAt "https://example.com/alpha.cs" "alpha.cs";
     IndexedPlugin.repository := Some (repo "owner/alpha");
     IndexedPlugin.extra := None |}.

Definition beta : IndexedPlugin.t :=
  {| IndexedPlugin.plugin_name := Some "Beta";
     IndexedPlugin.plugin_author := None;
     IndexedPlugin.plugin_version := None;
     IndexedPlugin.plugin_description := None;
     IndexedPlugin.plugin_resource_id := None;
     IndexedPlugin.categories := None;
     IndexedPlugin.file := fileAt "https://example.com/beta.cs" "beta.cs";
     IndexedPlugin.repository := Some (repo "owner/beta");
     IndexedPlugin.extra := None |}.

End Sample.

(* ===================================================================== *)
(** ** Further vocabulary *)
(* ===================================================================== *)

(** Two optional texts that are both present, not empty, and equal. *)
Definition sameText (a b : option string) : Prop :=
  ∃ s, s ≠ "" ∧ a = Some s ∧ b = Some s.

(** Two optional numbers that are both present, not [NaN], and equal. *)
Definition sameSize (a b : option JsNumber) : Prop :=
  ∃ n, a = Some (Num n) ∧ b = Some (Num n).

(** The record at position [i] is cached, has a reliable marker, and one
    of the five comparisons of [unchanged] holds for it. *)
Definition skippedByDelta (head : nat → string → Completion HeadResponse.t)
    (cache : gmap string CachedEntry.t) (i : nat) (plugin : IndexedPlugin.t) : Prop :=
  ∃ previous,
    cache !! pluginKey plugin = Some previous
    ∧ (truthy (HeadMeta.etag (probe head i plugin)) = true
       ∨ truthy (HeadMeta.lastModified (probe head i plugin)) = true
       ∨ truthy (PluginFileRef.sha (IndexedPlugin.file plugin)) = true)
    ∧ (sameText (HeadMeta.etag (probe head i plugin)) (CachedEntry.etag previous)
       ∨ sameText (HeadMeta.lastModified (probe head i plugin))
                  (CachedEntry.lastModified previous)
       ∨ sameText (PluginFileRef.sha (IndexedPlugin.file plugin))
                  (CachedEntry.fileSha previous)
       ∨ sameSize (HeadMeta.contentLength (probe head i plugin)
                     ?? (Num <$> PluginFileRef.size (IndexedPlugin.file plugin)))
                  (Num <$> CachedEntry.fileSize previous)
       ∨ sameSize (Num <$> PluginFileRef.size (IndexedPlugin.file plugin))
                  (Num <$> CachedEntry.fileSize previous)).

(** The waits of a timeline, in order, in whole milliseconds; a wait that
    is not a finite number has no entry. *)
Definition waitsOf (evs : list WebhookEvent) : list Z :=
  omap (λ ev, match ev with Slept (Ms delayMs) => Some delayMs | _ => None end) evs.

(** The keys of the records whose call of [sendPluginWebhook] returned, in
    call order. *)
Definition deliveredKeys (calls : list WebhookCall.t) : list string :=
  omap (λ call, match WebhookCall.result call with
                | Returns _ => Some (pluginKey (WebhookCall.plugin call))
                | Throws _ => None
                end) calls.

(** Every entry of the cache sits under its own key, as [set] puts it. *)
Definition wellKeyed (entries : gmap string CachedEntry.t) : Prop :=
  ∀ key entry, entries !! key = Some entry → CachedEntry.key entry = key.

(** The state file holds the JSON of the state of the instance. *)
Definition synced {Net : Type} (w : World.t Net) : Prop :=
  World.disk w !! STATE_PATH = Some (JsonText (stateToJson (World.state w))).

(** What the pipeline may pass to the sender for a record: no attachment,
    or one under the name derived from the record and within the size
    limit; and none at all for a URL that does not end in [.cs] while only
    [.cs] attachments are allowed. *)
Definition pipelineAttachment (config : Config.t) (plugin : IndexedPlugin.t)
    (attachment : option AttachmentPayload.t) : Prop :=
  match attachment with
  | Some a =>
      AttachmentPayload.name a = attachmentNameOf plugin
      ∧ within (byteLength (AttachmentPayload.buffer a))
               (Config.MAX_ATTACHMENT_BYTES config) = true
      ∧ (Config.ONLY_CS_ATTACHMENTS config = true →
         endsWith (toLowerCase (default "" (PluginFileRef.raw_url (IndexedPlugin.file plugin))))
                  ".cs" = true)
  | None => True
  end.

(* ===================================================================== *)
(** ** Entry points of [cli.ts] that act on the cache only *)
(* ===================================================================== *)

Section CacheActions.
Context {Net : Type}.
#[local] Abbreviation W := (World.t Net).

(** [resetAction], from the [new StateCache()] on: the world it is run in
    holds the fresh instance. *)
Definition resetAction : Js W unit :=
  load;; clear.

(** [stateAction]; the value is what [console.log] is given. *)
Definition stateAction : Js W (Z * string) :=
  load;; stats.
End CacheActions.

(** A row of the table [dryRunAction] prints. *)
Module PreviewRow.
Record t : Type := mk {
  index : Z;
  rawUrl : string;
  name : string;
  repository : string
}.
End PreviewRow.

(** What [dryRunAction] reports: the rows of the table and the three
    numbers of its last line. *)
Module DryRunReport.
Record t : Type := mk {
  preview : list PreviewRow.t;
  pending : nat;
  processed : nat;
  total : nat
}.
End DryRunReport.

Section DryRun.
Context {Net : Type}.
#[local] Abbreviation W := (World.t Net).

End DryRun.

Section Notify.
Context {Net : Type}.
#[local] Abbreviation W := (World.t Net).

Variable config : Config.t.
Variable sanitize : string → string.
Variable post : string → WebhookBody → Net → Completion unit * Net.
Variable getBinary : string → Net → Completion (list Byte.byte) * Net.
Variable sha256 : list Byte.byte → string.

End Notify.

(* ===================================================================== *)
(** ** Deleted repositories ([api.ts]) and the list a run works on *)
(* ===================================================================== *)

Module DeletedRepositoriesList.
Record t : Type := mk {
  repositories : list string;
  updated_at : option string
}.
End DeletedRepositoriesList.

Section Deleted.
(** [String.prototype.toLowerCase], which folds the cased letters of every
    script; the names of repositories are compared through it, whatever it
    does to them. *)
Variable lowerCase : string → string.

(** The callback of [items.filter] in [filterDeleted]. *)
Definition survives (banned : gset string) (plugin : IndexedPlugin.t) : bool :=
  let repo := IndexedPlugin.repository plugin ≫= PluginRepoRef.full_name in
  if truthy repo then negb (bool_decide (lowerCase (default "" repo) ∈ banned)) else true.

(** [filterDeleted]; [None] is the [null] list. *)
Definition filterDeleted (items : list IndexedPlugin.t)
    (deleted : option DeletedRepositoriesList.t) : list IndexedPlugin.t :=
  match deleted with
  | None => items
  | Some deleted =>
      let banned : gset string :=
        list_to_set (lowerCase <$> DeletedRepositoriesList.repositories deleted) in
      filter (λ plugin, survives banned plugin = true) items
  end.

(** [fetchAndMergeIndices], from the values the three fetches resolved
    to on. *)
Definition fetchAndMergeIndices (now : string) (oxide crawled : PluginIndex.t)
    (deleted : option DeletedRepositoriesList.t) : list IndexedPlugin.t :=
  let merged := mergeIndices now oxide crawled in
  filterDeleted (PluginIndex.items merged) deleted.

(** The repository of the record has a non-empty full name that is, up to
    the case of its letters, on the list. *)
Definition bannedBy (deleted : DeletedRepositoriesList.t) (plugin : IndexedPlugin.t) : Prop :=
  ∃ repository full_name entry,
    IndexedPlugin.repository plugin = Some repository
    ∧ PluginRepoRef.full_name repository = Some full_name
    ∧ full_name ≠ ""
    ∧ entry ∈ DeletedRepositoriesList.repositories deleted
    ∧ lowerCase entry = lowerCase full_name.
End Deleted.

(** Every value of the map sits under its own plugin key. *)
Definition selfKeyed (merged : JsMap.t IndexedPlugin.t) : Prop :=
  Forall (λ kv, pluginKey kv.2 = kv.1) merged.

(* ===================================================================== *)
(** ** Index schema ([api.ts]) *)
(* ===================================================================== *)

Definition RESERVED_KEYS : gset string :=
  list_to_set ["plugin_name"; "plugin_author"; "plugin_version"; "plugin_description";
               "plugin_resource_id"; "categories"; "file"; "repository"].

(** [isRecord(value)]; [None] is [undefined]. *)
Definition isRecord (value : option JsonValue) : bool :=
  match value with
  | Some (JObj _) => true
  | _ => false
  end.

(** [Array.isArray(value)]. *)
Definition isArray (value : option JsonValue) : bool :=
  match value with
  | Some (JArr _) => true
  | _ => false
  end.

(** The elements of a value that passed [Array.isArray]. *)
Definition elements (value : option JsonValue) : list JsonValue :=
  match value with
  | Some (JArr items) => items
  | _ => []
  end.

(** [Object.entries(value)] of a value that passed [isRecord]. *)
Definition entriesOf (value : JsonValue) : list (string * JsonValue) :=
  match value with
  | JObj props => props
  | _ => []
  end.

Definition asBoolean (v : option JsonValue) : option bool :=
  match v with
  | Some (JBool b) => Some b
  | _ => None
  end.

(** A value that is a string or a number, else [undefined]. *)
Definition asResourceId (v : option JsonValue) : option ResourceId :=
  match v with
  | Some (JStr s) => Some (RidString s)
  | Some (JNum n) => Some (RidNumber n)
  | _ => None
  end.

(** [items.filter(item => typeof item === "string")]. *)
Definition stringsOf (items : list JsonValue) : list string :=
  omap (λ item, match item with JStr s => Some s | _ => None end) items.

(** [items.map(f)] for a callback that can throw: the first throw ends
    the call. *)
Fixpoint mapThrowing {A B : Type} (f : A → Completion B) (items : list A)
    : Completion (list B) :=
  match items with
  | [] => Returns []
  | item :: rest =>
      match f item with
      | Throws e => Throws e
      | Returns b =>
          match mapThrowing f rest with
          | Throws e => Throws e
          | Returns bs => Returns (b :: bs)
          end
      end
  end.

(** The callback of [value.items.map] in [toPluginIndex]. *)
Definition toIndexedPlugin (url : string) (raw : JsonValue) : Completion IndexedPlugin.t :=
  if negb (isRecord (Some raw)) then
    Throws (Error ("Malformed plugin item in " ++ url))
  else if negb (isRecord (prop "file" raw)) then
    Throws (Error ("Missing file reference in " ++ url))
  else
    let file := prop "file" raw in
    let repository := prop "repository" raw in
    Returns
      {| IndexedPlugin.plugin_name := asString (prop "plugin_name" raw);
         IndexedPlugin.plugin_author := asString (prop "plugin_author" raw);
         IndexedPlugin.plugin_version := asString (prop "plugin_version" raw);
         IndexedPlugin.plugin_description := asString (prop "plugin_description" raw);
         IndexedPlugin.plugin_resource_id := asResourceId (prop "plugin_resource_id" raw);
         IndexedPlugin.categories :=
           if isArray (prop "categories" raw)
           then Some (stringsOf (elements (prop "categories" raw)))
           else None;
         IndexedPlugin.file :=
           {| PluginFileRef.path := asString (file ≫= prop "path");
              PluginFileRef.raw_url := asString (file ≫= prop "raw_url");
              PluginFileRef.sha := asString (file ≫= prop "sha");
              PluginFileRef.size := asNumber (file ≫= prop "size") |};
         IndexedPlugin.repository :=
           if isRecord repository then
             Some {| PluginRepoRef.name := asString (repository ≫= prop "name");
                     PluginRepoRef.full_name := asString (repository ≫= prop "full_name");
                     PluginRepoRef.html_url := asString (repository ≫= prop "html_url");
                     PluginRepoRef.description :=
                       asString (repository ≫= prop "description");
                     PluginRepoRef.stargazers_count :=
                       asNumber (repository ≫= prop "stargazers_count");
                     PluginRepoRef.archived := asBoolean (repository ≫= prop "archived") |}
           else None;
         IndexedPlugin.extra :=
           Some (list_to_map (filter (λ kv, kv.1 ∉ RESERVED_KEYS) (entriesOf raw))) |}.

(** [toPluginIndex]; [now] is the value of [new Date().toISOString()]. *)
Definition toPluginIndex (now : string) (value : JsonValue) (url : string)
    : Completion PluginIndex.t :=
  if negb (isRecord (Some value)) || negb (isArray (prop "items" value)) then
    Throws (Error ("Malformed index: " ++ url))
  else
    match mapThrowing (toIndexedPlugin url) (elements (prop "items" value)) with
    | Throws e => Throws e
    | Returns items =>
        Returns
          {| PluginIndex.generated_at := default now (asString (prop "generated_at" value));
             PluginIndex.query := asString (prop "query" value);
             PluginIndex.count :=
               default (Z.of_nat (length items)) (asNumber (prop "count" value));
             PluginIndex.items := items |}
    end.

Definition SOURCES_DELETED : string :=
  "https://raw.githubusercontent.com/publicrust/plugins-forum/main/backend/output/deleted_repositories.json".

Section Fetch.
(** [getJson url], as far as its callers look at it: the parsed body of
    the response, or what it throws. *)
Variable getJson : string → Completion JsonValue.

Definition fetchIndex (now : string) (url : string) : Completion PluginIndex.t :=
  match getJson url with
  | Throws e => Throws e
  | Returns data => toPluginIndex now data url
  end.

(** [fetchDeleted]; [None] is [null]. *)
Definition fetchDeleted : option DeletedRepositoriesList.t :=
  match getJson SOURCES_DELETED with
  | Returns data =>
      if negb (isRecord (Some data)) || negb (isArray (prop "repositories" data)) then None
      else
        Some {| DeletedRepositoriesList.repositories :=
                  stringsOf (elements (prop "repositories" data));
                DeletedRepositoriesList.updated_at := asString (prop "updated_at" data) |}
  | Throws error => None
  end.
End Fetch.

(** An index as the schema check wants it: an object whose [items] is an
    array of objects that each have an object under [file]. *)
Definition wellFormedIndex (value : JsonValue) : Prop :=
  ∃ props rawItems,
    value = JObj props
    ∧ prop "items" value = Some (JArr rawItems)
    ∧ Forall (λ raw, (∃ rawProps, raw = JObj rawProps)
                     ∧ ∃ fileProps, prop "file" raw = Some (JObj fileProps)) rawItems.

(* ===================================================================== *)
(** ** Retrying transport ([utils/http.ts]) *)
(* ===================================================================== *)

Definition RETRY_ATTEMPTS : nat := 3.
Definition RETRY_BASE_DELAY_MS : Z := 500.

(** What a call of [executeWithRetry] does on the wire: a call of the
    operation, with the error it threw if it threw, or a wait. *)
Inductive HttpEvent : Type :=
  | Requested (error : option JsError.t)
  | Backoff (delayMs : Z).

Module Wire.
Record t (Net : Type) : Type := mk {
  net : Net;
  log : list HttpEvent
}.
Arguments mk {Net} net log.
Arguments net {Net} t.
Arguments log {Net} t.
End Wire.

(** [error.code === "ECONNRESET" || error.code === "ETIMEDOUT" ||
    error.code === "ECONNABORTED"]. *)
Definition isNetworkIssue (error : JsError.t) : bool :=
  match JsError.code error with
  | Some code =>
      String.eqb code "ECONNRESET" || String.eqb code "ETIMEDOUT"
      || String.eqb code "ECONNABORTED"
  | None => false
  end.

(** [typeof status === "number" && status >= 500 && status < 600]. *)
Definition isRetryableStatus (error : JsError.t) : bool :=
  match JsError.response error with
  | Some response =>
      (500 <=? AxiosResponse.status response) && (AxiosResponse.status response <? 600)
  | None => false
  end.

Section Http.
Context {Net T : Type}.

(** [executeWithRetry]; the recursion of the source ends because
    [attempt] grows up to [RETRY_ATTEMPTS], and here it descends on
    [fuel]: [None] is a call that needs more. *)
Fixpoint executeWithRetry (fuel : nat) (operation : Net → Completion T * Net)
    (attempt : nat) (w : Wire.t Net) : option (Completion T * Wire.t Net) :=
  match fuel with
  | O => None
  | S fuel =>
      let '(result, net) := operation (Wire.net w) in
      match result with
      | Returns response =>
          Some (Returns response, Wire.mk net (Wire.log w ++ [Requested None]))
      | Throws error =>
          let w := Wire.mk net (Wire.log w ++ [Requested (Some error)]) in
          let nextAttempt := (attempt + 1)%nat in
          if (RETRY_ATTEMPTS <=? nextAttempt)%nat then Some (Throws error, w)
          else if negb (isNetworkIssue error) && negb (isRetryableStatus error) then
            Some (Throws error, w)
          else
            let backoff := RETRY_BASE_DELAY_MS * 2 ^ Z.of_nat attempt in
            executeWithRetry fuel operation nextAttempt
              (Wire.mk (Wire.net w) (Wire.log w ++ [Backoff backoff]))
      end
  end.
End Http.

(** A header value of an axios response. *)
Inductive HeaderValue : Type :=
  | HString (s : string)
  | HArray (items : list string)
  | HOther.

(** [normaliseHeaders]. *)
Definition normaliseHeaders (headers : list (string * HeaderValue)) : gmap string string :=
  fold_left
    (λ out '(key, value),
       match value with
       | HArray items => <[toLowerCase key := String.concat ", " items]> out
       | HString s => <[toLowerCase key := s]> out
       | HOther => out
       end)
    headers ∅.

(** The text [normaliseHeaders] stores for a header value, if any. *)
Definition headerText (value : HeaderValue) : option string :=
  match value with
  | HArray items => Some (String.concat ", " items)
  | HString s => Some s
  | HOther => None
  end.

Module RawResponse.
Record t : Type := mk {
  headers : list (string * HeaderValue);
  status : Z
}.
End RawResponse.

Section Head.
Context {Net : Type}.
(** [httpClient.head(url)]. *)
Variable httpHead : string → Net → Completion RawResponse.t * Net.

(** [head], called with enough fuel for [RETRY_ATTEMPTS] attempts. *)
Definition head (url : string) (w : Wire.t Net)
    : option (Completion HeadResponse.t * Wire.t Net) :=
  match executeWithRetry RETRY_ATTEMPTS (httpHead url) 0 w with
  | Some (Returns response, w) =>
      Some (Returns {| HeadResponse.headers := normaliseHeaders (RawResponse.headers response);
                       HeadResponse.status := RawResponse.status response |}, w)
  | Some (Throws error, w) => Some (Throws error, w)
  | None => None
  end.
End Head.

(** The error can be retried: a network issue or a 5xx status. *)
Definition retryable (error : JsError.t) : Prop :=
  isNetworkIssue error = true ∨ isRetryableStatus error = true.

(** The events of [n] failed attempts from attempt [0] on, each followed
    by its wait. *)
Definition failedAttempts (errors : list JsError.t) : list HttpEvent :=
  mjoin (imap (λ attempt error,
                 [Requested (Some error); Backoff (RETRY_BASE_DELAY_MS * 2 ^ Z.of_nat attempt)])
              errors).

Module Sample2.

(** A transport whose HEAD answers carry the ETag ["etag-cache"]. *)
Definition taggedHead : nat → string → Completion HeadResponse.t :=
  λ _ _, Returns (HeadResponse.mk {[ "etag" := "etag-cache" ]} 200).

(** The cache entry of an earlier delivery of [Sample.legacy]. *)
Definition deliveredLegacy : CachedEntry.t :=
  {| CachedEntry.key := "https://example.com/plugin.cs";
     CachedEntry.etag := Some "etag-cache";
     CachedEntry.lastModified := None;
     CachedEntry.contentHash := Some "hash";
     CachedEntry.fileSha := None;
     CachedEntry.fileSize := Some 1024;
     CachedEntry.notifiedAt := "2024-01-02T00:00:00Z" |}.

(** A sink that answers every post with status 503. *)
Definition downSink : string → WebhookBody → nat → Completion unit * nat :=
  λ _ _ seen, (Throws (Sample.httpError 503 None), S seen).

(** A sink that accepts every post. *)
Definition acceptingSink : string → WebhookBody → nat → Completion unit * nat :=
  λ _ _ seen, (Returns tt, S seen).

(** The world of [Sample.quietWorld] with [Sample.alpha] already
    delivered. *)
Definition resumedWorld : World.t nat :=
  World.with_state Sample.savedState Sample.quietWorld.


(** A list of deleted repositories that names the repository of
    [Sample.beta] in capitals. *)
Definition deletedBeta : DeletedRepositoriesList.t :=
  {| DeletedRepositoriesList.repositories := ["OWNER/BETA"];
     DeletedRepositoriesList.updated_at := None |}.

(** A raw item of an index, with a field outside the schema. *)
Definition rawAlpha : JsonValue :=
  JObj [("plugin_name", JStr "Alpha");
        ("file", JObj [("path", JStr "alpha.cs");
                       ("raw_url", JStr "https://example.com/alpha.cs")]);
        ("stars", JNum 5)].

(** A server that answers the first two requests with 503 and 502 and
    then with the headers of a file. *)
Definition recoveringHead : string → nat → Completion RawResponse.t * nat :=
  λ _ seen,
    (match seen with
     | 0%nat => Throws (Sample.httpError 503 None)
     | 1%nat => Throws (Sample.httpError 502 None)
     | _ => Returns {| RawResponse.headers :=
                         [("ETag", HString "abc"); ("Content-Length", HString "12");
                          ("Set-Cookie", HArray ["a"; "b"]); ("X-Age", HOther)];
                       RawResponse.status := 200 |}
     end, S seen).

(** [Sample.alpha] with a description of 300 Cyrillic letters. *)
Definition described : IndexedPlugin.t :=
  {| IndexedPlugin.plugin_name := IndexedPlugin.plugin_name Sample.alpha;
     IndexedPlugin.plugin_author := None;
     IndexedPlugin.plugin_version := None;
     IndexedPlugin.plugin_description := Some (String.concat "" (replicate 300 "ж"));
     IndexedPlugin.plugin_resource_id := None;
     IndexedPlugin.categories := None;
     IndexedPlugin.file := IndexedPlugin.file Sample.alpha;
     IndexedPlugin.repository := IndexedPlugin.repository Sample.alpha;
     IndexedPlugin.extra := None |}.

End Sample2.

(* ===================================================================== *)
(** * Properties *)
(* ===================================================================== *)

(** ** Truthiness *)

Lemma truthy_Some (o : option string) :
  truthy o = true ↔ ∃ s, o = Some s ∧ s ≠ "".
Proof.
  destruct o as [s|]; simpl.
  - rewrite negb_true_iff. split.
    + intros E. exists s. split; [done|]. intros ->. discriminate.
    + intros (s' & [= <-] & Hne). by apply String.eqb_neq.
  - split; [discriminate | intros (s & ? & _); discriminate].
Qed.

Lemma truthy_false (o : option string) :
  truthy o = false ↔ o = None ∨ o = Some "".
Proof.
  destruct o as [s|]; simpl.
  - rewrite negb_false_iff, String.eqb_eq. split.
    + intros ->. by right.
    + intros [?|[= ->]]; done.
  - split; [by left | done].
Qed.

(* ===================================================================== *)
(** ** Key derivation *)
(* ===================================================================== *)

Lemma pluginKey_url (plugin : IndexedPlugin.t) (url : string) :
  PluginFileRef.raw_url (IndexedPlugin.file plugin) = Some url →
  url ≠ "" →
  pluginKey plugin = url.
Proof.
  intros Hurl Hne. unfold pluginKey.
  replace (truthy _) with true; [by rewrite Hurl|].
  symmetry. apply truthy_Some. eauto.
Qed.

Lemma pluginKey_fallback (plugin : IndexedPlugin.t) :
  truthy (PluginFileRef.raw_url (IndexedPlugin.file plugin)) = false →
  pluginKey plugin =
    default "repository"
      ((IndexedPlugin.repository plugin ≫= PluginRepoRef.full_name)
         ?? (IndexedPlugin.repository plugin ≫= PluginRepoRef.name))
    ++ "::" ++ default "file" (PluginFileRef.path (IndexedPlugin.file plugin)).
Proof. intros H. unfold pluginKey. by rewrite H. Qed.

(** C2, as the code has it.  The key of a record is its direct-download
    URL when that URL is present and not the empty string.  Otherwise it is
    [r ++ "::" ++ p], where [r] is the repository full name, or, when the
    full name is absent, the repository short name, or, when both are
    absent, the placeholder ["repository"]; and [p] is the file path, or
    the placeholder ["file"] when the path is absent. *)
Theorem pluginKey_derivation (plugin : IndexedPlugin.t) :
  let url := PluginFileRef.raw_url (IndexedPlugin.file plugin) in
  let full_name := IndexedPlugin.repository plugin ≫= PluginRepoRef.full_name in
  let name := IndexedPlugin.repository plugin ≫= PluginRepoRef.name in
  let path := PluginFileRef.path (IndexedPlugin.file plugin) in
  (∀ u, url = Some u → u ≠ "" → pluginKey plugin = u)
  ∧ (url = None ∨ url = Some "" →
     ∃ r p, pluginKey plugin = r ++ "::" ++ p
       ∧ (∀ fn, full_name = Some fn → r = fn)
       ∧ (∀ n, full_name = None → name = Some n → r = n)
       ∧ (full_name = None → name = None → r = "repository")
       ∧ (∀ fp, path = Some fp → p = fp)
       ∧ (path = None → p = "file")).
Proof.
  intros url full_name name path. split.
  - intros u Hu Hne. by apply pluginKey_url.
  - intros Hfalsy. apply truthy_false in Hfalsy.
    eexists _, _. split; [by apply pluginKey_fallback|].
    fold full_name name path.
    repeat split.
    + by intros fn ->.
    + by intros n -> ->.
    + by intros -> ->.
    + by intros fp ->.
    + by intros ->.
Qed.

(** The derivation at the sample record that has a URL, and at the one
    that has none. *)
Lemma pluginKey_derivation_witness :
  pluginKey Sample.legacy = "https://example.com/plugin.cs"
  ∧ ∃ r p, pluginKey Sample.shortNamed = r ++ "::" ++ p ∧ r = "rust-kits" ∧ p = "Kits.cs".
Proof.
  split.
  - apply (proj1 (pluginKey_derivation Sample.legacy)); [reflexivity | discriminate].
  - destruct (proj2 (pluginKey_derivation Sample.shortNamed) (or_introl eq_refl))
      as (r & p & Hkey & _ & Hname & _ & Hpath & _).
    exists r, p. split; [exact Hkey|]. split.
    + apply Hname; reflexivity.
    + apply Hpath; reflexivity.
Defined.

(** C2 as worded fails: with no URL and no repository full name the
    repository part is the short name when there is one, not the
    placeholder. *)
Lemma pluginKey_short_name_counterexample :
  PluginFileRef.raw_url (IndexedPlugin.file Sample.shortNamed) = None
  ∧ (IndexedPlugin.repository Sample.shortNamed ≫= PluginRepoRef.full_name) = None
  ∧ specifiedKey Sample.shortNamed = "repository::Kits.cs"
  ∧ pluginKey Sample.shortNamed = "rust-kits::Kits.cs"
  ∧ pluginKey Sample.shortNamed ≠ specifiedKey Sample.shortNamed.
Proof. repeat split; discriminate. Qed.

(* ===================================================================== *)
(** ** Merge engine: field precedence *)
(* ===================================================================== *)

Lemma mergeField_prefers {T : Type} `{StrictEqEmptyString T} (base enriched : option T) :
  prefersEnriched base enriched (mergeField base enriched).
Proof.
  unfold prefersEnriched, blank, mergeField.
  destruct enriched as [v|]; [destruct (is_empty_string v) eqn:E|].
  - split; [done|]. intros Hn. exfalso. apply Hn. right. eauto.
  - split; [|done]. intros [?|(v' & [= <-] & E')]; congruence.
  - split; [done|]. intros Hn. exfalso. apply Hn. by left.
Qed.

Lemma spread2_lookup {V : Type} (a b : option (gmap string V)) (k : string) :
  spread2 a b !! k =
    match default ∅ b !! k with
    | Some v => Some v
    | None => default ∅ a !! k
    end.
Proof.
  unfold spread2. rewrite lookup_union.
  destruct (default ∅ b !! k), (default ∅ a !! k); reflexivity.
Qed.

(** C4.  In the record merged from a base and an enriched record, each of
    name, author, version, description and resource id is the enriched
    value unless that is absent or empty, and then the base value; the
    categories are the whole enriched list when it has an element, else the
    base list; the file reference is the enriched one exactly when the
    enriched record has a (non-empty) direct-download URL, else the base
    one; the repository reference is the enriched one whenever present,
    else the base one; and a key of the merged extension map carries the
    enriched value when the enriched map has the key, else the base value.
    This holds for every pair, so also for the pairs sharing a key. *)
Theorem mergePlugin_precedence (base enriched : IndexedPlugin.t) :
  let merged := mergePlugin base enriched in
  prefersEnriched (IndexedPlugin.plugin_name base) (IndexedPlugin.plugin_name enriched)
                  (IndexedPlugin.plugin_name merged)
  ∧ prefersEnriched (IndexedPlugin.plugin_author base) (IndexedPlugin.plugin_author enriched)
                    (IndexedPlugin.plugin_author merged)
  ∧ prefersEnriched (IndexedPlugin.plugin_version base) (IndexedPlugin.plugin_version enriched)
                    (IndexedPlugin.plugin_version merged)
  ∧ prefersEnriched (IndexedPlugin.plugin_description base)
                    (IndexedPlugin.plugin_description enriched)
                    (IndexedPlugin.plugin_description merged)
  ∧ prefersEnriched (IndexedPlugin.plugin_resource_id base)
                    (IndexedPlugin.plugin_resource_id enriched)
                    (IndexedPlugin.plugin_resource_id merged)
  ∧ (∀ c cs, IndexedPlugin.categories enriched = Some (c :: cs) →
       IndexedPlugin.categories merged = Some (c :: cs))
  ∧ (IndexedPlugin.categories enriched = None ∨ IndexedPlugin.categories enriched = Some [] →
       IndexedPlugin.categories merged = IndexedPlugin.categories base)
  ∧ (truthy (PluginFileRef.raw_url (IndexedPlugin.file enriched)) = true →
       IndexedPlugin.file merged = IndexedPlugin.file enriched)
  ∧ (truthy (PluginFileRef.raw_url (IndexedPlugin.file enriched)) = false →
       IndexedPlugin.file merged = IndexedPlugin.file base)
  ∧ (∀ r, IndexedPlugin.repository enriched = Some r →
       IndexedPlugin.repository merged = Some r)
  ∧ (IndexedPlugin.repository enriched = None →
       IndexedPlugin.repository merged = IndexedPlugin.repository base)
  ∧ ∃ extra, IndexedPlugin.extra merged = Some extra
      ∧ ∀ k, extra !! k =
          match default ∅ (IndexedPlugin.extra enriched) !! k with
          | Some v => Some v
          | None => default ∅ (IndexedPlugin.extra base) !! k
          end.
Proof.
  simpl. repeat (split; [by apply mergeField_prefers|]).
  split; [by intros c cs ->|].
  split; [by intros [-> | ->]|].
  split; [by intros ->|].
  split; [by intros ->|].
  split; [by intros r ->|].
  split; [by intros ->|].
  eexists. split; [reflexivity|]. apply spread2_lookup.
Qed.

(** The precedence at the pair of the merge test: the empty enriched
    version keeps the base version, the rest comes from the enriched
    record. *)
Lemma mergePlugin_precedence_witness :
  let merged := mergePlugin Sample.legacy Sample.enhanced in
  IndexedPlugin.plugin_version merged = Some "1.0.0"
  ∧ IndexedPlugin.plugin_author merged = Some "Crawler"
  ∧ IndexedPlugin.categories merged = Some ["crawled"]
  ∧ IndexedPlugin.file merged = IndexedPlugin.file Sample.enhanced.
Proof.
  pose proof (mergePlugin_precedence Sample.legacy Sample.enhanced)
    as (_ & Hauthor & Hversion & _ & _ & Hcat & _ & Hfile & _).
  simpl. split; [|split; [|split]].
  - apply (proj1 Hversion). right. by exists "".
  - apply (proj2 Hauthor). intros [?|(v & [= <-] & ?)]; discriminate.
  - by apply Hcat.
  - by apply Hfile.
Defined.

(* ===================================================================== *)
(** ** The insertion-ordered map *)
(* ===================================================================== *)

Section JsMapFacts.
Context {V : Type}.
Implicit Types (m : JsMap.t V) (k : string) (v : V).

Lemma JsMap_get_set_eq m k v : JsMap.get k (JsMap.set k v m) = Some v.
Proof.
  induction m as [|[k' v'] m IH]; simpl.
  - by rewrite String.eqb_refl.
  - destruct (String.eqb k' k) eqn:E; simpl; rewrite E; [done | exact IH].
Qed.

Lemma JsMap_get_set_ne m k k' v :
  k ≠ k' → JsMap.get k' (JsMap.set k v m) = JsMap.get k' m.
Proof.
  intros Hne. induction m as [|[k0 v0] m IH]; simpl.
  - by apply String.eqb_neq in Hne as ->.
  - destruct (String.eqb k0 k) eqn:E; simpl; [|by rewrite IH].
    apply String.eqb_eq in E as ->.
    by apply String.eqb_neq in Hne as ->.
Qed.

Lemma JsMap_get_Some_keys m k : is_Some (JsMap.get k m) ↔ k ∈ JsMap.keys m.
Proof.
  unfold JsMap.keys. induction m as [|[k' v'] m IH]; simpl.
  - split; [by intros [? ?] | by intros ?%elem_of_nil].
  - rewrite elem_of_cons. destruct (String.eqb k' k) eqn:E.
    + apply String.eqb_eq in E as ->. split; [by left | eauto].
    + apply String.eqb_neq in E. rewrite IH. split; [by right|].
      intros [?|?]; [congruence | done].
Qed.

Lemma JsMap_keys_set_present m k v :
  k ∈ JsMap.keys m → JsMap.keys (JsMap.set k v m) = JsMap.keys m.
Proof.
  unfold JsMap.keys. induction m as [|[k' v'] m IH]; simpl.
  - by intros ?%elem_of_nil.
  - intros Hin. destruct (String.eqb k' k) eqn:E; simpl; [done|].
    f_equal. apply IH. apply String.eqb_neq in E.
    apply elem_of_cons in Hin as [?|?]; [congruence | done].
Qed.

Lemma JsMap_keys_set_fresh m k v :
  k ∉ JsMap.keys m → JsMap.keys (JsMap.set k v m) = (JsMap.keys m ++ [k])%list.
Proof.
  unfold JsMap.keys. induction m as [|[k' v'] m IH]; simpl; [done|].
  intros Hnin. apply not_elem_of_cons in Hnin as [Hne Hnin].
  assert (String.eqb k' k = false) as -> by (apply String.eqb_neq; congruence).
  simpl. f_equal. by apply IH.
Qed.

Lemma JsMap_elem_of_keys_set m k k' v :
  k' ∈ JsMap.keys (JsMap.set k v m) ↔ k' = k ∨ k' ∈ JsMap.keys m.
Proof.
  destruct (decide (k ∈ JsMap.keys m)) as [Hin|Hnin].
  - rewrite JsMap_keys_set_present by done.
    split; [by right | by intros [->|?]].
  - rewrite JsMap_keys_set_fresh by done. rewrite elem_of_app, list_elem_of_singleton.
    tauto.
Qed.

Lemma JsMap_NoDup_keys_set m k v :
  NoDup (JsMap.keys m) → NoDup (JsMap.keys (JsMap.set k v m)).
Proof.
  intros Hnd. destruct (decide (k ∈ JsMap.keys m)) as [Hin|Hnin].
  - by rewrite JsMap_keys_set_present.
  - rewrite JsMap_keys_set_fresh by done.
    apply NoDup_app. split; [done|]. split; [|apply NoDup_singleton].
    intros x Hx ->%list_elem_of_singleton. done.
Qed.

Lemma JsMap_length_values m : length (JsMap.values m) = length (JsMap.keys m).
Proof. unfold JsMap.values, JsMap.keys. by rewrite !length_map. Qed.
End JsMapFacts.

(* ===================================================================== *)
(** ** Merge engine: seeding *)
(* ===================================================================== *)

Lemma seed_fold_get (items : list IndexedPlugin.t) (m : JsMap.t IndexedPlugin.t)
    (k : string) :
  JsMap.get k
    (fold_left (λ merged plugin, JsMap.set (pluginKey plugin) plugin merged) items m)
  = match last (keyed k items) with
    | Some plugin => Some plugin
    | None => JsMap.get k m
    end.
Proof.
  revert m. induction items as [|x items IH]; intros m; simpl; [done|].
  rewrite IH. unfold keyed. rewrite filter_cons.
  destruct (decide (pluginKey x = k)) as [<-|Hne].
  - rewrite last_cons. destruct (last _); [done|]. apply JsMap_get_set_eq.
  - destruct (last _); [done|]. by apply JsMap_get_set_ne.
Qed.

Lemma seed_fold_keys (items : list IndexedPlugin.t) (m : JsMap.t IndexedPlugin.t)
    (k : string) :
  k ∈ JsMap.keys
        (fold_left (λ merged plugin, JsMap.set (pluginKey plugin) plugin merged) items m)
  ↔ k ∈ JsMap.keys m ∨ k ∈ pluginKey <$> items.
Proof.
  revert m. induction items as [|x items IH]; intros m; simpl.
  - rewrite elem_of_nil. tauto.
  - rewrite IH, JsMap_elem_of_keys_set, elem_of_cons. tauto.
Qed.

Lemma seed_fold_NoDup (items : list IndexedPlugin.t) (m : JsMap.t IndexedPlugin.t) :
  NoDup (JsMap.keys m) →
  NoDup (JsMap.keys
           (fold_left (λ merged plugin, JsMap.set (pluginKey plugin) plugin merged) items m)).
Proof.
  revert m. induction items as [|x items IH]; intros m Hnd; simpl; [done|].
  apply IH. by apply JsMap_NoDup_keys_set.
Qed.

(** C5, as the code has it.  The seeding loop stores every base record
    under its key in turn, so the last writer wins: the record retained for
    a key after the seeding stage is the one that comes last in the base
    catalog among the records with that key. *)
Theorem seedFromBase_last_writer_wins (items : list IndexedPlugin.t) (k : string) :
  JsMap.get k (seedFromBase items) = last (keyed k items).
Proof.
  unfold seedFromBase. rewrite seed_fold_get. by destruct (last _).
Qed.

(** C5 as worded fails: of two base records with one key, the seeding
    stage retains the later one. *)
Lemma seedFromBase_first_writer_counterexample :
  pluginKey Sample.legacy = pluginKey Sample.enhanced
  ∧ JsMap.get (pluginKey Sample.legacy) (seedFromBase [Sample.legacy; Sample.enhanced])
    = Some Sample.enhanced
  ∧ JsMap.get (pluginKey Sample.legacy) (seedFromBase [Sample.legacy; Sample.enhanced])
    ≠ Some Sample.legacy.
Proof.
  split; [reflexivity|]. split; [reflexivity|].
  intros H. apply (f_equal (fmap (M := option) IndexedPlugin.plugin_name)) in H.
  vm_compute in H. discriminate.
Qed.

(* ===================================================================== *)
(** ** Merge engine: a catalog merged with itself *)
(* ===================================================================== *)

Lemma mergeField_self {T : Type} `{StrictEqEmptyString T} (x : option T) :
  mergeField x x = x.
Proof. destruct x as [v|]; simpl; [|done]. by destruct (is_empty_string v). Qed.

Lemma mergePlugin_self (plugin : IndexedPlugin.t) :
  mergePlugin plugin plugin = withExtensionMap plugin.
Proof.
  unfold mergePlugin, withExtensionMap. rewrite !mergeField_self.
  f_equal.
  - by destruct (has_length _).
  - by destruct (truthy _).
  - by destruct (IndexedPlugin.repository plugin).
  - unfold spread2. f_equal. apply (idemp_L (∪)).
Qed.

Lemma withExtensionMap_id (plugin : IndexedPlugin.t) :
  is_Some (IndexedPlugin.extra plugin) → withExtensionMap plugin = plugin.
Proof. destruct plugin as [? ? ? ? ? ? ? ? [e|]]; intros [? ?]; by simplify_eq/=. Qed.

Lemma merge_fold_keys (items : list IndexedPlugin.t) (m : JsMap.t IndexedPlugin.t)
    (k : string) :
  k ∈ JsMap.keys (fold_left mergeInto items m)
  ↔ k ∈ JsMap.keys m ∨ k ∈ pluginKey <$> items.
Proof.
  revert m. induction items as [|x items IH]; intros m; simpl.
  - rewrite elem_of_nil. tauto.
  - rewrite IH. unfold mergeInto. rewrite JsMap_elem_of_keys_set, elem_of_cons. tauto.
Qed.

Lemma merge_fold_NoDup (items : list IndexedPlugin.t) (m : JsMap.t IndexedPlugin.t) :
  NoDup (JsMap.keys m) → NoDup (JsMap.keys (fold_left mergeInto items m)).
Proof.
  revert m. induction items as [|x items IH]; intros m Hnd; simpl; [done|].
  apply IH. by apply JsMap_NoDup_keys_set.
Qed.

(** When the key is already in the map, the entry left by the second loop
    is a merge whose incoming side is a record of the list with that key. *)
Lemma merge_fold_entry (items : list IndexedPlugin.t) (m : JsMap.t IndexedPlugin.t)
    (k : string) :
  k ∈ JsMap.keys m →
  k ∈ pluginKey <$> items →
  ∃ existing incoming,
    incoming ∈ items ∧ pluginKey incoming = k
    ∧ JsMap.get k (fold_left mergeInto items m) = Some (mergePlugin existing incoming).
Proof.
  intros Hm. induction items as [|x items IH] using rev_ind.
  - by intros ?%elem_of_nil.
  - intros Hin. rewrite fold_left_app. simpl. unfold mergeInto at 1.
    destruct (decide (pluginKey x = k)) as [Hk|Hne].
    + assert (is_Some (JsMap.get k (fold_left mergeInto items m))) as [e He].
      { apply JsMap_get_Some_keys, merge_fold_keys. by left. }
      exists e, x. rewrite Hk, He, JsMap_get_set_eq.
      split; [|done]. apply elem_of_app. right. by apply list_elem_of_singleton.
    + rewrite JsMap_get_set_ne by done.
      rewrite fmap_app, elem_of_app in Hin. destruct Hin as [Hin|Hin].
      * destruct (IH Hin) as (e & p & Hp & Hkp & Hget).
        exists e, p. split; [|done]. apply elem_of_app. by left.
      * simpl in Hin. apply list_elem_of_singleton in Hin. congruence.
Qed.

(** With pairwise distinct keys the first loop lays the records out in
    order, and the second loop replaces each by its merge with itself. *)
Lemma seed_fold_distinct (items : list IndexedPlugin.t) (m : JsMap.t IndexedPlugin.t) :
  NoDup (JsMap.keys m ++ (pluginKey <$> items))%list →
  fold_left (λ merged plugin, JsMap.set (pluginKey plugin) plugin merged) items m
  = (m ++ ((λ plugin, (pluginKey plugin, plugin)) <$> items))%list.
Proof.
  revert m. induction items as [|x items IH]; intros m Hnd; simpl.
  - by rewrite app_nil_r.
  - assert (pluginKey x ∉ JsMap.keys m) as Hfresh.
    { apply NoDup_app in Hnd as (_ & Hdisj & _). intros Hin.
      apply (Hdisj _ Hin). simpl. by left. }
    assert (JsMap.set (pluginKey x) x m = (m ++ [(pluginKey x, x)])%list) as ->.
    { clear -Hfresh. induction m as [|[k v] m IHm]; simpl; [done|].
      unfold JsMap.keys in Hfresh. simpl in Hfresh.
      apply not_elem_of_cons in Hfresh as [Hne Hfresh].
      assert (String.eqb k (pluginKey x) = false) as ->
        by (apply String.eqb_neq; congruence).
      f_equal. by apply IHm. }
    rewrite IH.
    + by rewrite <- app_assoc.
    + unfold JsMap.keys in *. rewrite map_app. simpl.
      rewrite <- app_assoc. exact Hnd.
Qed.

Lemma JsMap_get_middle {V : Type} (l1 l2 : JsMap.t V) (k : string) (v : V) :
  k ∉ JsMap.keys l1 → JsMap.get k (l1 ++ (k, v) :: l2)%list = Some v.
Proof.
  induction l1 as [|[k' v'] l1 IH]; simpl; intros Hnin.
  - by rewrite String.eqb_refl.
  - unfold JsMap.keys in Hnin. simpl in Hnin.
    apply not_elem_of_cons in Hnin as [Hne Hnin].
    assert (String.eqb k' k = false) as -> by (apply String.eqb_neq; congruence).
    by apply IH.
Qed.

Lemma JsMap_set_middle {V : Type} (l1 l2 : JsMap.t V) (k : string) (v v' : V) :
  k ∉ JsMap.keys l1 →
  JsMap.set k v' (l1 ++ (k, v) :: l2)%list = (l1 ++ (k, v') :: l2)%list.
Proof.
  induction l1 as [|[k0 v0] l1 IH]; simpl; intros Hnin.
  - by rewrite String.eqb_refl.
  - unfold JsMap.keys in Hnin. simpl in Hnin.
    apply not_elem_of_cons in Hnin as [Hne Hnin].
    assert (String.eqb k0 k = false) as -> by (apply String.eqb_neq; congruence).
    f_equal. by apply IH.
Qed.

Lemma merge_fold_distinct (done todo : list IndexedPlugin.t) :
  NoDup (pluginKey <$> (done ++ todo)%list) →
  fold_left mergeInto todo
    (((λ plugin, (pluginKey plugin, mergePlugin plugin plugin)) <$> done)
       ++ ((λ plugin, (pluginKey plugin, plugin)) <$> todo))%list
  = (λ plugin, (pluginKey plugin, mergePlugin plugin plugin)) <$> (done ++ todo)%list.
Proof.
  revert done. induction todo as [|x todo IH]; intros done Hnd; simpl.
  - by rewrite !app_nil_r.
  - assert (pluginKey x ∉
              JsMap.keys ((λ plugin, (pluginKey plugin, mergePlugin plugin plugin)) <$> done))
      as Hfresh.
    { unfold JsMap.keys. rewrite <- list_fmap_compose.
      rewrite fmap_app in Hnd. apply NoDup_app in Hnd as (_ & Hdisj & _).
      intros Hin. apply (Hdisj _ Hin). simpl. by left. }
    unfold mergeInto at 2. rewrite JsMap_get_middle by done.
    rewrite JsMap_set_middle by done.
    assert ((done ++ x :: todo)%list = ((done ++ [x]) ++ todo)%list) as Hsplit
      by (by rewrite <- app_assoc).
    rewrite Hsplit in Hnd |- *. rewrite <- (IH _ Hnd).
    f_equal. rewrite fmap_app. simpl. by rewrite <- app_assoc.
Qed.

Lemma mergedMap_self_distinct (c : PluginIndex.t) :
  NoDup (pluginKey <$> PluginIndex.items c) →
  JsMap.values (mergedMap c c) = withExtensionMap <$> PluginIndex.items c.
Proof.
  intros Hnd. unfold mergedMap, seedFromBase.
  rewrite seed_fold_distinct by (by unfold JsMap.empty, JsMap.keys; simpl).
  unfold JsMap.empty. simpl.
  pose proof (merge_fold_distinct [] (PluginIndex.items c)) as H.
  simpl in H. rewrite H by done.
  unfold JsMap.values. rewrite <- list_fmap_compose.
  apply list_fmap_ext. intros _ p _. simpl. apply mergePlugin_self.
Qed.

(** C9, as the code has it.  Merging a catalog with itself yields one
    entry per derived key: the items are the values of a map whose keys are
    pairwise distinct and are exactly the keys derived from the records.
    Each entry is the merge of a previous value with a record of the
    catalog that has this key on the enriched side, so its fields follow
    that record by the precedence rules.  For a catalog with pairwise
    distinct keys the output items are the input items in order, except
    that a record without an extension map comes out with an empty one; so
    the lists are equal when every record has an extension map. *)
Theorem mergeIndices_self (now : string) (c : PluginIndex.t) :
  let out := mergeIndices now c c in
  let merged := mergedMap c c in
  PluginIndex.items out = JsMap.values merged
  ∧ PluginIndex.count out = Z.of_nat (length (JsMap.keys merged))
  ∧ NoDup (JsMap.keys merged)
  ∧ (∀ k, k ∈ JsMap.keys merged ↔ k ∈ pluginKey <$> PluginIndex.items c)
  ∧ (∀ k, k ∈ JsMap.keys merged →
       ∃ existing incoming,
         incoming ∈ PluginIndex.items c ∧ pluginKey incoming = k
         ∧ JsMap.get k merged = Some (mergePlugin existing incoming))
  ∧ (NoDup (pluginKey <$> PluginIndex.items c) →
       PluginIndex.items out = withExtensionMap <$> PluginIndex.items c)
  ∧ (NoDup (pluginKey <$> PluginIndex.items c) →
     (∀ plugin, plugin ∈ PluginIndex.items c → is_Some (IndexedPlugin.extra plugin)) →
       PluginIndex.items out = PluginIndex.items c).
Proof.
  intros out merged.
  assert (∀ k, k ∈ JsMap.keys merged ↔ k ∈ pluginKey <$> PluginIndex.items c) as Hkeys.
  { intros k. unfold merged, mergedMap, seedFromBase.
    rewrite merge_fold_keys, seed_fold_keys. unfold JsMap.empty, JsMap.keys. simpl.
    rewrite elem_of_nil. tauto. }
  split; [done|].
  split; [by unfold out; simpl; rewrite JsMap_length_values|].
  split.
  { apply merge_fold_NoDup, seed_fold_NoDup. apply NoDup_nil_2. }
  split; [done|].
  split.
  { intros k Hk. apply merge_fold_entry; [|by apply Hkeys].
    apply seed_fold_keys. right. by apply Hkeys. }
  split.
  { intros Hnd. by apply mergedMap_self_distinct. }
  intros Hnd Hextra. simpl. rewrite mergedMap_self_distinct by done.
  rewrite <- (list_fmap_id (PluginIndex.items c)) at 2.
  apply list_fmap_ext. intros i p Hin. simpl.
  apply withExtensionMap_id, Hextra. by eapply list_elem_of_lookup_2.
Qed.

(** The self-merge of a two-record catalog with distinct keys. *)
Lemma mergeIndices_self_witness :
  PluginIndex.items
    (mergeIndices "2024-01-02T00:00:00Z"
       (Sample.catalog [Sample.legacy; Sample.shortNamed])
       (Sample.catalog [Sample.legacy; Sample.shortNamed]))
  = [Sample.legacy; withExtensionMap Sample.shortNamed].
Proof.
  pose proof (mergeIndices_self "2024-01-02T00:00:00Z"
                (Sample.catalog [Sample.legacy; Sample.shortNamed]))
    as (_ & _ & _ & _ & _ & Hdistinct & _).
  rewrite Hdistinct; [reflexivity|].
  apply (bool_decide_unpack _). vm_compute. exact I.
Defined.

(** C9 as worded fails: a one-record catalog whose record has no
    extension map does not come back equal from the merge with itself. *)
Lemma mergeIndices_self_counterexample :
  NoDup (pluginKey <$> PluginIndex.items (Sample.catalog [Sample.shortNamed]))
  ∧ PluginIndex.items
      (mergeIndices "2024-01-02T00:00:00Z"
         (Sample.catalog [Sample.shortNamed]) (Sample.catalog [Sample.shortNamed]))
    ≠ PluginIndex.items (Sample.catalog [Sample.shortNamed]).
Proof.
  split.
  - apply (bool_decide_unpack _). vm_compute. exact I.
  - intros H. apply (f_equal (fmap (M := list) IndexedPlugin.extra)) in H.
    vm_compute in H. discriminate.
Qed.

(* ===================================================================== *)
(** ** Delta engine *)
(* ===================================================================== *)

Section DeltaFacts.
Variable head : nat → string → Completion HeadResponse.t.

Lemma elem_of_computeDelta (plugins : list IndexedPlugin.t)
    (cache : gmap string CachedEntry.t) (item : DiffItem.t) :
  item ∈ computeDelta head plugins cache
  ↔ ∃ i plugin, plugins !! i = Some plugin ∧ deltaTask head cache i plugin = Some item.
Proof.
  unfold computeDelta. rewrite list_elem_of_omap. split.
  - intros (o & Ho & Hid). apply elem_of_lookup_imap in Ho as (i & p & -> & Hp).
    by exists i, p.
  - intros (i & p & Hp & Htask). exists (Some item). split; [|done].
    rewrite <- Htask. by apply elem_of_lookup_imap_2.
Qed.

(** A record without a cache entry is classified new, with the flag off,
    whatever the probe returned. *)
Lemma deltaTask_new (cache : gmap string CachedEntry.t) (i : nat)
    (plugin : IndexedPlugin.t) :
  cache !! pluginKey plugin = None →
  ∃ item, deltaTask head cache i plugin = Some item
    ∧ DiffItem.plugin item = plugin
    ∧ DiffItem.reason item = New
    ∧ DiffItem.cacheKey item = pluginKey plugin
    ∧ DiffItem.previous item = None
    ∧ DiffMetadata.requiresContentHashCheck (DiffItem.metadata item) = false.
Proof. intros Hnone. unfold deltaTask. rewrite Hnone. eexists. by repeat split. Qed.

(** A record with a cache entry never yields a new item. *)
Lemma deltaTask_cached (cache : gmap string CachedEntry.t) (i : nat)
    (plugin : IndexedPlugin.t) (previous : CachedEntry.t) (item : DiffItem.t) :
  cache !! pluginKey plugin = Some previous →
  deltaTask head cache i plugin = Some item →
  DiffItem.reason item = Updated ∧ DiffItem.previous item = Some previous.
Proof.
  intros Hsome. unfold deltaTask. rewrite Hsome.
  destruct (negb _); [by intros [= <-]|].
  destruct (unchanged _ _ _); [done | by intros [= <-]].
Qed.

Lemma deltaTask_unreliable (cache : gmap string CachedEntry.t) (i : nat)
    (plugin : IndexedPlugin.t) (previous : CachedEntry.t) :
  cache !! pluginKey plugin = Some previous →
  truthy (HeadMeta.etag (probe head i plugin)) = false →
  truthy (HeadMeta.lastModified (probe head i plugin)) = false →
  truthy (PluginFileRef.sha (IndexedPlugin.file plugin)) = false →
  ∃ item, deltaTask head cache i plugin = Some item
    ∧ DiffItem.plugin item = plugin
    ∧ DiffItem.reason item = Updated
    ∧ DiffItem.cacheKey item = pluginKey plugin
    ∧ DiffItem.previous item = Some previous
    ∧ DiffMetadata.requiresContentHashCheck (DiffItem.metadata item) = true.
Proof.
  intros Hsome Hetag Hmod Hsha. unfold deltaTask. rewrite Hsome.
  unfold hasReliableMarkers. simpl. rewrite Hetag, Hmod, Hsha. simpl.
  eexists. by repeat split.
Qed.
End DeltaFacts.

(** C3, as the code has it.  A record that has a prior cache entry and
    has no current ETag, no current Last-Modified and no source-reported
    file hash (each absent or empty) is classified updated, and its
    DeltaItem carries [requiresContentHashCheck = true] and the prior
    entry. *)
Theorem computeDelta_unreliable_is_updated
    (head : nat → string → Completion HeadResponse.t)
    (plugins : list IndexedPlugin.t) (cache : gmap string CachedEntry.t)
    (i : nat) (plugin : IndexedPlugin.t) (previous : CachedEntry.t) :
  plugins !! i = Some plugin →
  cache !! pluginKey plugin = Some previous →
  truthy (HeadMeta.etag (probe head i plugin)) = false →
  truthy (HeadMeta.lastModified (probe head i plugin)) = false →
  truthy (PluginFileRef.sha (IndexedPlugin.file plugin)) = false →
  ∃ item, item ∈ computeDelta head plugins cache
    ∧ deltaTask head cache i plugin = Some item
    ∧ DiffItem.plugin item = plugin
    ∧ DiffItem.reason item = Updated
    ∧ DiffItem.previous item = Some previous
    ∧ DiffMetadata.requiresContentHashCheck (DiffItem.metadata item) = true.
Proof.
  intros Hi Hsome Hetag Hmod Hsha.
  destruct (deltaTask_unreliable head cache i plugin previous Hsome Hetag Hmod Hsha)
    as (item & Htask & Hp & Hr & _ & Hprev & Hflag).
  exists item. split; [|done].
  apply elem_of_computeDelta. by exists i, plugin.
Qed.

(** The cached sample record, probed over a transport that fails. *)
Lemma computeDelta_unreliable_is_updated_witness :
  ∃ item,
    item ∈ computeDelta Sample.failingHead [Sample.shortNamed]
             {[ "rust-kits::Kits.cs" := Sample.deliveredShortNamed ]}
    ∧ DiffItem.reason item = Updated
    ∧ DiffMetadata.requiresContentHashCheck (DiffItem.metadata item) = true.
Proof.
  destruct (computeDelta_unreliable_is_updated Sample.failingHead [Sample.shortNamed]
              {[ "rust-kits::Kits.cs" := Sample.deliveredShortNamed ]}
              0 Sample.shortNamed Sample.deliveredShortNamed)
    as (item & Hin & _ & _ & Hr & _ & Hflag);
    [reflexivity | reflexivity | reflexivity | reflexivity | reflexivity |].
  exists item. by repeat split.
Defined.

(** C3 as worded fails: the same record, with no marker at all, is
    classified new with the flag off when the cache has no entry for it. *)
Lemma computeDelta_unreliable_counterexample :
  truthy (HeadMeta.etag (probe Sample.failingHead 0 Sample.shortNamed)) = false
  ∧ truthy (HeadMeta.lastModified (probe Sample.failingHead 0 Sample.shortNamed)) = false
  ∧ truthy (PluginFileRef.sha (IndexedPlugin.file Sample.shortNamed)) = false
  ∧ ∃ item, computeDelta Sample.failingHead [Sample.shortNamed] ∅ = [item]
      ∧ DiffItem.reason item = New
      ∧ DiffItem.reason item ≠ Updated
      ∧ DiffMetadata.requiresContentHashCheck (DiffItem.metadata item) = false.
Proof.
  repeat split; try reflexivity.
  eexists. split; [reflexivity|]. repeat split; discriminate.
Qed.

(** C10.  Every item that [computeDelta] emits with classification new
    belongs to a record whose key has no cache entry, and has
    [requiresContentHashCheck = false]; and every record whose key has no
    cache entry gets such an item, whatever the transport answers, also
    when the probe fails or the record has no URL to probe. *)
Theorem computeDelta_new_needs_no_hash_check
    (head : nat → string → Completion HeadResponse.t)
    (plugins : list IndexedPlugin.t) (cache : gmap string CachedEntry.t) :
  (∀ item, item ∈ computeDelta head plugins cache →
     DiffItem.reason item = New →
     DiffMetadata.requiresContentHashCheck (DiffItem.metadata item) = false
     ∧ cache !! DiffItem.cacheKey item = None
     ∧ DiffItem.previous item = None)
  ∧ (∀ i plugin, plugins !! i = Some plugin →
       cache !! pluginKey plugin = None →
       ∃ item, item ∈ computeDelta head plugins cache
         ∧ DiffItem.plugin item = plugin
         ∧ DiffItem.reason item = New
         ∧ DiffMetadata.requiresContentHashCheck (DiffItem.metadata item) = false).
Proof.
  split.
  - intros item Hin Hnew.
    apply elem_of_computeDelta in Hin as (i & plugin & Hi & Htask).
    destruct (cache !! pluginKey plugin) as [previous|] eqn:Hc.
    + destruct (deltaTask_cached head cache i plugin previous item Hc Htask) as [Hr _].
      congruence.
    + destruct (deltaTask_new head cache i plugin Hc)
        as (item' & Htask' & _ & _ & Hkey & Hprev & Hflag).
      assert (item' = item) as -> by congruence.
      by rewrite Hkey.
  - intros i plugin Hi Hc.
    destruct (deltaTask_new head cache i plugin Hc)
      as (item & Htask & Hp & Hr & _ & _ & Hflag).
    exists item. split; [|done].
    apply elem_of_computeDelta. by exists i, plugin.
Qed.

(** A record with a URL over a failing transport, and a record without a
    URL, both against an empty cache. *)
Lemma computeDelta_new_needs_no_hash_check_witness :
  ∃ a b,
    computeDelta Sample.failingHead [Sample.legacy; Sample.shortNamed] ∅ = [a; b]
    ∧ DiffMetadata.requiresContentHashCheck (DiffItem.metadata a) = false
    ∧ DiffMetadata.requiresContentHashCheck (DiffItem.metadata b) = false.
Proof.
  eexists _, _. split; [reflexivity|].
  pose proof (computeDelta_new_needs_no_hash_check Sample.failingHead
                [Sample.legacy; Sample.shortNamed] ∅) as [Hnew _].
  split.
  - refine (proj1 (Hnew _ _ _)); [|reflexivity].
    apply elem_of_computeDelta. exists 0%nat, Sample.legacy. by split.
  - refine (proj1 (Hnew _ _ _)); [|reflexivity].
    apply elem_of_computeDelta. exists 1%nat, Sample.shortNamed. by split.
Defined.

(* ===================================================================== *)
(** ** State cache *)
(* ===================================================================== *)

Lemma asCachedEntry_entryToJson (e : CachedEntry.t) :
  asCachedEntry (entryToJson e) = e.
Proof.
  destruct e as [key [etag|] [lastModified|] [contentHash|] [fileSha|] [fileSize|] notifiedAt];
    reflexivity.
Qed.

Lemma asStateFile_stateToJson (s : StateFile.t) :
  asStateFile (stateToJson s) = s.
Proof.
  destruct s as [entries version updatedAt].
  unfold asStateFile, stateToJson. simpl. f_equal.
  rewrite <- list_fmap_compose.
  assert (∀ l : list (string * CachedEntry.t),
            (prod_map id asCachedEntry ∘ prod_map id entryToJson) <$> l = l) as ->.
  { induction l as [|[k e] l IH]; csimpl; [done|].
    by rewrite asCachedEntry_entryToJson, IH. }
  apply list_to_map_to_list.
Qed.

Section StateCacheFacts.
Context {Net : Type}.
Implicit Types (w : World.t Net).

Lemma load_spec w :
  load w =
    (Returns tt,
     World.with_state
       (match World.disk w !! STATE_PATH with
        | Some (JsonText parsed) =>
            if version_differs (prop "version" parsed) then EMPTY_STATE
            else asStateFile parsed
        | _ => EMPTY_STATE
        end) w).
Proof.
  unfold load, pathExists, readJson, gets, set_state, modify, try_catch, read_version.
  unfold mbind, js_bind, mret, js_ret, throw.
  destruct (World.disk w !! STATE_PATH) as [[reason|parsed]|] eqn:Hdisk; simpl.
  - rewrite Hdisk. reflexivity.
  - rewrite Hdisk. destruct parsed; simpl; try reflexivity;
      by destruct (version_differs _).
  - reflexivity.
Qed.

Lemma set_spec w (entry : CachedEntry.t) :
  set entry w =
    (Returns tt,
     World.with_state
       {| StateFile.entries :=
            <[CachedEntry.key entry := entry]> (StateFile.entries (World.state w));
          StateFile.version := StateFile.version (World.state w);
          StateFile.updatedAt := StateFile.updatedAt (World.state w) |} w).
Proof. reflexivity. Qed.

(** [save] writes the payload to the temporary path, renames it onto the
    canonical path, and keeps the payload as the state. *)
Lemma save_spec w :
  let payload :=
    {| StateFile.entries := StateFile.entries (World.state w);
       StateFile.version := StateFile.version (World.state w);
       StateFile.updatedAt := World.clock w (World.ticks w) |} in
  save w =
    (Returns tt,
     World.with_state payload
       (World.with_disk
          (<[STATE_PATH := JsonText (stateToJson payload)]>
             (delete (STATE_PATH ++ ".tmp")
                (<[STATE_PATH ++ ".tmp" := JsonText (stateToJson payload)]>
                   (World.disk w))))
          (World.tick w))).
Proof.
  intros payload.
  unfold save, now, writeJson, move, gets, set_state, set_disk, modify.
  unfold mbind, js_bind, mret, js_ret. simpl.
  rewrite lookup_insert_eq. reflexivity.
Qed.

Lemma stateToJson_version (s : StateFile.t) :
  prop "version" (stateToJson s) = Some (JNum (StateFile.version s)).
Proof. reflexivity. Qed.

Lemma version_differs_false (v : option JsonValue) :
  version_differs v = false ↔ v = Some (JNum STATE_VERSION).
Proof.
  destruct v as [[]|]; simpl; try (split; [discriminate | by intros [=]]).
  rewrite negb_false_iff, Z.eqb_eq. split; [by intros -> | by intros [= ->]].
Qed.




End StateCacheFacts.

(** C6.  [load] returns normally from every world, and loading again
    changes nothing.  When the cache file is missing, when it cannot be
    read as JSON, or when the version in it is not the configured one
    (which covers a file that holds [null]), the state becomes the empty
    snapshot; otherwise it becomes the parsed snapshot.  The disk is left
    as it was. *)
Theorem load_never_throws_and_is_idempotent {Net : Type} (w : World.t Net) :
  ∃ w',
    load w = (Returns tt, w')
    ∧ load w' = (Returns tt, w')
    ∧ World.disk w' = World.disk w
    ∧ (World.disk w !! STATE_PATH = None → World.state w' = EMPTY_STATE)
    ∧ (∀ reason, World.disk w !! STATE_PATH = Some (Unreadable reason) →
         World.state w' = EMPTY_STATE)
    ∧ (∀ parsed, World.disk w !! STATE_PATH = Some (JsonText parsed) →
         prop "version" parsed ≠ Some (JNum STATE_VERSION) →
         World.state w' = EMPTY_STATE)
    ∧ (∀ parsed, World.disk w !! STATE_PATH = Some (JsonText parsed) →
         prop "version" parsed = Some (JNum STATE_VERSION) →
         World.state w' = asStateFile parsed).
Proof.
  eexists. split; [apply load_spec|].
  split; [by rewrite load_spec|].
  split; [reflexivity|]. simpl.
  split; [by intros ->|].
  split; [by intros reason ->|].
  split.
  - intros parsed -> Hne.
    destruct (version_differs _) eqn:E; [done|].
    by apply version_differs_false in E.
  - intros parsed -> He.
    by apply version_differs_false in He as ->.
Qed.

(** [load] over no file, over a file of another version, and over a file
    that does not parse. *)
Lemma load_never_throws_and_is_idempotent_witness :
  (∃ w', load Sample.emptyWorld = (Returns tt, w') ∧ World.state w' = EMPTY_STATE)
  ∧ (∃ w',
       load (World.with_disk {[ STATE_PATH := JsonText (JObj [("version", JNum 2)]) ]}
               Sample.emptyWorld) = (Returns tt, w')
       ∧ World.state w' = EMPTY_STATE)
  ∧ (∃ w',
       load (World.with_disk {[ STATE_PATH := Unreadable "Unexpected token" ]}
               Sample.emptyWorld) = (Returns tt, w')
       ∧ World.state w' = EMPTY_STATE).
Proof.
  split; [|split].
  - destruct (load_never_throws_and_is_idempotent Sample.emptyWorld)
      as (w' & Hload & _ & _ & Hmissing & _).
    exists w'. split; [exact Hload|]. apply Hmissing. reflexivity.
  - destruct (load_never_throws_and_is_idempotent
                (World.with_disk
                   {[ STATE_PATH := JsonText (JObj [("version", JNum 2)]) ]}
                   Sample.emptyWorld))
      as (w' & Hload & _ & _ & _ & _ & Hversion & _).
    exists w'. split; [exact Hload|].
    apply (Hversion (JObj [("version", JNum 2)])); [reflexivity | discriminate].
  - destruct (load_never_throws_and_is_idempotent
                (World.with_disk {[ STATE_PATH := Unreadable "Unexpected token" ]}
                   Sample.emptyWorld))
      as (w' & Hload & _ & _ & _ & Hbad & _).
    exists w'. split; [exact Hload|].
    apply (Hbad "Unexpected token"). reflexivity.
Defined.



(* ===================================================================== *)
(** ** Webhook sender *)
(* ===================================================================== *)

Lemma status_429_rateLimited (e : JsError.t) :
  Z.eqb (default 0 (AxiosResponse.status <$> JsError.response e)) 429 = true
  ↔ rateLimited e.
Proof.
  unfold rateLimited. rewrite Z.eqb_eq.
  destruct (JsError.response e) as [r|]; simpl.
  - split; [by intros H; exists r | by intros (r' & [= <-] & H)].
  - split; [discriminate | by intros (r' & ? & _)].
Qed.

Lemma status_5xx_serverError (e : JsError.t) :
  Z.leb 500 (default 0 (AxiosResponse.status <$> JsError.response e))
  && Z.ltb (default 0 (AxiosResponse.status <$> JsError.response e)) 600 = true
  ↔ serverError e.
Proof.
  unfold serverError. rewrite andb_true_iff, Z.leb_le, Z.ltb_lt.
  destruct (JsError.response e) as [r|]; simpl.
  - split; [by intros H; exists r | by intros (r' & [= <-] & H)].
  - split; [lia | by intros (r' & ? & _)].
Qed.

Lemma rateLimited_not_serverError (e : JsError.t) : rateLimited e → ¬ serverError e.
Proof. intros (r & Hr & Hs) (r' & Hr' & Hlo & Hhi). simplify_eq. lia. Qed.

Section WebhookFacts.
Context {Net : Type}.
Variable config : Config.t.
Variable sanitize : string → string.
Variable post : string → WebhookBody → Net → Completion unit * Net.
Implicit Types (w : World.t Net).

Lemma attempts_timeline (plugin : IndexedPlugin.t) (embed : DiscordEmbed.t)
    (attachment : option AttachmentPayload.t) (sanitizedName : option string)
    (remaining attempt : nat) w :
  (attempt + remaining = MAX_WEBHOOK_ATTEMPTS)%nat →
  ∃ result w' evs,
    attempts config post plugin embed attachment sanitizedName remaining attempt w
      = (result, w')
    ∧ World.timeline w' = (World.timeline w ++ evs)%list
    ∧ World.state w' = World.state w
    ∧ World.disk w' = World.disk w
    ∧ World.clock w' = World.clock w
    ∧ World.ticks w' = World.ticks w
    ∧ World.webhookCalls w' = World.webhookCalls w
    ∧ retryTimeline attempt evs result.
Proof.
  revert attempt w. induction remaining as [|remaining IH]; intros attempt w Hsum.
  - exists (Throws (Error "Failed to deliver webhook after retries.")), w, [].
    rewrite Nat.add_0_r in Hsum. subst attempt.
    rewrite app_nil_r. repeat split. constructor.
  - assert (attempt < MAX_WEBHOOK_ATTEMPTS)%nat as Hlt by lia.
    assert (S attempt + remaining = MAX_WEBHOOK_ATTEMPTS)%nat as Hsum' by lia.
    cbn [attempts]. unfold mbind, js_bind, try_catch, httpPost, mret, js_ret.
    destruct (post (Config.WEBHOOK_URL config)
                (requestBody config plugin embed attachment sanitizedName)
                (World.net w)) as [[[]|e] n] eqn:Hpost.
    + eexists _, _, [_]. split; [reflexivity|]. simpl. repeat split.
      by constructor.
    + destruct (Z.eqb _ 429) eqn:H429.
      * apply status_429_rateLimited in H429.
        unfold sleep, modify. simpl.
        edestruct (IH (S attempt)) as (result & w' & evs & -> & Htl & Hst & Hd & Hc & Ht & Hw & Hrt);
          [exact Hsum'|].
        eexists result, w', (_ :: _ :: evs). split; [reflexivity|].
        simpl in *. rewrite Htl, <- !app_assoc. simpl.
        repeat split; try done. by constructor.
      * destruct (Z.leb 500 _ && Z.ltb _ 600) eqn:H5xx.
        -- apply status_5xx_serverError in H5xx.
           unfold sleep, modify. simpl.
           edestruct (IH (S attempt)) as (result & w' & evs & -> & Htl & Hst & Hd & Hc & Ht & Hw & Hrt);
             [exact Hsum'|].
           eexists result, w', (_ :: _ :: evs). split; [reflexivity|].
           simpl in *. rewrite Htl, <- !app_assoc. simpl.
           repeat split; try done. by apply rt_server_error.
        -- unfold throw. eexists _, _, [_]. split; [reflexivity|]. simpl.
           repeat split. apply rt_terminal; [done| |].
           ++ intros H. apply status_429_rateLimited in H. congruence.
           ++ intros H. apply status_5xx_serverError in H. congruence.
Qed.

Lemma sendPluginWebhook_spec (plugin : IndexedPlugin.t)
    (attachment : option AttachmentPayload.t) w :
  ∃ result w' evs,
    sendPluginWebhook config sanitize post plugin attachment w = (result, w')
    ∧ World.timeline w' = (World.timeline w ++ evs)%list
    ∧ World.state w' = World.state w
    ∧ World.disk w' = World.disk w
    ∧ World.clock w' = World.clock w
    ∧ World.webhookCalls w'
      = (World.webhookCalls w ++ [WebhookCall.mk plugin attachment result])%list
    ∧ (retryTimeline 0 evs result
       ∨ Config.WEBHOOK_URL config = "" ∧ evs = []
         ∧ result = Throws (Error "DISCORD_WEBHOOK_URL must be configured.")).
Proof.
  unfold sendPluginWebhook, sendPluginWebhook_body.
  destruct (String.eqb (Config.WEBHOOK_URL config) "") eqn:Hurl.
  - apply String.eqb_eq in Hurl. unfold throw.
    eexists _, _, []. split; [reflexivity|]. simpl. rewrite app_nil_r.
    repeat split. by right.
  - unfold buildEmbed, now, mbind, js_bind, mret, js_ret.
    match goal with
    | |- context [attempts config post plugin ?embed attachment ?name ?r ?a ?w0] =>
        destruct (attempts_timeline plugin embed attachment name r a w0 eq_refl)
          as (result & w' & evs & -> & Htl & Hst & Hd & Hc & Ht & Hw & Hrt)
    end.
    exists result, (World.called (WebhookCall.mk plugin attachment result) w'), evs.
    split; [reflexivity|]. simpl in *. rewrite Hw. repeat split; try done. by left.
Qed.
End WebhookFacts.

(** The first event a retry loop with attempts left produces is its post. *)
Lemma retryTimeline_head (attempt : nat) (evs : list WebhookEvent)
    (result : Completion unit) :
  retryTimeline attempt evs result →
  (attempt < MAX_WEBHOOK_ATTEMPTS)%nat →
  ∃ body outcome, evs !! 0%nat = Some (Posted attempt body outcome).
Proof. intros H Hlt. destruct H; simpl; eauto. lia. Qed.

Lemma retryTimeline_numbering (attempt : nat) (evs : list WebhookEvent)
    (result : Completion unit) :
  retryTimeline attempt evs result →
  attemptsOf evs = seq attempt (length (attemptsOf evs))
  ∧ (attempt + length (attemptsOf evs) ≤ MAX_WEBHOOK_ATTEMPTS)%nat.
Proof.
  induction 1 as [ | | | a body e evs r Hlt He Hrt [IHseq IHle]
                 | a body e evs r Hlt He Hrt [IHseq IHle] ]; simpl;
    try (split; [done | unfold MAX_WEBHOOK_ATTEMPTS in *; lia]).
  - split; [by rewrite <- IHseq | lia].
  - split; [by rewrite <- IHseq | lia].
Qed.

(** What follows a failed post that is retried: the wait, and then the
    next attempt unless the failed one was the last. *)
Lemma retryTimeline_retry (attempt : nat) (evs : list WebhookEvent)
    (result : Completion unit) :
  retryTimeline attempt evs result →
  ∀ k i body e,
    evs !! k = Some (Posted i body (Throws e)) →
    (rateLimited e → evs !! S k = Some (Slept (retryDelay (JsError.response e))))
    ∧ (serverError e → evs !! S k = Some (Slept (serverErrorDelay i)))
    ∧ (rateLimited e ∨ serverError e →
       (S i < MAX_WEBHOOK_ATTEMPTS)%nat →
       ∃ body' outcome, evs !! S (S k) = Some (Posted (S i) body' outcome)).
Proof.
  induction 1 as [ | a body | a body e0 Hlt Hn429 Hn5xx
                 | a body e0 evs r Hlt He Hrt IH
                 | a body e0 evs r Hlt He Hrt IH ];
    intros k i body' e Hk.
  - done.
  - destruct k; [by simplify_eq/=|done].
  - destruct k; [|done]. simplify_eq/=. tauto.
  - destruct k as [|[|k]]; [| done | exact (IH k i body' e Hk)].
    simplify_eq/=. split; [done|]. split.
    + intros H. by destruct (rateLimited_not_serverError e).
    + intros _ Hnext. by apply (retryTimeline_head _ _ _ Hrt).
  - destruct k as [|[|k]]; [| done | exact (IH k i body' e Hk)].
    simplify_eq/=. split; [|split; [done|]].
    + intros H. by destruct (rateLimited_not_serverError e).
    + intros _ Hnext. by apply (retryTimeline_head _ _ _ Hrt).
Qed.

(** A post that succeeds, or fails in another way, ends the call. *)
Lemma retryTimeline_final (attempt : nat) (evs : list WebhookEvent)
    (result : Completion unit) :
  retryTimeline attempt evs result →
  ∀ k i body outcome,
    evs !! k = Some (Posted i body outcome) →
    match outcome with
    | Returns _ => True
    | Throws e => ¬ rateLimited e ∧ ¬ serverError e
    end →
    result = outcome ∧ length evs = S k.
Proof.
  induction 1 as [ | a body | a body e0 Hlt Hn429 Hn5xx
                 | a body e0 evs r Hlt He Hrt IH
                 | a body e0 evs r Hlt He Hrt IH ];
    intros k i body' outcome Hk Hfinal.
  - done.
  - destruct k; [by simplify_eq/=|done].
  - destruct k; [by simplify_eq/=|done].
  - destruct k as [|[|k]]; [| done |].
    + simplify_eq/=. tauto.
    + destruct (IH k i body' outcome Hk Hfinal) as [-> Hlen]. simpl. by rewrite Hlen.
  - destruct k as [|[|k]]; [| done |].
    + simplify_eq/=. tauto.
    + destruct (IH k i body' outcome Hk Hfinal) as [-> Hlen]. simpl. by rewrite Hlen.
Qed.

(** C8.  One call of [sendPluginWebhook] makes at most 5 posts, numbered
    0, 1, 2, ... in order.  A post answered with status 429 is followed by
    a wait of the retry-after of the response (1 when the response has
    none) times 1000, multiplied as doubles and rounded up to whole
    milliseconds, which is 1000 ms without a retry-after; and a post
    answered with a 5xx status by a wait of 500 ms times the number of the
    attempt, counted from 1; in either case the next attempt follows
    unless the failed one was the fifth.  A post that fails in any other
    way (another status, or no response at all) ends the call, which
    throws that very error; and a post that succeeds ends the call, which
    returns. *)
Theorem sendPluginWebhook_retry_protocol {Net : Type} (config : Config.t)
    (sanitize : string → string)
    (post : string → WebhookBody → Net → Completion unit * Net)
    (plugin : IndexedPlugin.t) (attachment : option AttachmentPayload.t)
    (w : World.t Net) :
  ∃ result w' evs,
    sendPluginWebhook config sanitize post plugin attachment w = (result, w')
    ∧ World.timeline w' = (World.timeline w ++ evs)%list
    ∧ (length (attemptsOf evs) ≤ 5)%nat
    ∧ attemptsOf evs = seq 0 (length (attemptsOf evs))
    ∧ (∀ k i body e r,
         evs !! k = Some (Posted i body (Throws e)) →
         JsError.response e = Some r →
         AxiosResponse.status r = 429 →
         evs !! S k
           = Some (Slept (Math_ceil (Double.times
                                       (default Double.one (AxiosResponse.retry_after r))
                                       Double.thousand)))
         ∧ (AxiosResponse.retry_after r = None → evs !! S k = Some (Slept 1000))
         ∧ ((S i < 5)%nat →
            ∃ body' outcome, evs !! S (S k) = Some (Posted (S i) body' outcome)))
    ∧ (∀ k i body e r,
         evs !! k = Some (Posted i body (Throws e)) →
         JsError.response e = Some r →
         500 ≤ AxiosResponse.status r ∧ AxiosResponse.status r < 600 →
         evs !! S k = Some (Slept (500 * (Z.of_nat i + 1)))
         ∧ ((S i < 5)%nat →
            ∃ body' outcome, evs !! S (S k) = Some (Posted (S i) body' outcome)))
    ∧ (∀ k i body e,
         evs !! k = Some (Posted i body (Throws e)) →
         (JsError.response e = None
          ∨ ∃ r, JsError.response e = Some r
                 ∧ AxiosResponse.status r ≠ 429
                 ∧ ¬ (500 ≤ AxiosResponse.status r ∧ AxiosResponse.status r < 600)) →
         result = Throws e ∧ length evs = S k)
    ∧ (∀ k i body,
         evs !! k = Some (Posted i body (Returns tt)) →
         result = Returns tt ∧ length evs = S k).
Proof.
  destruct (sendPluginWebhook_spec config sanitize post plugin attachment w)
    as (result & w' & evs & Hsend & Htl & _ & _ & _ & _ & Hshape).
  exists result, w', evs. split; [done|]. split; [done|].
  destruct Hshape as [Hrt | (_ & -> & _)].
  2: { simpl. split; [lia|]. repeat split; intros; by simplify_eq/=. }
  destruct (retryTimeline_numbering _ _ _ Hrt) as [Hseq Hle].
  split; [exact Hle|]. split; [exact Hseq|].
  split; [|split; [|split]].
  - intros k i body e r Hk Hr Hs.
    destruct (retryTimeline_retry _ _ _ Hrt k i body e Hk) as (H429 & _ & Hnext).
    assert (rateLimited e) as He by (by exists r).
    split; [|split].
    + rewrite (H429 He). unfold retryDelay. by rewrite Hr.
    + intros Hnone. rewrite (H429 He). unfold retryDelay. rewrite Hr. simpl.
      rewrite Hnone. reflexivity.
    + intros Hlt. apply Hnext; [by left | exact Hlt].
  - intros k i body e r Hk Hr Hs.
    destruct (retryTimeline_retry _ _ _ Hrt k i body e Hk) as (_ & H5xx & Hnext).
    assert (serverError e) as He by (by exists r).
    split.
    + by rewrite (H5xx He).
    + intros Hlt. apply Hnext; [by right | exact Hlt].
  - intros k i body e Hk Hother.
    apply (retryTimeline_final _ _ _ Hrt k i body (Throws e) Hk).
    split.
    + intros (r & Hr & Hs). destruct Hother as [?|(r' & Hr' & Hne & _)]; congruence.
    + intros (r & Hr & Hs). destruct Hother as [?|(r' & Hr' & _ & Hne)]; [congruence|].
      simplify_eq. tauto.
  - intros k i body Hk.
    by apply (retryTimeline_final _ _ _ Hrt k i body (Returns tt) Hk).
Qed.

(** A call against a sink that answers 429 (retry-after 2.007 s), then
    500, then accepts: the waits are 2008 ms, the product of the doubles
    being just above 2007, and 1000 ms, and the call returns after the
    third post. *)
Lemma sendPluginWebhook_retry_protocol_witness :
  ∃ w' b0 e0 b1 e1 b2,
    sendPluginWebhook Sample.config id Sample.flakySink Sample.alpha None Sample.quietWorld
      = (Returns tt, w')
    ∧ World.timeline w'
      = [Posted 0 b0 (Throws e0); Slept 2008; Posted 1 b1 (Throws e1); Slept 1000;
         Posted 2 b2 (Returns tt)].
Proof.
  destruct (sendPluginWebhook_retry_protocol Sample.config id Sample.flakySink
              Sample.alpha None Sample.quietWorld)
    as (result & w' & evs & Hsend & Htl & _ & _ & H429 & H5xx & _ & Hok).
  assert (∃ b, evs = [Posted 0 b (Throws (Sample.httpError 429
                                            (Some Sample.Seconds.two_and_seven_thousandths)));
                      Slept 2008;
                      Posted 1 b (Throws (Sample.httpError 500 None));
                      Slept 1000;
                      Posted 2 b (Returns tt)]) as [b Hevs].
  { vm_compute in Hsend. injection Hsend as _ <-. simpl in Htl. subst evs. eauto. }
  destruct (Hok 4%nat 2%nat b) as [Hresult _]; [by rewrite Hevs|].
  destruct (H429 0%nat 0%nat b
              (Sample.httpError 429 (Some Sample.Seconds.two_and_seven_thousandths))
              (AxiosResponse.mk 429 None (Some Sample.Seconds.two_and_seven_thousandths)))
    as [Hwait0 _];
    [by rewrite Hevs | reflexivity | reflexivity |].
  destruct (H5xx 2%nat 1%nat b (Sample.httpError 500 None)
              (AxiosResponse.mk 500 None None)) as [Hwait1 _];
    [by rewrite Hevs | reflexivity | simpl; lia |].
  exists w', b, (Sample.httpError 429 (Some Sample.Seconds.two_and_seven_thousandths)), b,
    (Sample.httpError 500 None), b.
  split; [by rewrite Hsend, Hresult|].
  by rewrite Htl, Hevs.
Defined.

(* ===================================================================== *)
(** ** Sequential delivery *)
(* ===================================================================== *)

(** The keys found among the values of a cache after one more [set]. *)
Lemma keysOf_insert (m : gmap string CachedEntry.t) (entry : CachedEntry.t) (k : string) :
  CachedEntry.key entry ∈ keysOf ((map_to_list (<[k := entry]> m)).*2)
  ∧ keysOf ((map_to_list (<[k := entry]> m)).*2)
    ⊆ {[CachedEntry.key entry]} ∪ keysOf ((map_to_list m).*2).
Proof.
  unfold keysOf. split.
  - apply elem_of_list_to_set, list_elem_of_fmap. exists entry. split; [done|].
    apply list_elem_of_fmap. exists (k, entry). split; [done|].
    apply elem_of_map_to_list, lookup_insert_eq.
  - intros x Hx. apply elem_of_list_to_set, list_elem_of_fmap in Hx as (e & -> & He).
    apply list_elem_of_fmap in He as ([k' e'] & -> & Hin). simpl.
    apply elem_of_map_to_list in Hin.
    destruct (decide (k = k')) as [<-|Hne].
    + rewrite lookup_insert_eq in Hin. simplify_eq.
      by apply elem_of_union_l, elem_of_singleton.
    + rewrite lookup_insert_ne in Hin by done.
      apply elem_of_union_r, elem_of_list_to_set, list_elem_of_fmap.
      exists e'. split; [done|]. apply list_elem_of_fmap. exists (k', e'). split; [done|].
      by apply elem_of_map_to_list.
Qed.

Lemma keysOf_lookup (m : gmap string CachedEntry.t) (entry : CachedEntry.t) (k : string) :
  m !! k = Some entry → CachedEntry.key entry ∈ keysOf ((map_to_list m).*2).
Proof.
  intros Hm. unfold keysOf. apply elem_of_list_to_set, list_elem_of_fmap.
  exists entry. split; [done|]. apply list_elem_of_fmap. exists (k, entry).
  split; [done|]. by apply elem_of_map_to_list.
Qed.

Lemma is_pending_true (keys : gset string) (plugin : IndexedPlugin.t) :
  is_pending keys plugin = true
  ↔ truthy (PluginFileRef.raw_url (IndexedPlugin.file plugin)) = true
    ∧ pluginKey plugin ∉ keys.
Proof.
  unfold is_pending. destruct (truthy _); [|by split; [|intros [? _]]].
  rewrite negb_true_iff, bool_decide_eq_false. tauto.
Qed.

(** Neither ending of a run touches the record of webhook calls. *)
Lemma final_save_calls {Net : Type} (uploaded : Z) (w : World.t Net)
    (result : Completion unit) (w' : World.t Net) :
  (if Z.eqb uploaded 0 then save else mret tt) w = (result, w') →
  result = Returns tt
  ∧ World.webhookCalls w' = World.webhookCalls w
  ∧ (uploaded ≠ 0 → w' = w).
Proof.
  destruct (Z.eqb uploaded 0) eqn:E.
  - rewrite save_spec. intros [= <- <-]. apply Z.eqb_eq in E. by repeat split.
  - intros [= <- <-]. by repeat split.
Qed.
Section CliFacts.
Context {Net : Type}.
Variable config : Config.t.
Variable sanitize : string → string.
Variable post : string → WebhookBody → Net → Completion unit * Net.
Variable getBinary : string → Net → Completion (list Byte.byte) * Net.
Variable sha256 : list Byte.byte → string.
Implicit Types (w : World.t Net) (vars : LoopVars.t) (plugin : IndexedPlugin.t).

(** One turn of the upload loop.  A record that is not pending is passed
    over.  A pending record is sent once; after a send that returns, an
    entry under its key is set and saved and the key joins the processed
    keys; after a send that throws, the cache and the disk are as before.
    The turn itself always returns. *)
Lemma uploadOne_spec vars plugin w :
  ∃ vars' w',
    uploadOne config sanitize post getBinary sha256 vars plugin w = (Returns vars', w')
    ∧ (is_pending (LoopVars.processedKeys vars) plugin = false
       ∧ w' = w ∧ vars' = vars
       ∨ is_pending (LoopVars.processedKeys vars) plugin = true
         ∧ ∃ attachment result,
             World.webhookCalls w'
             = (World.webhookCalls w ++ [WebhookCall.mk plugin attachment result])%list
             ∧ match result with
               | Returns _ =>
                   ∃ entry,
                     CachedEntry.key entry = pluginKey plugin
                     ∧ CachedEntry.fileSha entry = PluginFileRef.sha (IndexedPlugin.file plugin)
                     ∧ StateFile.entries (World.state w')
                       = <[pluginKey plugin := entry]> (StateFile.entries (World.state w))
                     ∧ StateFile.version (World.state w') = StateFile.version (World.state w)
                     ∧ World.disk w' !! STATE_PATH
                       = Some (JsonText (stateToJson (World.state w')))
                     ∧ LoopVars.uploaded vars' = LoopVars.uploaded vars + 1
                     ∧ LoopVars.processedKeys vars'
                       = {[pluginKey plugin]} ∪ LoopVars.processedKeys vars
               | Throws _ =>
                   World.state w' = World.state w
                   ∧ World.disk w' = World.disk w
                   ∧ LoopVars.uploaded vars' = LoopVars.uploaded vars
                   ∧ LoopVars.processedKeys vars' = LoopVars.processedKeys vars
               end).
Proof.
  unfold uploadOne, is_pending.
  destruct (truthy (PluginFileRef.raw_url (IndexedPlugin.file plugin))) eqn:Hurl;
    cbn -[pluginKey];
    [|by eexists _, _; split; [reflexivity|left]].
  destruct (bool_decide (pluginKey plugin ∈ LoopVars.processedKeys vars)) eqn:Hkey;
    cbn -[pluginKey];
    [by eexists _, _; split; [reflexivity|left]|].
  match goal with
  | |- ∃ _ _, (?m ≫= _) w = _ ∧ _ => set (download := m)
  end.
  assert (∃ d n, download w = (Returns d, World.with_net n w)) as ([buffer hash] & n & Hdl).
  { unfold download. destruct (_ || _).
    - unfold try_catch, getFile, mbind, js_bind, mret, js_ret.
      destruct (getBinary _ _) as [[buf|e] n]; eauto.
    - exists (None, None), (World.net w). by destruct w. }
  clearbody download.
  unfold mbind at 1. unfold js_bind at 1. rewrite Hdl.
  unfold try_catch. unfold mbind at 1. unfold js_bind at 1.
  match goal with
  | |- context [sendPluginWebhook config sanitize post plugin ?att ?w1] =>
      destruct (sendPluginWebhook_spec config sanitize post plugin att w1)
        as (result & w2 & evs & Hsend & _ & Hstate & Hdisk & Hclock & Hcalls & _);
      rewrite Hsend
  end.
  simpl in Hstate, Hdisk, Hclock, Hcalls.
  destruct result as [[]|e].
  - unfold mbind, js_bind, now. rewrite set_spec, save_spec.
    cbn -[pluginKey stateToJson].
    eexists _, _. split; [reflexivity|]. right. split; [done|].
    eexists _, (Returns tt). split; [exact Hcalls|].
    cbn -[pluginKey stateToJson].
    match goal with
    | |- context [<[pluginKey plugin := ?entry]> (StateFile.entries (World.state w2))] =>
        exists entry
    end.
    split; [reflexivity|]. split; [reflexivity|].
    split; [by rewrite Hstate|]. split; [by rewrite Hstate|].
    split; [apply lookup_insert_eq | done].
  - unfold mret, js_ret.
    eexists _, _. split; [reflexivity|]. right. split; [done|].
    eexists _, (Throws e). split; [exact Hcalls|]. by simpl.
Qed.

End CliFacts.

(** C1.  Take a run of the delivery pipeline over two records in which
    [sendPluginWebhook] was called for the first and returned, and was
    called for the second and threw.  The run returns normally.  The cache
    afterwards is the cache before with one entry set, under the key of the
    first record, which was not a cached key before (so a cache whose
    entries sit under their own keys has grown by exactly one entry), and
    this cache is what the state file holds.  Nothing was recorded for the
    second record: its key is another key, the cache holds for it what it
    held before, the key is not among the cached keys, and the second
    record is the one pending record of the next invocation. *)
Theorem delivery_continues_after_failed_send {Net : Type} (config : Config.t)
    (sanitize : string → string)
    (post : string → WebhookBody → Net → Completion unit * Net)
    (getBinary : string → Net → Completion (list Byte.byte) * Net)
    (sha256 : list Byte.byte → string)
    (first second : IndexedPlugin.t)
    (attachment1 attachment2 : option AttachmentPayload.t) (e : JsError.t)
    (w w' : World.t Net) (result : Completion unit) :
  processAllPluginsSequentially config sanitize post getBinary sha256 [first; second] w
    = (result, w') →
  World.webhookCalls w'
    = (World.webhookCalls w
         ++ [WebhookCall.mk first attachment1 (Returns tt);
             WebhookCall.mk second attachment2 (Throws e)])%list →
  let before := StateFile.entries (World.state w) in
  let after := StateFile.entries (World.state w') in
  result = Returns tt
  ∧ (∃ entry,
       after = <[pluginKey first := entry]> before
       ∧ CachedEntry.key entry = pluginKey first)
  ∧ (pluginKey first ∉ keysOf ((map_to_list before).*2))
  ∧ ((∀ k cached, before !! k = Some cached → CachedEntry.key cached = k) →
       before !! pluginKey first = None ∧ size after = S (size before))
  ∧ World.disk w' !! STATE_PATH = Some (JsonText (stateToJson (World.state w')))
  ∧ pluginKey second ≠ pluginKey first
  ∧ after !! pluginKey second = before !! pluginKey second
  ∧ (pluginKey second ∉ keysOf ((map_to_list after).*2))
  ∧ pendingIn w' [first; second] = [second].
Proof.
  intros Hrun Hcalls before after.
  unfold processAllPluginsSequentially, entries, gets in Hrun.
  unfold mbind at 1, js_bind at 1 in Hrun. cbv beta iota in Hrun.
  fold before in Hrun.
  set (keys0 := keysOf ((map_to_list before).*2)) in *.
  destruct (Nat.eqb (length (pendingOf keys0 [first; second])) 0).
  { rewrite save_spec in Hrun. injection Hrun as _ <-. simpl in Hcalls.
    apply (f_equal length) in Hcalls. rewrite length_app in Hcalls. simpl in Hcalls. lia. }
  cbn [for_of] in Hrun.
  unfold mbind at 1, js_bind at 1 in Hrun.
  unfold mbind at 1, js_bind at 1 in Hrun.
  match type of Hrun with
  | context [uploadOne _ _ _ _ _ ?vars0 first w] =>
      destruct (uploadOne_spec config sanitize post getBinary sha256 vars0 first w)
        as (vars1 & w1 & Hup1 & Hcase1)
  end.
  rewrite Hup1 in Hrun. cbv beta iota in Hrun.
  unfold mbind at 1, js_bind at 1 in Hrun.
  destruct (uploadOne_spec config sanitize post getBinary sha256 vars1 second w1)
    as (vars2 & w2 & Hup2 & Hcase2).
  rewrite Hup2 in Hrun. cbv beta iota in Hrun.
  unfold mret at 1, js_ret at 1 in Hrun. cbv beta iota in Hrun.
  apply final_save_calls in Hrun as (-> & Hcalls' & Hsame).
  rewrite Hcalls' in Hcalls. clear Hcalls'.
  cbn [LoopVars.processedKeys] in Hcase1.
  destruct Hcase1 as [(_ & -> & ->) | (Hpend1 & att1 & r1 & Hcalls1 & Hcase1)];
    destruct Hcase2 as [(_ & -> & ->) | (Hpend2 & att2 & r2 & Hcalls2 & Hcase2)].
  - apply (f_equal length) in Hcalls. rewrite length_app in Hcalls. simpl in Hcalls. lia.
  - rewrite Hcalls2 in Hcalls. apply (f_equal length) in Hcalls.
    rewrite !length_app in Hcalls. simpl in Hcalls. lia.
  - rewrite Hcalls1 in Hcalls. apply (f_equal length) in Hcalls.
    rewrite !length_app in Hcalls. simpl in Hcalls. lia.
  - rewrite Hcalls2, Hcalls1, <- app_assoc in Hcalls.
    apply app_inv_head in Hcalls. simpl in Hcalls.
    injection Hcalls as -> -> -> ->.
    destruct Hcase1 as (entry & Hkey & _ & Hentries & _ & Hdisk1 & Hup & Hkeys1).
    destruct Hcase2 as (Hstate2 & Hdisk2 & Hup' & _).
    assert (w' = w2) as -> by (apply Hsame; cbn [LoopVars.uploaded] in *; lia).
    apply is_pending_true in Hpend1 as [Hurl1 Hfresh1].
    apply is_pending_true in Hpend2 as [Hurl2 Hfresh2].
    rewrite Hkeys1 in Hfresh2.
    assert (pluginKey second ≠ pluginKey first) as Hne.
    { intros Heq. apply Hfresh2. rewrite Heq. by apply elem_of_union_l, elem_of_singleton. }
    assert (pluginKey second ∉ keys0) as Hnot0.
    { intros H. by apply Hfresh2, elem_of_union_r. }
    assert (after = <[pluginKey first := entry]> before) as Hafter
      by (unfold after; by rewrite Hstate2).
    destruct (keysOf_insert before entry (pluginKey first)) as [Hin Hsub].
    rewrite Hkey in Hin, Hsub. rewrite <- Hafter in Hin, Hsub.
    split; [done|]. split; [by exists entry|]. split; [done|].
    split.
    { intros Hwf. assert (before !! pluginKey first = None) as Hnone.
      { destruct (before !! pluginKey first) as [cached|] eqn:Hc; [|done].
        exfalso. apply Hfresh1. rewrite <- (Hwf _ _ Hc).
        by eapply keysOf_lookup. }
      split; [done|]. rewrite Hafter. by apply map_size_insert_None. }
    split; [by rewrite Hdisk2, Hstate2|].
    split; [done|].
    split; [by rewrite Hafter, lookup_insert_ne|].
    assert (pluginKey second ∉ keysOf ((map_to_list after).*2)) as Hnot.
    { intros H. apply Hsub, elem_of_union in H as [H%elem_of_singleton|H]; done. }
    split; [done|].
    unfold pendingIn, pendingOf. fold after.
    rewrite filter_cons_False, filter_cons_True, filter_nil; [done| |].
    + apply is_pending_true. by split.
    + rewrite is_pending_true. tauto.
Qed.

(** A run over two records against a sink that accepts the first post and
    answers 400 to the second, starting from an empty cache. *)
Lemma delivery_continues_after_failed_send_witness :
  ∃ w',
    processAllPluginsSequentially Sample.config id Sample.onceOnlySink Sample.noDownload
      (λ _, "") [Sample.alpha; Sample.beta] Sample.quietWorld = (Returns tt, w')
    ∧ is_Some (StateFile.entries (World.state w') !! "https://example.com/alpha.cs")
    ∧ StateFile.entries (World.state w') !! "https://example.com/beta.cs" = None
    ∧ pendingIn w' [Sample.alpha; Sample.beta] = [Sample.beta].
Proof.
  destruct (processAllPluginsSequentially Sample.config id Sample.onceOnlySink
              Sample.noDownload (λ _, "") [Sample.alpha; Sample.beta] Sample.quietWorld)
    as [result w'] eqn:Hrun.
  destruct (delivery_continues_after_failed_send Sample.config id Sample.onceOnlySink
              Sample.noDownload (λ _, "") Sample.alpha Sample.beta None None
              (Sample.httpError 400 None) Sample.quietWorld w' result Hrun)
    as (-> & (entry & Hafter & _) & _ & _ & _ & _ & Hsecond & _ & Hpending).
  { vm_compute in Hrun. injection Hrun as _ <-. reflexivity. }
  exists w'. split; [reflexivity|].
  split; [|split; [exact Hsecond | exact Hpending]].
  rewrite Hafter. exists entry. apply lookup_insert_eq.
Defined.

(* ===================================================================== *)
(** * Further properties of the code *)
(* ===================================================================== *)

(** ** Key derivation and URL normalisation *)

Lemma string_app_middle_nonempty (a b : string) : a ++ "::" ++ b ≠ "".
Proof. destruct a; discriminate. Qed.

(** X1.  The key of a record is never the empty string, and it depends on
    nothing but the download URL, the file path and the two names of the
    repository: records that agree on these four have the same key,
    whatever their other fields and extension maps hold. *)
Theorem pluginKey_nonempty_and_stable (p q : IndexedPlugin.t) :
  pluginKey p ≠ ""
  ∧ (PluginFileRef.raw_url (IndexedPlugin.file p) = PluginFileRef.raw_url (IndexedPlugin.file q) →
     PluginFileRef.path (IndexedPlugin.file p) = PluginFileRef.path (IndexedPlugin.file q) →
     (IndexedPlugin.repository p ≫= PluginRepoRef.full_name)
       = (IndexedPlugin.repository q ≫= PluginRepoRef.full_name) →
     (IndexedPlugin.repository p ≫= PluginRepoRef.name)
       = (IndexedPlugin.repository q ≫= PluginRepoRef.name) →
     pluginKey p = pluginKey q).
Proof.
  split.
  - unfold pluginKey.
    destruct (truthy (PluginFileRef.raw_url (IndexedPlugin.file p))) eqn:Hurl.
    + apply truthy_Some in Hurl as (u & -> & Hne). done.
    + apply string_app_middle_nonempty.
  - intros Hurl Hpath Hfull Hname. unfold pluginKey.
    by rewrite Hurl, Hpath, Hfull, Hname.
Qed.

(** The sample record without URL, with and without an extension map. *)
Lemma pluginKey_nonempty_and_stable_witness :
  pluginKey (withExtensionMap Sample.shortNamed) = pluginKey Sample.shortNamed.
Proof.
  apply (proj2 (pluginKey_nonempty_and_stable (withExtensionMap Sample.shortNamed)
                  Sample.shortNamed)); reflexivity.
Defined.

Lemma normalizeRawUrl_app_encoded (rest : string) :
  normalizeRawUrl ("%23" ++ rest) = "%23" ++ normalizeRawUrl rest.
Proof. reflexivity. Qed.

(** X2.  A normalised URL contains no ['#'], normalising it again changes
    nothing, and a URL without ['#'] is left as it is. *)
Theorem normalizeRawUrl_removes_hash (rawUrl : string) :
  ("#"%char ∉ list_ascii_of_string (normalizeRawUrl rawUrl))
  ∧ normalizeRawUrl (normalizeRawUrl rawUrl) = normalizeRawUrl rawUrl
  ∧ ("#"%char ∉ list_ascii_of_string rawUrl → normalizeRawUrl rawUrl = rawUrl).
Proof.
  induction rawUrl as [|c rest (IHno & IHidem & IHsame)]; simpl.
  - split; [apply not_elem_of_nil|done].
  - destruct (Ascii.eqb c "#") eqn:E.
    + apply Ascii.eqb_eq in E as ->. split; [|split].
      * simpl. rewrite !not_elem_of_cons. repeat split; try discriminate. exact IHno.
      * by rewrite normalizeRawUrl_app_encoded, IHidem.
      * intros Hno. exfalso. apply Hno. by left.
    + apply Ascii.eqb_neq in E. split; [|split].
      * simpl. rewrite not_elem_of_cons. split; [congruence | exact IHno].
      * simpl. apply Ascii.eqb_neq in E. by rewrite E, IHidem.
      * intros Hno. apply not_elem_of_cons in Hno as [_ Hno]. by rewrite IHsame.
Qed.

(** A URL with a fragment, as in the test of [headMeta]. *)
Lemma normalizeRawUrl_removes_hash_witness :
  normalizeRawUrl "https://example.com/file" = "https://example.com/file"
  ∧ normalizeRawUrl "https://example.com/file#hash" = "https://example.com/file%23hash".
Proof.
  split; [|reflexivity].
  apply (proj2 (proj2 (normalizeRawUrl_removes_hash "https://example.com/file"))).
  apply (bool_decide_unpack _). vm_compute. exact I.
Defined.

(* ===================================================================== *)
(** ** Merge engine: two catalogs *)
(* ===================================================================== *)

Lemma keyed_nil_iff (k : string) (items : list IndexedPlugin.t) :
  keyed k items = [] ↔ k ∉ pluginKey <$> items.
Proof.
  unfold keyed. induction items as [|x items IH]; simpl.
  - split; [intros _; apply not_elem_of_nil | done].
  - rewrite filter_cons, not_elem_of_cons.
    destruct (decide (pluginKey x = k)) as [Hk|Hk].
    + split; [done | intros [Hne _]; congruence].
    + rewrite IH. split; [intros H; split; [congruence | done] | tauto].
Qed.

Lemma merge_fold_get_distinct (items : list IndexedPlugin.t)
    (m : JsMap.t IndexedPlugin.t) (k : string) :
  NoDup (pluginKey <$> items) →
  JsMap.get k (fold_left mergeInto items m)
  = match last (keyed k items) with
    | Some incoming =>
        Some (match JsMap.get k m with
              | Some existing => mergePlugin existing incoming
              | None => incoming
              end)
    | None => JsMap.get k m
    end.
Proof.
  revert m. induction items as [|x items IH]; intros m Hnd; simpl; [done|].
  apply NoDup_cons in Hnd as [Hx Hnd]. rewrite (IH _ Hnd).
  unfold keyed at 2. rewrite filter_cons. fold (keyed k items).
  destruct (decide (pluginKey x = k)) as [<-|Hne].
  - apply keyed_nil_iff in Hx. rewrite Hx. simpl.
    unfold mergeInto. by rewrite JsMap_get_set_eq.
  - unfold mergeInto. by rewrite JsMap_get_set_ne.
Qed.

Lemma filter_ext_elem {A : Type} (P Q : A → Prop) `{!∀ x, Decision (P x)}
    `{!∀ x, Decision (Q x)} (l : list A) :
  (∀ x, x ∈ l → P x ↔ Q x) → filter P l = filter Q l.
Proof.
  induction l as [|x l IH]; intros Hext; [done|].
  rewrite !filter_cons.
  assert (filter P l = filter Q l) as -> by (apply IH; intros y Hy; apply Hext; by right).
  assert (P x ↔ Q x) as Hx by (apply Hext; by left).
  destruct (decide (P x)) as [HP|HP], (decide (Q x)) as [HQ|HQ]; tauto.
Qed.

Lemma merge_fold_keys_distinct (items : list IndexedPlugin.t)
    (m : JsMap.t IndexedPlugin.t) :
  NoDup (pluginKey <$> items) →
  JsMap.keys (fold_left mergeInto items m)
  = (JsMap.keys m ++ filter (λ k, k ∉ JsMap.keys m) (pluginKey <$> items))%list.
Proof.
  revert m. induction items as [|x items IH]; intros m Hnd; simpl.
  - by rewrite filter_nil, app_nil_r.
  - apply NoDup_cons in Hnd as [Hx Hnd]. rewrite (IH _ Hnd).
    unfold mergeInto. rewrite filter_cons.
    destruct (decide (pluginKey x ∈ JsMap.keys m)) as [Hin|Hnin].
    + rewrite JsMap_keys_set_present by done.
      by rewrite decide_False by (intros H; by apply H).
    + rewrite JsMap_keys_set_fresh by done.
      rewrite decide_True by done. rewrite <- app_assoc. simpl. do 2 f_equal.
      apply filter_ext_elem. intros k Hk. rewrite elem_of_app, list_elem_of_singleton.
      split; [tauto|]. intros H [? | ->]; done.
Qed.

Lemma JsMap_lookup_get {V : Type} (m : JsMap.t V) (i : nat) (k : string) (v : V) :
  NoDup (JsMap.keys m) → m !! i = Some (k, v) → JsMap.get k m = Some v.
Proof.
  revert i. induction m as [|[k' v'] m IH]; intros i Hnd Hi; [done|].
  unfold JsMap.keys in Hnd. simpl in Hnd. apply NoDup_cons in Hnd as [Hk' Hnd].
  destruct i as [|i]; simpl in *.
  - simplify_eq. by rewrite String.eqb_refl.
  - assert (k' ≠ k) as Hne.
    { intros ->. apply Hk'. apply list_elem_of_fmap. exists (k, v).
      split; [done|]. by eapply list_elem_of_lookup_2. }
    apply String.eqb_neq in Hne as ->. by eapply IH.
Qed.

Lemma JsMap_set_fresh {V : Type} (m : JsMap.t V) (k : string) (v : V) :
  k ∉ JsMap.keys m → JsMap.set k v m = (m ++ [(k, v)])%list.
Proof.
  induction m as [|[k' v'] m IH]; simpl; intros Hnin; [done|].
  unfold JsMap.keys in Hnin. simpl in Hnin.
  apply not_elem_of_cons in Hnin as [Hne Hnin].
  assert (String.eqb k' k = false) as -> by (apply String.eqb_neq; congruence).
  f_equal. by apply IH.
Qed.

Lemma JsMap_get_fresh {V : Type} (m : JsMap.t V) (k : string) :
  k ∉ JsMap.keys m → JsMap.get k m = None.
Proof.
  intros Hnin. destruct (JsMap.get k m) eqn:E; [|done].
  exfalso. apply Hnin, JsMap_get_Some_keys. by rewrite E.
Qed.

Lemma merge_fold_fresh (items : list IndexedPlugin.t) (m : JsMap.t IndexedPlugin.t) :
  NoDup (JsMap.keys m ++ (pluginKey <$> items))%list →
  fold_left mergeInto items m
  = (m ++ ((λ plugin, (pluginKey plugin, plugin)) <$> items))%list.
Proof.
  revert m. induction items as [|x items IH]; intros m Hnd; simpl.
  - by rewrite app_nil_r.
  - assert (pluginKey x ∉ JsMap.keys m) as Hfresh.
    { apply NoDup_app in Hnd as (_ & Hdisj & _). intros Hin.
      apply (Hdisj _ Hin). simpl. by left. }
    unfold mergeInto at 2. rewrite JsMap_get_fresh, JsMap_set_fresh by done.
    rewrite IH.
    + by rewrite <- app_assoc.
    + unfold JsMap.keys in *. rewrite map_app. simpl.
      rewrite <- app_assoc. exact Hnd.
Qed.

Lemma seed_keys_distinct (items : list IndexedPlugin.t) :
  NoDup (pluginKey <$> items) →
  seedFromBase items = (λ plugin, (pluginKey plugin, plugin)) <$> items.
Proof.
  intros Hnd. unfold seedFromBase. by rewrite seed_fold_distinct.
Qed.

Lemma lookup_map_fst_snd {A B : Type} (l : list (A * B)) (i : nat) (k : A) :
  map fst l !! i = Some k → ∃ v, l !! i = Some (k, v) ∧ map snd l !! i = Some v.
Proof.
  revert i. induction l as [|[a b] l IH]; intros [|i] Hi; simpl in *; try done.
  - simplify_eq. by exists b.
  - by apply IH.
Qed.

(** X3.  For every pair of catalogs, the merged index has one item per
    distinct key of the two catalogs, its [count] is the number of its
    items, and an item stands at the position of its key in the map. *)
Theorem mergeIndices_one_entry_per_key (now : string) (oxide crawled : PluginIndex.t) :
  let out := mergeIndices now oxide crawled in
  let merged := mergedMap oxide crawled in
  PluginIndex.items out = JsMap.values merged
  ∧ PluginIndex.count out = Z.of_nat (length (PluginIndex.items out))
  ∧ length (PluginIndex.items out) = length (JsMap.keys merged)
  ∧ NoDup (JsMap.keys merged)
  ∧ (∀ k, k ∈ JsMap.keys merged
          ↔ k ∈ pluginKey <$> PluginIndex.items oxide
            ∨ k ∈ pluginKey <$> PluginIndex.items crawled)
  ∧ (∀ i k, JsMap.keys merged !! i = Some k →
            PluginIndex.items out !! i = JsMap.get k merged).
Proof.
  intros out merged.
  assert (NoDup (JsMap.keys merged)) as Hnd
    by (apply merge_fold_NoDup, seed_fold_NoDup, NoDup_nil_2).
  split; [done|]. split; [done|].
  split; [apply JsMap_length_values|]. split; [done|]. split.
  - intros k. unfold merged, mergedMap, seedFromBase.
    rewrite merge_fold_keys, seed_fold_keys. unfold JsMap.empty, JsMap.keys. simpl.
    rewrite elem_of_nil. tauto.
  - intros i k Hi. simpl. fold merged. unfold JsMap.keys, JsMap.values in *.
    destruct (lookup_map_fst_snd merged i k Hi) as (v & Hm & ->).
    symmetry. by eapply JsMap_lookup_get.
Qed.

(** X4.  When neither catalog repeats a key, the keys of the merged index
    are those of the base catalog in base order, followed by the keys that
    only the enriched catalog has, in enriched order; and the record under
    a key is the merge of the base and the enriched record when both
    catalogs have the key, and otherwise the one record there is, as it
    is. *)
Theorem mergeIndices_distinct_keys (now : string) (oxide crawled : PluginIndex.t) :
  NoDup (pluginKey <$> PluginIndex.items oxide) →
  NoDup (pluginKey <$> PluginIndex.items crawled) →
  let merged := mergedMap oxide crawled in
  PluginIndex.items (mergeIndices now oxide crawled) = JsMap.values merged
  ∧ JsMap.keys merged
  = ((pluginKey <$> PluginIndex.items oxide)
       ++ filter (λ k, k ∉ pluginKey <$> PluginIndex.items oxide)
            (pluginKey <$> PluginIndex.items crawled))%list
  ∧ ∀ k, JsMap.get k merged
         = match last (keyed k (PluginIndex.items oxide)),
                 last (keyed k (PluginIndex.items crawled)) with
           | Some base, Some enriched => Some (mergePlugin base enriched)
           | Some base, None => Some base
           | None, Some enriched => Some enriched
           | None, None => None
           end.
Proof.
  intros Hoxide Hcrawled merged. split; [done|]. unfold merged, mergedMap. split.
  - rewrite merge_fold_keys_distinct by done.
    rewrite seed_keys_distinct by done.
    unfold JsMap.keys. by rewrite <- !list_fmap_compose.
  - intros k. rewrite merge_fold_get_distinct by done.
    unfold seedFromBase. rewrite seed_fold_get. simpl.
    by destruct (last (keyed k (PluginIndex.items crawled))),
                (last (keyed k (PluginIndex.items oxide))).
Qed.

(** The two catalogs of the merge test. *)
Lemma mergeIndices_distinct_keys_witness :
  JsMap.get "https://example.com/plugin.cs"
    (mergedMap (Sample.catalog [Sample.legacy]) (Sample.catalog [Sample.enhanced]))
  = Some (mergePlugin Sample.legacy Sample.enhanced).
Proof.
  destruct (mergeIndices_distinct_keys "2024-01-02T00:00:00Z"
              (Sample.catalog [Sample.legacy])
              (Sample.catalog [Sample.enhanced])) as (_ & _ & Hget).
  - apply (bool_decide_unpack _). vm_compute. exact I.
  - apply (bool_decide_unpack _). vm_compute. exact I.
  - rewrite Hget. reflexivity.
Defined.

(** X5.  Merging two catalogs that have no key in common, and repeat none,
    puts the enriched records after the base records and changes no
    record; in particular merging with an empty catalog gives the other
    catalog's items back. *)
Theorem mergeIndices_disjoint_concatenates (now : string) (oxide crawled : PluginIndex.t) :
  NoDup ((pluginKey <$> PluginIndex.items oxide)
           ++ (pluginKey <$> PluginIndex.items crawled))%list →
  PluginIndex.items (mergeIndices now oxide crawled)
  = (PluginIndex.items oxide ++ PluginIndex.items crawled)%list.
Proof.
  intros Hnd. simpl. unfold mergedMap.
  assert (NoDup (pluginKey <$> PluginIndex.items oxide)) as Hoxide
    by (by apply NoDup_app in Hnd as (? & _ & _)).
  rewrite seed_keys_distinct by done.
  rewrite merge_fold_fresh.
  - unfold JsMap.values. rewrite map_app, !map_map. simpl.
    by rewrite !map_id.
  - unfold JsMap.keys. by rewrite <- list_fmap_compose.
Qed.

(** A base catalog merged with a catalog of another record, and with an
    empty one. *)
Lemma mergeIndices_disjoint_concatenates_witness :
  PluginIndex.items
    (mergeIndices "2024-01-02T00:00:00Z" (Sample.catalog [Sample.legacy])
       (Sample.catalog [Sample.shortNamed]))
  = [Sample.legacy; Sample.shortNamed]
  ∧ PluginIndex.items
      (mergeIndices "2024-01-02T00:00:00Z" (Sample.catalog [Sample.legacy])
         (Sample.catalog []))
    = [Sample.legacy].
Proof.
  split.
  - apply (mergeIndices_disjoint_concatenates "2024-01-02T00:00:00Z"
             (Sample.catalog [Sample.legacy]) (Sample.catalog [Sample.shortNamed])).
    apply (bool_decide_unpack _). vm_compute. exact I.
  - apply (mergeIndices_disjoint_concatenates "2024-01-02T00:00:00Z"
             (Sample.catalog [Sample.legacy]) (Sample.catalog [])).
    apply (bool_decide_unpack _). vm_compute. exact I.
Defined.

(* ===================================================================== *)
(** ** Delta engine: what is dropped and what is emitted *)
(* ===================================================================== *)

Lemma same_marker_true (a b : option string) :
  same_marker a b = true ↔ ∃ s, s ≠ "" ∧ a = Some s ∧ b = Some s.
Proof.
  unfold same_marker. rewrite !andb_true_iff, bool_decide_eq_true, !truthy_Some. split.
  - intros [[(s & -> & Hs) _] <-]. by exists s.
  - intros (s & Hs & -> & ->). split; [split|]; eauto.
Qed.

Lemma same_number_true (a b : option JsNumber) :
  same_number a b = true ↔ ∃ n, a = Some (Num n) ∧ b = Some (Num n).
Proof.
  destruct a as [[|x]|], b as [[|y]|]; simpl;
    try (split; [discriminate | by intros (n & ? & ?)]).
  rewrite Z.eqb_eq. split; [intros ->; by exists y | by intros (n & [= ->] & [= ->])].
Qed.

Lemma unchanged_true (meta : DiffMetadata.t) (plugin : IndexedPlugin.t)
    (previous : CachedEntry.t) :
  unchanged meta plugin previous = true
  ↔ same_marker (DiffMetadata.etag meta) (CachedEntry.etag previous) = true
    ∨ same_marker (DiffMetadata.lastModified meta) (CachedEntry.lastModified previous) = true
    ∨ same_marker (PluginFileRef.sha (IndexedPlugin.file plugin))
                  (CachedEntry.fileSha previous) = true
    ∨ same_number (DiffMetadata.contentLength meta)
                  (Num <$> CachedEntry.fileSize previous) = true
    ∨ same_number (Num <$> PluginFileRef.size (IndexedPlugin.file plugin))
                  (Num <$> CachedEntry.fileSize previous) = true.
Proof.
  unfold unchanged.
  repeat match goal with |- context [if ?b then _ else _] => destruct b end;
    intuition discriminate.
Qed.

Section DeltaMore.
Variable head : nat → string → Completion HeadResponse.t.

(** [deltaTask] returns [null] exactly for a cached record with a reliable
    marker for which [unchanged] holds. *)
Lemma deltaTask_None (cache : gmap string CachedEntry.t) (i : nat)
    (plugin : IndexedPlugin.t) :
  deltaTask head cache i plugin = None
  ↔ ∃ previous,
      cache !! pluginKey plugin = Some previous
      ∧ (truthy (HeadMeta.etag (probe head i plugin))
         || truthy (HeadMeta.lastModified (probe head i plugin))
         || truthy (PluginFileRef.sha (IndexedPlugin.file plugin))) = true
      ∧ unchanged
          {| DiffMetadata.etag := HeadMeta.etag (probe head i plugin);
             DiffMetadata.lastModified := HeadMeta.lastModified (probe head i plugin);
             DiffMetadata.contentLength :=
               HeadMeta.contentLength (probe head i plugin)
                 ?? (Num <$> PluginFileRef.size (IndexedPlugin.file plugin));
             DiffMetadata.requiresContentHashCheck := false |}
          plugin previous = true.
Proof.
  unfold deltaTask, hasReliableMarkers. simpl.
  destruct (cache !! pluginKey plugin) as [previous|].
  - destruct (truthy _ || truthy _ || truthy _) eqn:Hrel; simpl.
    + match goal with |- context [unchanged ?m plugin previous] =>
        destruct (unchanged m plugin previous) eqn:Hun end.
      * split; [intros _; exists previous; by rewrite Hun | done].
      * split; [done | intros (p & [= <-] & _ & H); simpl in *; congruence].
    + split; [done | intros (p & _ & H & _); done].
  - split; [done | by intros (p & ? & _)].
Qed.

Lemma deltaTask_item (cache : gmap string CachedEntry.t) (i : nat)
    (plugin : IndexedPlugin.t) (item : DiffItem.t) :
  deltaTask head cache i plugin = Some item →
  DiffItem.plugin item = plugin
  ∧ DiffItem.cacheKey item = pluginKey plugin
  ∧ DiffItem.previous item = cache !! pluginKey plugin
  ∧ (DiffItem.reason item = New ↔ cache !! pluginKey plugin = None)
  ∧ DiffMetadata.etag (DiffItem.metadata item) = HeadMeta.etag (probe head i plugin)
  ∧ DiffMetadata.lastModified (DiffItem.metadata item)
    = HeadMeta.lastModified (probe head i plugin)
  ∧ (DiffMetadata.requiresContentHashCheck (DiffItem.metadata item) = true
     ↔ DiffItem.reason item = Updated
       ∧ truthy (HeadMeta.etag (probe head i plugin)) = false
       ∧ truthy (HeadMeta.lastModified (probe head i plugin)) = false
       ∧ truthy (PluginFileRef.sha (IndexedPlugin.file plugin)) = false).
Proof.
  unfold deltaTask, hasReliableMarkers. simpl.
  destruct (cache !! pluginKey plugin) as [previous|].
  - destruct (truthy (HeadMeta.etag _)) eqn:He,
             (truthy (HeadMeta.lastModified _)) eqn:Hm,
             (truthy (PluginFileRef.sha _)) eqn:Hs; simpl;
      try (destruct (unchanged _ _ _); [done|]);
      intros [= <-]; simpl; repeat split; try done; intuition discriminate.
  - intros [= <-]; simpl; repeat split; try done; intuition discriminate.
Qed.
End DeltaMore.

Lemma deltaTask_None_skipped (head : nat → string → Completion HeadResponse.t)
    (cache : gmap string CachedEntry.t) (i : nat) (plugin : IndexedPlugin.t) :
  deltaTask head cache i plugin = None ↔ skippedByDelta head cache i plugin.
Proof.
  rewrite deltaTask_None. unfold skippedByDelta, sameText, sameSize.
  split; intros (previous & Hc & Hrel & Hun); exists previous; (split; [done|]).
  - rewrite !orb_true_iff in Hrel. split; [tauto|].
    apply unchanged_true in Hun. simpl in Hun.
    rewrite !same_marker_true, !same_number_true in Hun. exact Hun.
  - rewrite !orb_true_iff. split; [tauto|].
    apply unchanged_true. simpl.
    rewrite !same_marker_true, !same_number_true. exact Hun.
Qed.

(** X6.  The delta engine drops a record exactly when the cache has an
    entry for its key, the record has a reliable marker (a non-empty
    current ETag or Last-Modified, or a non-empty source hash), and one of
    these holds: the current and the cached ETag are equal and not empty;
    the same for Last-Modified; the source hash equals the cached file
    hash and is not empty; the current content length (or, without one,
    the declared size) equals the cached file size; the declared size
    equals the cached file size.  So the delta is empty exactly when this
    holds for every record. *)
Theorem computeDelta_drops_exactly_the_unchanged
    (head : nat → string → Completion HeadResponse.t)
    (plugins : list IndexedPlugin.t) (cache : gmap string CachedEntry.t) :
  (∀ i plugin, plugins !! i = Some plugin →
     (deltaTask head cache i plugin = None ↔ skippedByDelta head cache i plugin))
  ∧ (computeDelta head plugins cache = []
     ↔ ∀ i plugin, plugins !! i = Some plugin → skippedByDelta head cache i plugin).
Proof.
  split; [intros i plugin _; apply deltaTask_None_skipped|].
  split.
  - intros Hnil i plugin Hi. apply deltaTask_None_skipped.
    destruct (deltaTask head cache i plugin) as [item|] eqn:Htask; [|done].
    assert (item ∈ computeDelta head plugins cache) as Hin
      by (apply elem_of_computeDelta; eauto).
    rewrite Hnil in Hin. by apply elem_of_nil in Hin.
  - intros Hall. apply elem_of_nil_inv. intros item Hin.
    apply elem_of_computeDelta in Hin as (i & plugin & Hi & Htask).
    apply Hall, deltaTask_None_skipped in Hi. congruence.
Qed.

(** The unchanged case of the delta test: the ETag of the probe is the
    cached one. *)
Lemma computeDelta_drops_exactly_the_unchanged_witness :
  computeDelta Sample2.taggedHead [Sample.legacy]
    {[ "https://example.com/plugin.cs" := Sample2.deliveredLegacy ]} = [].
Proof.
  apply (proj2 (computeDelta_drops_exactly_the_unchanged Sample2.taggedHead
                  [Sample.legacy]
                  {[ "https://example.com/plugin.cs" := Sample2.deliveredLegacy ]})).
  intros [|[|i]] plugin Hi; try done. simplify_eq/=.
  exists Sample2.deliveredLegacy. split; [reflexivity|]. split; [by left|].
  left. exists "etag-cache". by repeat split.
Defined.

Lemma omap_imap_plugins_sublist (f : nat → IndexedPlugin.t → option DiffItem.t)
    (l : list IndexedPlugin.t) :
  (∀ i p item, f i p = Some item → DiffItem.plugin item = p) →
  DiffItem.plugin <$> omap id (imap f l) `sublist_of` l.
Proof.
  revert f. induction l as [|x l IH]; intros f Hf; simpl; [done|].
  destruct (f 0%nat x) as [item|] eqn:Hx; simpl.
  - rewrite (Hf _ _ _ Hx). apply sublist_skip, IH.
    intros i p it. apply (Hf (S i)).
  - apply sublist_cons, IH. intros i p it. apply (Hf (S i)).
Qed.

Lemma omap_imap_plugins_all (f : nat → IndexedPlugin.t → option DiffItem.t)
    (l : list IndexedPlugin.t) :
  (∀ i p, l !! i = Some p → ∃ item, f i p = Some item ∧ DiffItem.plugin item = p) →
  DiffItem.plugin <$> omap id (imap f l) = l.
Proof.
  revert f. induction l as [|x l IH]; intros f Hf; simpl; [done|].
  destruct (Hf 0%nat x eq_refl) as (item & -> & Hp). simpl. rewrite Hp. f_equal.
  apply IH. intros i p Hi. by apply (Hf (S i)).
Qed.

(** X7.  The records of the items the delta engine emits are a
    subsequence of the input, in input order.  Each item carries the key
    of its record and, as [previous], what the cache holds for that key;
    it is classified new exactly when the cache holds nothing; and its
    [requiresContentHashCheck] is true exactly when it is classified
    updated while the probe gave no ETag and no Last-Modified and the
    record has no source hash. *)
Theorem computeDelta_items_are_coherent
    (head : nat → string → Completion HeadResponse.t)
    (plugins : list IndexedPlugin.t) (cache : gmap string CachedEntry.t) :
  DiffItem.plugin <$> computeDelta head plugins cache `sublist_of` plugins
  ∧ ∀ item, item ∈ computeDelta head plugins cache →
      DiffItem.cacheKey item = pluginKey (DiffItem.plugin item)
      ∧ DiffItem.previous item = cache !! DiffItem.cacheKey item
      ∧ (DiffItem.reason item = New ↔ cache !! DiffItem.cacheKey item = None)
      ∧ (DiffMetadata.requiresContentHashCheck (DiffItem.metadata item) = true
         ↔ DiffItem.reason item = Updated
           ∧ truthy (DiffMetadata.etag (DiffItem.metadata item)) = false
           ∧ truthy (DiffMetadata.lastModified (DiffItem.metadata item)) = false
           ∧ truthy (PluginFileRef.sha (IndexedPlugin.file (DiffItem.plugin item)))
             = false).
Proof.
  split.
  - apply omap_imap_plugins_sublist. intros i p item Htask.
    by apply deltaTask_item in Htask as (? & _).
  - intros item Hin. apply elem_of_computeDelta in Hin as (i & plugin & Hi & Htask).
    apply deltaTask_item in Htask
      as (Hp & Hkey & Hprev & Hnew & Hetag & Hmod & Hflag).
    rewrite Hkey, Hp, Hetag, Hmod. by split; [|split; [|split]].
Qed.

(** X8.  When the cache has no entry for any of the keys (so on a first
    run, with an empty cache), every record gets an item, in input order,
    classified new and without a hash check, whatever the transport
    answers. *)
Theorem computeDelta_first_run_emits_all
    (head : nat → string → Completion HeadResponse.t)
    (plugins : list IndexedPlugin.t) (cache : gmap string CachedEntry.t) :
  (∀ plugin, plugin ∈ plugins → cache !! pluginKey plugin = None) →
  DiffItem.plugin <$> computeDelta head plugins cache = plugins
  ∧ Forall (λ item, DiffItem.reason item = New
                    ∧ DiffMetadata.requiresContentHashCheck (DiffItem.metadata item)
                      = false)
           (computeDelta head plugins cache).
Proof.
  intros Hmiss. split.
  - apply omap_imap_plugins_all. intros i p Hi.
    destruct (deltaTask_new head cache i p) as (item & Htask & Hp & _).
    { apply Hmiss. by eapply list_elem_of_lookup_2. }
    by exists item.
  - apply Forall_forall. intros item Hin.
    apply elem_of_computeDelta in Hin as (i & p & Hi & Htask).
    destruct (deltaTask_new head cache i p) as (item' & Htask' & _ & Hr & _ & _ & Hflag).
    { apply Hmiss. by eapply list_elem_of_lookup_2. }
    by simplify_eq.
Qed.

(** Two records against an empty cache, over a failing transport. *)
Lemma computeDelta_first_run_emits_all_witness :
  DiffItem.plugin <$> computeDelta Sample.failingHead [Sample.legacy; Sample.shortNamed] ∅
  = [Sample.legacy; Sample.shortNamed].
Proof.
  apply (computeDelta_first_run_emits_all Sample.failingHead
           [Sample.legacy; Sample.shortNamed] ∅).
  intros plugin _. apply lookup_empty.
Defined.

(* ===================================================================== *)
(** ** State cache: upsert, atomic save, reset *)
(* ===================================================================== *)

(** X9.  [set] is an upsert that touches nothing but the instance: after
    it, [get] of the entry's key returns the entry (so the last [set] for a
    key wins), [get] of any other key returns what it returned before, and
    the disk is as it was. *)
Theorem set_then_get {Net : Type} (w : World.t Net) (entry : CachedEntry.t) :
  ∃ w',
    set entry w = (Returns tt, w')
    ∧ get (CachedEntry.key entry) w' = (Returns (Some entry), w')
    ∧ (∀ key, key ≠ CachedEntry.key entry → fst (get key w') = fst (get key w))
    ∧ World.disk w' = World.disk w
    ∧ StateFile.version (World.state w') = StateFile.version (World.state w)
    ∧ StateFile.updatedAt (World.state w') = StateFile.updatedAt (World.state w).
Proof.
  eexists. split; [apply set_spec|]. unfold get, gets. simpl.
  split; [by rewrite lookup_insert_eq|].
  split; [|done]. intros key Hne. by rewrite lookup_insert_ne.
Qed.

(** Two entries set under one key, and a look at another key. *)
Lemma set_then_get_witness :
  ∃ w1 w2,
    set Sample.deliveredShortNamed Sample.emptyWorld = (Returns tt, w1)
    ∧ set Sample2.deliveredLegacy w1 = (Returns tt, w2)
    ∧ fst (get "rust-kits::Kits.cs" w2) = Returns (Some Sample.deliveredShortNamed).
Proof.
  destruct (set_then_get Sample.emptyWorld Sample.deliveredShortNamed)
    as (w1 & Hset1 & Hget1 & _).
  destruct (set_then_get w1 Sample2.deliveredLegacy) as (w2 & Hset2 & _ & Hother & _).
  exists w1, w2. split; [exact Hset1|]. split; [exact Hset2|].
  rewrite (Hother "rust-kits::Kits.cs"); [|discriminate].
  change "rust-kits::Kits.cs" with (CachedEntry.key Sample.deliveredShortNamed).
  by rewrite Hget1.
Defined.

(** X10.  [save] returns, and afterwards the canonical path holds the
    JSON of the state the instance now has, the temporary path holds
    nothing, and every other path holds what it held.  The state keeps its
    entries and version, and its [updatedAt] is the time of the call. *)
Theorem save_replaces_the_state_file {Net : Type} (w : World.t Net) :
  ∃ w',
    save w = (Returns tt, w')
    ∧ World.disk w' !! STATE_PATH = Some (JsonText (stateToJson (World.state w')))
    ∧ World.disk w' !! (STATE_PATH ++ ".tmp") = None
    ∧ (∀ path, path ≠ STATE_PATH → path ≠ STATE_PATH ++ ".tmp" →
         World.disk w' !! path = World.disk w !! path)
    ∧ StateFile.entries (World.state w') = StateFile.entries (World.state w)
    ∧ StateFile.version (World.state w') = StateFile.version (World.state w)
    ∧ StateFile.updatedAt (World.state w') = World.clock w (World.ticks w).
Proof.
  eexists. split; [apply save_spec|]. cbn -[stateToJson STATE_PATH].
  split; [apply lookup_insert_eq|].
  split.
  { rewrite lookup_insert_ne by discriminate. apply lookup_delete_eq. }
  split; [|done].
  intros path H1 H2.
  rewrite lookup_insert_ne, lookup_delete_ne, lookup_insert_ne by done. done.
Qed.

(** A save over a disk that holds another file. *)
Lemma save_replaces_the_state_file_witness :
  ∃ w',
    save (World.with_disk {[ "README.md" := Unreadable "text" ]} Sample.emptyWorld)
      = (Returns tt, w')
    ∧ World.disk w' !! "README.md" = Some (Unreadable "text").
Proof.
  destruct (save_replaces_the_state_file
              (World.with_disk {[ "README.md" := Unreadable "text" ]} Sample.emptyWorld))
    as (w' & Hsave & _ & _ & Hother & _).
  exists w'. split; [exact Hsave|].
  rewrite Hother; [reflexivity | discriminate | discriminate].
Defined.

(** X11.  [resetAction] returns whatever the disk holds, also a file that
    cannot be read; afterwards the cache is empty, the state file holds the
    empty snapshot of the configured version, and [stateAction] in a new
    process reports a count of 0. *)
Theorem resetAction_empties_the_cache {Net : Type} (w : World.t Net) :
  ∃ w',
    resetAction (freshInstance w) = (Returns tt, w')
    ∧ StateFile.entries (World.state w') = ∅
    ∧ StateFile.version (World.state w') = STATE_VERSION
    ∧ World.disk w' !! STATE_PATH = Some (JsonText (stateToJson (World.state w')))
    ∧ ∃ w'', stateAction (freshInstance w')
             = (Returns (0, StateFile.updatedAt (World.state w')), w'').
Proof.
  unfold resetAction, stateAction, clear, set_state, modify.
  unfold mbind, js_bind. rewrite load_spec. cbv beta iota.
  rewrite save_spec. cbn -[stateToJson STATE_PATH].
  eexists. split; [reflexivity|]. cbn -[stateToJson STATE_PATH].
  split; [done|]. split; [done|].
  split; [apply lookup_insert_eq|].
  rewrite load_spec. cbn -[stateToJson STATE_PATH asStateFile].
  rewrite lookup_insert_eq, stateToJson_version. cbn -[stateToJson STATE_PATH asStateFile].
  rewrite asStateFile_stateToJson. eexists. reflexivity.
Qed.

(** [stats] and [entries] change nothing, and the count [stats]
    reports is the number of entries [entries] returns, which are the
    values the cache holds. *)
Lemma stats_counts_entries {Net : Type} (w : World.t Net) :
  ∃ count es,
    stats w = (Returns (count, StateFile.updatedAt (World.state w)), w)
    ∧ entries w = (Returns es, w)
    ∧ count = Z.of_nat (length es)
    ∧ ∀ entry, entry ∈ es ↔ ∃ key, StateFile.entries (World.state w) !! key = Some entry.
Proof.
  eexists _, _. split; [reflexivity|]. split; [reflexivity|]. split.
  - by rewrite length_fmap, length_map_to_list.
  - intros entry. rewrite list_elem_of_fmap. split.
    + intros ([k e] & -> & Hin). exists k. by apply elem_of_map_to_list.
    + intros (k & Hk). exists (k, entry). split; [done|]. by apply elem_of_map_to_list.
Qed.

(* ===================================================================== *)
(** ** Strings *)
(* ===================================================================== *)

Lemma length_substring_le (n : nat) (s : string) :
  (String.length (substring 0 n s) ≤ n)%nat.
Proof.
  revert s. induction n as [|n IH]; intros [|c s]; simpl; try lia.
  specialize (IH s). lia.
Qed.

Lemma length_append (a b : string) :
  String.length (a ++ b) = (String.length a + String.length b)%nat.
Proof. induction a as [|c a IH]; simpl; [done | by rewrite IH]. Qed.

Lemma toLowerCase_app (a b : string) :
  toLowerCase (a ++ b) = toLowerCase a ++ toLowerCase b.
Proof. induction a as [|c a IH]; simpl; [done | by rewrite IH]. Qed.

Lemma substring_whole (s : string) : substring 0 (String.length s) s = s.
Proof. induction s as [|c s IH]; simpl; [done | by rewrite IH]. Qed.

Lemma substring_app_right (a b : string) :
  substring (String.length a) (String.length b) (a ++ b) = b.
Proof. induction a as [|c a IH]; simpl; [apply substring_whole | exact IH]. Qed.

Lemma endsWith_app (s suffix : string) : endsWith (s ++ suffix) suffix = true.
Proof.
  unfold endsWith. rewrite length_append.
  replace (String.length s + String.length suffix - String.length suffix)%nat
    with (String.length s) by lia.
  rewrite substring_app_right, String.eqb_refl, andb_true_r.
  apply Nat.leb_le. lia.
Qed.

Lemma lower_ascii_idemp (c : ascii) : lower_ascii (lower_ascii c) = lower_ascii c.
Proof.
  destruct c as [[] [] [] [] [] [] [] []]; reflexivity.
Qed.

Lemma toLowerCase_idemp (s : string) : toLowerCase (toLowerCase s) = toLowerCase s.
Proof. induction s as [|c s IH]; simpl; [done | by rewrite lower_ascii_idemp, IH]. Qed.

(* ===================================================================== *)
(** ** Webhook sender: requests *)
(* ===================================================================== *)

(** X12.  The name the pipeline gives an attachment always ends in [.cs],
    in any letter case, and an attachment under that name whose size is
    within the limit is accepted by the sender's own check
    [attachmentAllowed], with or without the [.cs]-only flag. *)
Theorem attachmentNameOf_has_cs_extension (config : Config.t)
    (plugin : IndexedPlugin.t) (buffer : list Byte.byte) :
  endsWith (toLowerCase (attachmentNameOf plugin)) ".cs" = true
  ∧ (within (byteLength buffer) (Config.MAX_ATTACHMENT_BYTES config) = true →
     attachmentAllowed config plugin
       (AttachmentPayload.mk (attachmentNameOf plugin) buffer) = true).
Proof.
  assert (endsWith (toLowerCase (attachmentNameOf plugin)) ".cs" = true) as Hcs.
  { unfold attachmentNameOf.
    match goal with |- context [if endsWith (toLowerCase ?c) ".cs" then _ else _] =>
      destruct (endsWith (toLowerCase c) ".cs") eqn:E; [exact E|] end.
    rewrite toLowerCase_app. apply endsWith_app. }
  split; [exact Hcs|].
  intros Hin. unfold attachmentAllowed. simpl.
  destruct (Config.MAX_ATTACHMENT_BYTES config) as [|limit]; [done|].
  simpl in *. apply Z.leb_le in Hin.
  assert (Z.ltb limit (byteLength buffer) = false) as -> by (apply Z.ltb_ge; lia).
  rewrite Hcs. by destruct (Config.ONLY_CS_ATTACHMENTS config).
Qed.

(** The attachment of a record whose path has an upper-case extension. *)
Lemma attachmentNameOf_has_cs_extension_witness :
  attachmentAllowed Sample.config Sample.alpha
    (AttachmentPayload.mk (attachmentNameOf Sample.alpha) []) = true.
Proof.
  apply (proj2 (attachmentNameOf_has_cs_extension Sample.config Sample.alpha [])).
  reflexivity.
Defined.

Section WebhookMore.
Context {Net : Type}.
Variable config : Config.t.
Variable sanitize : string → string.
Variable post : string → WebhookBody → Net → Completion unit * Net.
Implicit Types (w : World.t Net).

(** Every post of the retry loop carries the one request body of the call
    and has the outcome the sink gave for it. *)
Lemma attempts_posts (plugin : IndexedPlugin.t) (embed : DiscordEmbed.t)
    (attachment : option AttachmentPayload.t) (sanitizedName : option string)
    (remaining attempt : nat) w :
  ∃ result w' evs,
    attempts config post plugin embed attachment sanitizedName remaining attempt w
      = (result, w')
    ∧ World.timeline w' = (World.timeline w ++ evs)%list
    ∧ Forall (λ ev, match ev with
                    | Posted _ body outcome =>
                        body = requestBody config plugin embed attachment sanitizedName
                        ∧ ∃ n, fst (post (Config.WEBHOOK_URL config) body n) = outcome
                    | Slept _ => True
                    end) evs.
Proof.
  revert attempt w. induction remaining as [|remaining IH]; intros attempt w.
  - eexists _, w, []. rewrite app_nil_r. by repeat split.
  - cbn [attempts]. unfold mbind, js_bind, try_catch, httpPost, mret, js_ret.
    destruct (post (Config.WEBHOOK_URL config)
                (requestBody config plugin embed attachment sanitizedName)
                (World.net w)) as [[[]|e] n] eqn:Hpost.
    + eexists _, _, [_]. split; [reflexivity|]. simpl. split; [done|].
      repeat constructor. exists (World.net w). by rewrite Hpost.
    + assert (∃ n0, fst (post (Config.WEBHOOK_URL config)
                           (requestBody config plugin embed attachment sanitizedName) n0)
                    = Throws e) as Hfrom
        by (exists (World.net w); by rewrite Hpost).
      destruct (Z.eqb _ 429).
      * unfold sleep, modify. simpl.
        edestruct (IH (S attempt)) as (result & w' & evs & -> & Htl & Hall).
        eexists result, w', (_ :: _ :: evs). split; [reflexivity|].
        simpl in *. rewrite Htl, <- !app_assoc. simpl.
        split; [done|]. by repeat constructor.
      * destruct (Z.leb 500 _ && Z.ltb _ 600).
        -- unfold sleep, modify. simpl.
           edestruct (IH (S attempt)) as (result & w' & evs & -> & Htl & Hall).
           eexists result, w', (_ :: _ :: evs). split; [reflexivity|].
           simpl in *. rewrite Htl, <- !app_assoc. simpl.
           split; [done|]. by repeat constructor.
        -- unfold throw. eexists _, _, [_]. split; [reflexivity|]. simpl.
           split; [done|]. by repeat constructor.
Qed.

Lemma requestBody_form (plugin : IndexedPlugin.t) (embed : DiscordEmbed.t)
    (attachment : option AttachmentPayload.t)
    (embeds : list DiscordEmbed.t) (filename contentType : string)
    (file : list Byte.byte) :
  requestBody config plugin embed attachment (sanitize <$> (AttachmentPayload.name <$> attachment))
    = FormBody embeds filename contentType file →
  ∃ a, attachment = Some a
       ∧ file = AttachmentPayload.buffer a
       ∧ filename = sanitize (AttachmentPayload.name a)
       ∧ filename ≠ ""
       ∧ contentType = "text/plain"
       ∧ embeds = [embed]
       ∧ attachmentAllowed config plugin a = true.
Proof.
  unfold requestBody. destruct attachment as [a|]; [|done]. simpl.
  destruct (negb (String.eqb (sanitize (AttachmentPayload.name a)) "")) eqn:Hname; [|done].
  destruct (attachmentAllowed config plugin a) eqn:Hallowed; [|done].
  simpl. intros [= <- <- <- <-]. exists a. repeat split; try done.
  apply negb_true_iff, String.eqb_neq in Hname. done.
Qed.

Lemma sendPluginWebhook_posts (plugin : IndexedPlugin.t)
    (attachment : option AttachmentPayload.t) w :
  ∃ result w' evs embed,
    sendPluginWebhook config sanitize post plugin attachment w = (result, w')
    ∧ buildEmbed plugin w = (Returns embed, World.tick w)
    ∧ World.timeline w' = (World.timeline w ++ evs)%list
    ∧ (Config.WEBHOOK_URL config = "" → evs = [] ∧ World.net w' = World.net w)
    ∧ Forall (λ ev, match ev with
                    | Posted _ body outcome =>
                        body = requestBody config plugin embed attachment
                                 (sanitize <$> (AttachmentPayload.name <$> attachment))
                        ∧ ∃ n, fst (post (Config.WEBHOOK_URL config) body n) = outcome
                    | Slept _ => True
                    end) evs.
Proof.
  unfold sendPluginWebhook, sendPluginWebhook_body.
  destruct (String.eqb (Config.WEBHOOK_URL config) "") eqn:Hurl.
  - unfold throw. eexists _, _, [], _. split; [reflexivity|].
    split; [reflexivity|]. simpl. rewrite app_nil_r. by repeat split.
  - apply String.eqb_neq in Hurl.
    unfold buildEmbed, now, mbind, js_bind, mret, js_ret.
    match goal with
    | |- context [attempts config post plugin ?embed attachment ?name ?r ?a ?w0] =>
        destruct (attempts_posts plugin embed attachment name r a w0)
          as (result & w' & evs & -> & Htl & Hall);
        exists result, (World.called (WebhookCall.mk plugin attachment result) w'), evs, embed
    end.
    split; [reflexivity|]. split; [reflexivity|]. simpl in *.
    split; [done|]. split; [done|]. exact Hall.
Qed.

Lemma attachmentAllowed_true (plugin : IndexedPlugin.t) (a : AttachmentPayload.t) :
  attachmentAllowed config plugin a = true
  ↔ exceeds (byteLength (AttachmentPayload.buffer a)) (Config.MAX_ATTACHMENT_BYTES config)
    = false
    ∧ (Config.ONLY_CS_ATTACHMENTS config = true →
       endsWith (toLowerCase (AttachmentPayload.name a)) ".cs" = true).
Proof.
  unfold attachmentAllowed.
  destruct (exceeds _ _); [by split; [|intros [? _]]|].
  destruct (Config.ONLY_CS_ATTACHMENTS config); simpl.
  - destruct (endsWith _ _); simpl; [by split|].
    split; [done | intros [_ H]; by specialize (H eq_refl)].
  - by split.
Qed.
End WebhookMore.

(** X13.  All posts of one call of [sendPluginWebhook] carry the same
    body, and each has the outcome the sink gave.  The body carries a file
    only if an attachment was passed, its sanitised name is not empty, its
    size does not exceed the limit and, under the [.cs]-only flag, its name
    ends in [.cs]; the file is then the attachment's buffer, named by the
    sanitised name, of type [text/plain].  Either body carries exactly one
    embed. *)
Theorem sendPluginWebhook_posts_one_body {Net : Type} (config : Config.t)
    (sanitize : string → string)
    (post : string → WebhookBody → Net → Completion unit * Net)
    (plugin : IndexedPlugin.t) (attachment : option AttachmentPayload.t)
    (w : World.t Net) :
  ∃ result w' evs body,
    sendPluginWebhook config sanitize post plugin attachment w = (result, w')
    ∧ World.timeline w' = (World.timeline w ++ evs)%list
    ∧ (∀ k i posted outcome,
         evs !! k = Some (Posted i posted outcome) →
         posted = body
         ∧ ∃ n, fst (post (Config.WEBHOOK_URL config) body n) = outcome)
    ∧ (∀ embeds filename contentType file,
         body = FormBody embeds filename contentType file →
         ∃ a, attachment = Some a
              ∧ file = AttachmentPayload.buffer a
              ∧ filename = sanitize (AttachmentPayload.name a)
              ∧ filename ≠ ""
              ∧ contentType = "text/plain"
              ∧ length embeds = 1%nat
              ∧ exceeds (byteLength file) (Config.MAX_ATTACHMENT_BYTES config) = false
              ∧ (Config.ONLY_CS_ATTACHMENTS config = true →
                 endsWith (toLowerCase (AttachmentPayload.name a)) ".cs" = true))
    ∧ (∀ embeds, body = JsonBody embeds → length embeds = 1%nat).
Proof.
  destruct (sendPluginWebhook_posts config sanitize post plugin attachment w)
    as (result & w' & evs & embed & Hsend & _ & Htl & _ & Hall).
  exists result, w', evs,
    (requestBody config plugin embed attachment
       (sanitize <$> (AttachmentPayload.name <$> attachment))).
  split; [done|]. split; [done|]. split; [|split].
  - intros k i posted outcome Hk.
    rewrite Forall_forall in Hall.
    destruct (Hall _ (list_elem_of_lookup_2 _ _ _ Hk)) as [-> Hn]. by split.
  - intros embeds filename contentType file Hbody.
    apply requestBody_form in Hbody as (a & -> & -> & -> & Hne & -> & -> & Hallowed).
    apply attachmentAllowed_true in Hallowed as [Hsize Hcs].
    exists a. by repeat split.
  - unfold requestBody. intros embeds.
    destruct attachment as [a|]; [destruct (_ && _)|]; by intros [= <-].
Qed.

(** A call with a small [.cs] attachment sends the form. *)
Lemma sendPluginWebhook_posts_one_body_witness :
  ∃ w' embeds,
    sendPluginWebhook Sample.config id Sample.onceOnlySink Sample.alpha
      (Some (AttachmentPayload.mk "alpha.cs" [])) Sample.quietWorld = (Returns tt, w')
    ∧ World.timeline w'
      = [Posted 0 (FormBody embeds "alpha.cs" "text/plain" []) (Returns tt)].
Proof.
  destruct (sendPluginWebhook_posts_one_body Sample.config id Sample.onceOnlySink
              Sample.alpha (Some (AttachmentPayload.mk "alpha.cs" [])) Sample.quietWorld)
    as (result & w' & evs & body & Hsend & Htl & Hposts & Hform & _).
  vm_compute in Hsend. injection Hsend as <- <-. simpl in Htl. subst evs.
  destruct (Hposts 0%nat _ _ _ eq_refl) as [<- _].
  destruct (Hform _ _ _ _ eq_refl) as (a & _ & _ & _ & _ & _ & Hlen & _).
  eexists _, _. split; [reflexivity|]. reflexivity.
Defined.

(** Without a webhook URL in the configuration the call throws
    before it attempts anything: no post is made, no wait, and the network
    is as it was. *)
Lemma sendPluginWebhook_requires_url {Net : Type} (config : Config.t)
    (sanitize : string → string)
    (post : string → WebhookBody → Net → Completion unit * Net)
    (plugin : IndexedPlugin.t) (attachment : option AttachmentPayload.t)
    (w : World.t Net) :
  Config.WEBHOOK_URL config = "" →
  ∃ w',
    sendPluginWebhook config sanitize post plugin attachment w
      = (Throws (Error "DISCORD_WEBHOOK_URL must be configured."), w')
    ∧ World.timeline w' = World.timeline w
    ∧ World.net w' = World.net w
    ∧ World.ticks w' = World.ticks w
    ∧ World.state w' = World.state w
    ∧ World.disk w' = World.disk w.
Proof.
  intros Hurl. unfold sendPluginWebhook, sendPluginWebhook_body.
  rewrite Hurl. simpl. unfold throw. eexists. split; [reflexivity|]. by repeat split.
Qed.

(** A call under a configuration without URL. *)
Lemma sendPluginWebhook_requires_url_witness :
  ∃ w',
    sendPluginWebhook (Config.mk "" (Num 1024) true) id Sample.onceOnlySink Sample.alpha None
      Sample.quietWorld
      = (Throws (Error "DISCORD_WEBHOOK_URL must be configured."), w')
    ∧ World.timeline w' = [].
Proof.
  destruct (sendPluginWebhook_requires_url (Config.mk "" (Num 1024) true) id
              Sample.onceOnlySink Sample.alpha None Sample.quietWorld eq_refl)
    as (w' & Hsend & Htl & _).
  exists w'. split; [exact Hsend | exact Htl].
Defined.

Lemma retryTimeline_all_server_errors (attempt : nat) (evs : list WebhookEvent)
    (result : Completion unit) :
  retryTimeline attempt evs result →
  Forall (λ ev, match ev with
                | Posted _ _ outcome => ∃ e, outcome = Throws e ∧ serverError e
                | Slept _ => True
                end) evs →
  result = Throws (Error "Failed to deliver webhook after retries.")
  ∧ attemptsOf evs = seq attempt (MAX_WEBHOOK_ATTEMPTS - attempt)
  ∧ waitsOf evs
    = (λ i, 500 * (Z.of_nat i + 1)) <$> seq attempt (MAX_WEBHOOK_ATTEMPTS - attempt)
  ∧ length evs = (2 * (MAX_WEBHOOK_ATTEMPTS - attempt))%nat.
Proof.
  induction 1 as [ | a body Hlt | a body e0 Hlt Hn429 Hn5xx
                 | a body e0 evs r Hlt He Hrt IH
                 | a body e0 evs r Hlt He Hrt IH ]; intros Hall.
  - rewrite Nat.sub_diag. by repeat split.
  - apply Forall_cons in Hall as [(e & ? & _) _]. done.
  - apply Forall_cons in Hall as [(e & [= <-] & He) _]. done.
  - apply Forall_cons in Hall as [(e & [= <-] & He') _].
    by destruct (rateLimited_not_serverError e0).
  - apply Forall_cons in Hall as [_ Hall]. apply Forall_cons in Hall as [_ Hall].
    destruct (IH Hall) as (-> & Hposts & Hwaits & Hlen).
    replace (MAX_WEBHOOK_ATTEMPTS - a)%nat with (S (MAX_WEBHOOK_ATTEMPTS - S a)) by lia.
    change (attemptsOf (Posted a body (Throws e0) :: Slept (serverErrorDelay a) :: evs))
      with (a :: attemptsOf evs).
    change (waitsOf (Posted a body (Throws e0) :: Slept (serverErrorDelay a) :: evs))
      with (serverErrorDelay a :: waitsOf evs).
    rewrite Hposts, Hwaits. split; [done|]. split; [done|]. split; [done|].
    cbn [length]. rewrite Hlen. lia.
Qed.

(** X14.  When the URL is configured and the sink answers every post with
    a 5xx status, the call makes exactly five posts, waits 500, 1000, 1500,
    2000 and 2500 ms after them, the last wait included, and then throws
    the error "Failed to deliver webhook after retries.", which carries no
    response. *)
Theorem sendPluginWebhook_gives_up_after_five {Net : Type} (config : Config.t)
    (sanitize : string → string)
    (post : string → WebhookBody → Net → Completion unit * Net)
    (plugin : IndexedPlugin.t) (attachment : option AttachmentPayload.t)
    (w : World.t Net) :
  Config.WEBHOOK_URL config ≠ "" →
  (∀ body n, ∃ e, fst (post (Config.WEBHOOK_URL config) body n) = Throws e
                  ∧ serverError e) →
  ∃ w' evs,
    sendPluginWebhook config sanitize post plugin attachment w
      = (Throws (Error "Failed to deliver webhook after retries."), w')
    ∧ World.timeline w' = (World.timeline w ++ evs)%list
    ∧ attemptsOf evs = [0; 1; 2; 3; 4]%nat
    ∧ waitsOf evs = [500; 1000; 1500; 2000; 2500]
    ∧ length evs = 10%nat.
Proof.
  intros Hurl Hdown.
  destruct (sendPluginWebhook_spec config sanitize post plugin attachment w)
    as (result & w' & evs & Hsend & Htl & _ & _ & _ & _ & Hshape).
  destruct (sendPluginWebhook_posts config sanitize post plugin attachment w)
    as (result' & w'' & evs' & embed & Hsend' & _ & Htl' & _ & Hall).
  rewrite Hsend in Hsend'. injection Hsend' as <- <-.
  rewrite Htl in Htl'. apply app_inv_head in Htl' as <-.
  destruct Hshape as [Hrt | (Hnone & _)]; [|done].
  destruct (retryTimeline_all_server_errors 0 evs result Hrt)
    as (-> & Hposts & Hwaits & Hlen).
  { eapply Forall_impl; [exact Hall|]. intros [i body outcome|d]; [|done].
    intros [_ [n <-]]. apply Hdown. }
  exists w', evs. split; [done|]. split; [done|]. split; [exact Hposts|].
  split; [exact Hwaits|].
  exact Hlen.
Qed.

(** A call against a sink that always answers 503. *)
Lemma sendPluginWebhook_gives_up_after_five_witness :
  ∃ w',
    sendPluginWebhook Sample.config id Sample2.downSink Sample.alpha None Sample.quietWorld
      = (Throws (Error "Failed to deliver webhook after retries."), w')
    ∧ World.net w' = 5%nat.
Proof.
  destruct (sendPluginWebhook_gives_up_after_five Sample.config id Sample2.downSink
              Sample.alpha None Sample.quietWorld)
    as (w' & evs & Hsend & _).
  - discriminate.
  - intros body n. exists (Sample.httpError 503 None). split; [reflexivity|].
    exists (AxiosResponse.mk 503 None None). split; [reflexivity|]. simpl. lia.
  - exists w'. split; [exact Hsend|].
    vm_compute in Hsend. by injection Hsend as <-.
Defined.

Lemma utf16_length_slice_from (s : string) (units tail : nat) :
  (utf16_length_from tail (slice_from units tail s) ≤ units)%nat.
Proof.
  revert units tail. induction s as [|c rest IH]; intros units tail; simpl; [lia|].
  destruct tail as [|tail]; [|apply IH].
  destruct (Nat.leb (utf16_units c) units) eqn:Hfits.
  - apply Nat.leb_le in Hfits. simpl.
    specialize (IH (units - utf16_units c)%nat (utf8_tail c)). lia.
  - destruct (Nat.eqb units 1) eqn:Hone; [|simpl; lia].
    apply Nat.eqb_eq in Hone as ->. unfold high_surrogate.
    cbn [utf16_length_from]. change (ascii_of_nat (Z.to_nat 237)) with "237"%char.
    change (utf16_units "237") with 1%nat. change (utf8_tail "237") with 2%nat.
    cbn [utf16_length_from]. lia.
Qed.

Lemma slice_from_whole (s : string) (units tail : nat) :
  (utf16_length_from tail s ≤ units)%nat → slice_from units tail s = s.
Proof.
  revert units tail. induction s as [|c rest IH]; intros units tail; simpl; [done|].
  destruct tail as [|tail].
  - intros Hle.
    assert (Nat.leb (utf16_units c) units = true) as -> by (apply Nat.leb_le; lia).
    f_equal. apply IH. lia.
  - intros Hle. f_equal. by apply IH.
Qed.

Lemma slice_ascii (s : string) (units : nat) :
  Forall (λ c, (nat_of_ascii c < 128)%nat) (list_ascii_of_string s) →
  slice units s = substring 0 units s.
Proof.
  unfold slice. revert units. induction s as [|c rest IH]; intros units Hascii.
  - by destruct units.
  - simpl in Hascii. apply Forall_cons in Hascii as [Hc Hascii].
    assert (utf16_units c = 1%nat) as Hunits.
    { unfold utf16_units. by destruct (Nat.ltb_spec (nat_of_ascii c) 240); [|lia]. }
    assert (utf8_tail c = 0%nat) as Htail.
    { unfold utf8_tail. by destruct (Nat.ltb_spec (nat_of_ascii c) 192); [|lia]. }
    cbn [slice_from]. rewrite Hunits, Htail.
    destruct units as [|units]; [done|].
    cbn [Nat.leb substring]. f_equal.
    replace (S units - 1)%nat with units by lia. by apply IH.
Qed.

(** X15.  The embed built for a record has a description of at most 500
    UTF-16 code units, at most five fields, the colour 0x00ADFF and the
    time of the call as its timestamp; building it reads the clock once
    and changes nothing else.  The description is the text of the record
    cut after 500 code units: a text of at most 500 code units is kept
    whole, however many bytes it has, and a text of ASCII characters is
    cut after 500 characters; a record without description gets the
    standard text. *)
Theorem buildEmbed_respects_limits {Net : Type} (plugin : IndexedPlugin.t)
    (w : World.t Net) :
  ∃ embed,
    buildEmbed plugin w = (Returns embed, World.tick w)
    ∧ (utf16_length (DiscordEmbed.description embed) ≤ 500)%nat
    ∧ (length (DiscordEmbed.fields embed) ≤ 5)%nat
    ∧ DiscordEmbed.color embed = 0x00adff
    ∧ DiscordEmbed.timestamp embed = World.clock w (World.ticks w)
    ∧ (∀ description, IndexedPlugin.plugin_description plugin = Some description →
         DiscordEmbed.description embed = slice 500 description
         ∧ ((utf16_length description ≤ 500)%nat →
            DiscordEmbed.description embed = description)
         ∧ (Forall (λ c, (nat_of_ascii c < 128)%nat) (list_ascii_of_string description) →
            DiscordEmbed.description embed = substring 0 500 description))
    ∧ (IndexedPlugin.plugin_description plugin = None →
       DiscordEmbed.description embed = "New or updated plugin detected.").
Proof.
  eexists. split; [reflexivity|]. cbn [DiscordEmbed.description DiscordEmbed.fields
    DiscordEmbed.color DiscordEmbed.timestamp].
  split; [|split; [|split; [done|split; [done|split]]]].
  - destruct (IndexedPlugin.plugin_description plugin) as [d|]; cbn [fmap option_fmap option_map default].
    + apply utf16_length_slice_from.
    + vm_compute. lia.
  - rewrite !length_app.
    repeat match goal with |- context [if ?b then _ else _] => destruct b end;
      simpl; lia.
  - intros description ->. cbn [fmap option_fmap option_map default].
    split; [done|]. split.
    + intros Hle. by apply slice_from_whole.
    + apply slice_ascii.
  - by intros ->.
Qed.

(** A description of 300 Cyrillic letters, which are 600 bytes, is kept
    whole. *)
Lemma buildEmbed_respects_limits_witness :
  ∃ embed,
    buildEmbed Sample2.described Sample.emptyWorld
      = (Returns embed, World.tick Sample.emptyWorld)
    ∧ (utf16_length (DiscordEmbed.description embed) ≤ 500)%nat
    ∧ String.length (DiscordEmbed.description embed) = 600%nat
    ∧ Some (DiscordEmbed.description embed)
      = IndexedPlugin.plugin_description Sample2.described.
Proof.
  destruct (buildEmbed_respects_limits Sample2.described Sample.emptyWorld)
    as (embed & Hbuild & Hlimit & _ & _ & _ & Hdescription & _).
  exists embed. split; [exact Hbuild|]. split; [exact Hlimit|].
  destruct (Hdescription _ eq_refl) as (_ & Hwhole & _).
  rewrite Hwhole; [split; reflexivity|]. vm_compute. lia.
Defined.

(* ===================================================================== *)
(** ** Sequential delivery: runs over any list *)
(* ===================================================================== *)

Lemma elem_of_deliveredKeys (calls : list WebhookCall.t) (k : string) :
  k ∈ deliveredKeys calls
  ↔ ∃ call, call ∈ calls ∧ pluginKey (WebhookCall.plugin call) = k
            ∧ WebhookCall.result call = Returns tt.
Proof.
  unfold deliveredKeys. rewrite list_elem_of_omap. split.
  - intros (call & Hin & Hk). exists call. split; [done|].
    destruct (WebhookCall.result call) as [[]|]; by simplify_eq.
  - intros (call & Hin & <- & Hr). exists call. split; [done|]. by rewrite Hr.
Qed.

Lemma is_pending_false (keys : gset string) (plugin : IndexedPlugin.t) :
  is_pending keys plugin = false →
  truthy (PluginFileRef.raw_url (IndexedPlugin.file plugin)) = true →
  pluginKey plugin ∈ keys.
Proof.
  unfold is_pending. intros H Hurl. rewrite Hurl in H.
  by apply negb_false_iff, bool_decide_eq_true in H.
Qed.

Section CliMore.
Context {Net : Type}.
Variable config : Config.t.
Variable sanitize : string → string.
Variable post : string → WebhookBody → Net → Completion unit * Net.
Variable getBinary : string → Net → Completion (list Byte.byte) * Net.
Variable sha256 : list Byte.byte → string.
Implicit Types (w : World.t Net) (vars : LoopVars.t) (plugin : IndexedPlugin.t).

(** The attachment a pending record is sent with. *)
Lemma uploadOne_attachment vars plugin w :
  is_pending (LoopVars.processedKeys vars) plugin = true →
  ∃ vars' w' attachment result,
    uploadOne config sanitize post getBinary sha256 vars plugin w = (Returns vars', w')
    ∧ World.webhookCalls w'
      = (World.webhookCalls w ++ [WebhookCall.mk plugin attachment result])%list
    ∧ pipelineAttachment config plugin attachment.
Proof.
  intros Hpending. apply is_pending_true in Hpending as [Hurl Hkey].
  unfold uploadOne. cbv zeta. rewrite Hurl. cbn -[pluginKey].
  rewrite bool_decide_eq_false_2 by done. cbn -[pluginKey].
  match goal with
  | |- ∃ _ _ _ _, (?m ≫= _) w = _ ∧ _ => set (download := m)
  end.
  assert (∃ buffer hash n,
            download w = (Returns (buffer, hash), World.with_net n w)
            ∧ (is_Some buffer → Config.ONLY_CS_ATTACHMENTS config = true →
               endsWith (toLowerCase
                           (default "" (PluginFileRef.raw_url (IndexedPlugin.file plugin))))
                        ".cs" = true))
    as (buffer & hash & n & Hdl & Hcs).
  { unfold download.
    destruct (Config.ONLY_CS_ATTACHMENTS config) eqn:Hflag; simpl.
    - destruct (endsWith _ _) eqn:Hends.
      + unfold try_catch, getFile, mbind, js_bind, mret, js_ret.
        destruct (getBinary _ _) as [[buf|e] n]; eexists _, _, _; (split; [reflexivity|done]).
      + exists None, None, (World.net w). split; [by destruct w|]. by intros [? ?].
    - unfold try_catch, getFile, mbind, js_bind, mret, js_ret.
      destruct (getBinary _ _) as [[buf|e] n]; eexists _, _, _; (split; [reflexivity|done]). }
  clearbody download.
  unfold mbind at 1. unfold js_bind at 1. rewrite Hdl.
  unfold try_catch. unfold mbind at 1. unfold js_bind at 1.
  match goal with
  | |- context [sendPluginWebhook config sanitize post plugin ?att ?w1] =>
      destruct (sendPluginWebhook_spec config sanitize post plugin att w1)
        as (result & w2 & evs & Hsend & _ & _ & _ & _ & Hcalls & _);
      rewrite Hsend;
      assert (pipelineAttachment config plugin att) as Hatt
  end.
  { destruct buffer as [buf|]; [|done]. simpl.
    destruct (within _ _) eqn:Hin; [|done]. simpl.
    split; [done|]. split; [done|]. by apply Hcs. }
  simpl in Hcalls.
  destruct result as [[]|e].
  - unfold mbind, js_bind, now. rewrite set_spec, save_spec.
    cbn -[pluginKey stateToJson].
    eexists _, _, _, (Returns tt). split; [reflexivity|]. by split.
  - unfold mret, js_ret.
    eexists _, _, _, (Throws e). split; [reflexivity|]. by split.
Qed.

(** The loop over [plugins], from any loop variables and any world. *)
Lemma upload_loop_spec (plugins : list IndexedPlugin.t) vars w :
  ∃ vars' w' calls,
    for_of plugins (uploadOne config sanitize post getBinary sha256) vars w
      = (Returns vars', w')
    ∧ World.webhookCalls w' = (World.webhookCalls w ++ calls)%list
    ∧ WebhookCall.plugin <$> calls `sublist_of` plugins
    ∧ Forall (λ call,
                truthy (PluginFileRef.raw_url (IndexedPlugin.file (WebhookCall.plugin call)))
                = true
                ∧ (pluginKey (WebhookCall.plugin call) ∉ LoopVars.processedKeys vars)
                ∧ pipelineAttachment config (WebhookCall.plugin call)
                    (WebhookCall.attachment call)) calls
    ∧ NoDup (deliveredKeys calls)
    ∧ LoopVars.processedKeys vars'
      = list_to_set (deliveredKeys calls) ∪ LoopVars.processedKeys vars
    ∧ LoopVars.uploaded vars'
      = LoopVars.uploaded vars + Z.of_nat (length (deliveredKeys calls))
    ∧ (∀ k, k ∈ deliveredKeys calls →
         ∃ entry, StateFile.entries (World.state w') !! k = Some entry
                  ∧ CachedEntry.key entry = k)
    ∧ (∀ k, k ∉ deliveredKeys calls →
         StateFile.entries (World.state w') !! k = StateFile.entries (World.state w) !! k)
    ∧ StateFile.version (World.state w') = StateFile.version (World.state w)
    ∧ (deliveredKeys calls = [] →
         World.state w' = World.state w ∧ World.disk w' = World.disk w)
    ∧ (deliveredKeys calls ≠ [] → synced w')
    ∧ (∀ plugin, plugin ∈ plugins →
         truthy (PluginFileRef.raw_url (IndexedPlugin.file plugin)) = true →
         pluginKey plugin ∈ LoopVars.processedKeys vars
         ∨ pluginKey plugin ∈ (pluginKey ∘ WebhookCall.plugin) <$> calls).
Proof.
  revert vars w. induction plugins as [|x plugins IH]; intros vars w.
  - exists vars, w, []. simpl. rewrite app_nil_r.
    split; [done|]. split; [done|]. split; [done|]. split; [done|].
    split; [apply NoDup_nil_2|].
    split; [by rewrite (left_id_L ∅ (∪))|]. split; [lia|].
    split; [by intros k ?%elem_of_nil|]. split; [done|]. split; [done|].
    split; [done|]. split; [done|]. by intros p ?%elem_of_nil.
  - cbn [for_of]. unfold mbind at 1. unfold js_bind at 1.
    destruct (uploadOne_spec config sanitize post getBinary sha256 vars x w)
      as (vars1 & w1 & Hup & Hcase).
    rewrite Hup.
    destruct (IH vars1 w1)
      as (vars' & w' & calls & Hrun & Hcalls & Hsub & Hall & Hnd & Hkeys & Hcount
          & Hdelivered & Hother & Hversion & Hnone & Hsome & Hcover).
    rewrite Hrun.
    destruct Hcase as [(Hskip & -> & ->) | (Hpend & attachment & result & Hcalls1 & Hcase)].
    + (* the record is passed over *)
      exists vars', w', calls. split; [done|]. split; [done|].
      split; [by apply sublist_cons|]. split; [done|]. split; [done|].
      split; [done|]. split; [done|]. split; [done|]. split; [done|].
      split; [done|]. split; [done|]. split; [done|].
      intros p Hp Hurl. apply elem_of_cons in Hp as [->|Hp]; [|by apply Hcover].
      left. by apply is_pending_false.
    + (* the record is sent *)
      destruct (uploadOne_attachment vars x w Hpend)
        as (vars1' & w1' & attachment' & result' & Hup' & Hcalls1' & Hatt).
      rewrite Hup in Hup'. injection Hup' as <- <-.
      rewrite Hcalls1 in Hcalls1'. apply app_inv_head in Hcalls1'.
      injection Hcalls1' as <- <-.
      apply is_pending_true in Hpend as [Hurl Hfresh].
      exists vars', w', (WebhookCall.mk x attachment result :: calls).
      split; [done|].
      split; [by rewrite Hcalls, Hcalls1, <- app_assoc|].
      split; [by apply sublist_skip|].
      destruct result as [[]|e].
      * (* the send returned *)
        destruct Hcase as (entry & Hkey & _ & Hentries & Hversion1 & Hdisk1 & Hup1 & Hkeys1).
        assert (pluginKey x ∉ deliveredKeys calls) as Hnotlater.
        { intros Hin. apply elem_of_deliveredKeys in Hin as (call & Hin & Hk & _).
          rewrite Forall_forall in Hall. destruct (Hall call Hin) as (_ & Hnot & _).
          apply Hnot. rewrite Hkeys1, Hk. by apply elem_of_union_l, elem_of_singleton. }
        change (deliveredKeys (WebhookCall.mk x attachment (Returns tt) :: calls))
          with (pluginKey x :: deliveredKeys calls).
        split.
        { constructor; [by split; [|split]|].
          eapply Forall_impl; [exact Hall|]. intros call (? & Hnot & ?).
          split; [done|]. split; [|done].
          intros Hin. apply Hnot. rewrite Hkeys1. by apply elem_of_union_r. }
        split; [by constructor|].
        split.
        { rewrite Hkeys, Hkeys1. apply set_eq. intros k.
          rewrite !elem_of_union, !elem_of_list_to_set, elem_of_cons, elem_of_singleton.
          tauto. }
        split; [rewrite Hcount, Hup1; simpl; lia|].
        split.
        { intros k Hk. apply elem_of_cons in Hk as [->|Hk]; [|by apply Hdelivered].
          exists entry. split; [|done].
          by rewrite Hother, Hentries, lookup_insert_eq. }
        split.
        { intros k Hk. apply not_elem_of_cons in Hk as [Hne Hk].
          by rewrite Hother, Hentries, lookup_insert_ne. }
        split; [congruence|]. split; [done|]. split.
        { intros _. destruct (deliveredKeys calls) eqn:Hd.
          - destruct (Hnone eq_refl) as [Hs Hd']. unfold synced. by rewrite Hs, Hd'.
          - by apply Hsome. }
        intros p Hp Hurlp. apply elem_of_cons in Hp as [->|Hp].
        -- right. simpl. by left.
        -- destruct (Hcover p Hp Hurlp) as [Hin|Hin]; [|right; simpl; by right].
           rewrite Hkeys1 in Hin. apply elem_of_union in Hin as [Hin|Hin]; [|by left].
           apply elem_of_singleton in Hin. right. simpl. rewrite Hin. by left.
      * (* the send threw *)
        destruct Hcase as (Hstate1 & Hdisk1 & Hup1 & Hkeys1).
        change (deliveredKeys (WebhookCall.mk x attachment (Throws e) :: calls))
          with (deliveredKeys calls).
        split.
        { constructor; [by split; [|split]|].
          eapply Forall_impl; [exact Hall|]. intros call (? & Hnot & ?).
          split; [done|]. split; [|done]. by rewrite <- Hkeys1. }
        split; [done|]. split; [by rewrite Hkeys, Hkeys1|].
        split; [by rewrite Hcount, Hup1|].
        split; [done|]. split; [by intros k Hk; rewrite Hother, Hstate1|].
        split; [congruence|].
        split; [intros Hd; destruct (Hnone Hd) as [-> ->]; by split|].
        split; [done|].
        intros p Hp Hurlp. apply elem_of_cons in Hp as [->|Hp]; [right; simpl; by left|].
        destruct (Hcover p Hp Hurlp) as [Hin|Hin]; [|right; simpl; by right].
        left. by rewrite <- Hkeys1.
Qed.

Lemma pendingOf_nil (keys : gset string) (plugins : list IndexedPlugin.t) :
  pendingOf keys plugins = [] ↔ ∀ plugin, plugin ∈ plugins → is_pending keys plugin = false.
Proof.
  unfold pendingOf. induction plugins as [|x plugins IH].
  - split; [by intros _ p ?%elem_of_nil | done].
  - rewrite filter_cons. destruct (decide (is_pending keys x = true)) as [Hx|Hx].
    + split; [done|]. intros H. specialize (H x (list_elem_of_here _ _)). congruence.
    + rewrite IH. split.
      * intros H p Hp. apply elem_of_cons in Hp as [->|Hp]; [|by apply H].
        by destruct (is_pending keys x).
      * intros H p Hp. apply H. by right.
Qed.

(** A run of the pipeline over any list, from any world. *)
Lemma processAll_spec (plugins : list IndexedPlugin.t) w :
  let keys0 := keysOf ((map_to_list (StateFile.entries (World.state w))).*2) in
  ∃ w' calls,
    processAllPluginsSequentially config sanitize post getBinary sha256 plugins w
      = (Returns tt, w')
    ∧ World.webhookCalls w' = (World.webhookCalls w ++ calls)%list
    ∧ WebhookCall.plugin <$> calls `sublist_of` plugins
    ∧ Forall (λ call,
                truthy (PluginFileRef.raw_url (IndexedPlugin.file (WebhookCall.plugin call)))
                = true
                ∧ (pluginKey (WebhookCall.plugin call) ∉ keys0)
                ∧ pipelineAttachment config (WebhookCall.plugin call)
                    (WebhookCall.attachment call)) calls
    ∧ NoDup (deliveredKeys calls)
    ∧ (∀ k, k ∈ deliveredKeys calls →
         ∃ entry, StateFile.entries (World.state w') !! k = Some entry
                  ∧ CachedEntry.key entry = k)
    ∧ (∀ k, k ∉ deliveredKeys calls →
         StateFile.entries (World.state w') !! k = StateFile.entries (World.state w) !! k)
    ∧ StateFile.version (World.state w') = StateFile.version (World.state w)
    ∧ synced w'
    ∧ (∀ plugin, plugin ∈ plugins →
         truthy (PluginFileRef.raw_url (IndexedPlugin.file plugin)) = true →
         pluginKey plugin ∈ keys0
         ∨ pluginKey plugin ∈ (pluginKey ∘ WebhookCall.plugin) <$> calls)
    ∧ (pendingOf keys0 plugins = [] →
         processAllPluginsSequentially config sanitize post getBinary sha256 plugins w
         = save w).
Proof.
  intros keys0.
  unfold processAllPluginsSequentially, entries, gets.
  unfold mbind at 1 3. unfold js_bind at 1 3. cbv beta iota. fold keys0.
  destruct (Nat.eqb (length (pendingOf keys0 plugins)) 0) eqn:Hlen.
  - apply Nat.eqb_eq, nil_length_inv in Hlen.
    rewrite save_spec. eexists _, []. split; [reflexivity|].
    cbn -[stateToJson STATE_PATH]. rewrite app_nil_r.
    split; [done|]. split; [apply sublist_nil_l|]. split; [done|].
    split; [apply NoDup_nil_2|]. split; [by intros k ?%elem_of_nil|].
    split; [done|]. split; [done|].
    split; [unfold synced; cbn -[stateToJson STATE_PATH]; apply lookup_insert_eq|].
    split; [|done].
    intros p Hp Hurl. left. apply is_pending_false; [|done].
    by apply (proj1 (pendingOf_nil keys0 plugins) Hlen).
  - match goal with
    | |- context [for_of plugins _ ?vars0] =>
        destruct (upload_loop_spec plugins vars0 w)
          as (vars' & w1 & calls & Hrun & Hcalls & Hsub & Hall & Hnd & _ & Hcount
              & Hdelivered & Hother & Hversion & Hnone & Hsome & Hcover)
    end.
    unfold mbind, js_bind. rewrite Hrun.
    cbn [LoopVars.uploaded LoopVars.processedKeys] in *.
    assert (pendingOf keys0 plugins ≠ []) as Hpending.
    { intros Heq. rewrite Heq in Hlen. done. }
    destruct (Z.eqb (LoopVars.uploaded vars') 0) eqn:Hup.
    + apply Z.eqb_eq in Hup.
      assert (deliveredKeys calls = []) as Hd by (apply nil_length_inv; lia).
      destruct (Hnone Hd) as [Hstate Hdisk].
      rewrite save_spec. eexists _, calls. split; [reflexivity|].
      cbn -[stateToJson STATE_PATH].
      split; [done|]. split; [done|]. split; [done|]. split; [done|].
      split; [by rewrite Hd; intros k ?%elem_of_nil|].
      split; [by intros k _; rewrite Hstate|].
      split; [by rewrite Hstate|].
      split; [unfold synced; cbn -[stateToJson STATE_PATH]; apply lookup_insert_eq|].
      split; [done|]. done.
    + apply Z.eqb_neq in Hup.
      assert (deliveredKeys calls ≠ []) as Hd by (intros Hd; rewrite Hd in Hcount; simpl in *; lia).
      exists w1, calls. split; [reflexivity|].
      split; [done|]. split; [done|]. split; [done|]. split; [done|].
      split; [done|]. split; [done|]. split; [done|]. split; [by apply Hsome|].
      split; [done|]. done.
Qed.
End CliMore.

Lemma sublist_into_filter {A : Type} (P : A → Prop) `{!∀ x, Decision (P x)}
    (l k : list A) :
  l `sublist_of` k → Forall P l → l `sublist_of` filter P k.
Proof.
  induction 1 as [|x l k Hs IH|x l k Hs IH]; intros HF.
  - apply sublist_nil_l.
  - apply Forall_cons in HF as [Hx HF]. rewrite filter_cons_True by done.
    apply sublist_skip. by apply IH.
  - rewrite filter_cons. destruct (decide (P x)); [apply sublist_cons|]; by apply IH.
Qed.

Section Pipeline.
Context {Net : Type}.
Variable config : Config.t.
Variable sanitize : string → string.
Variable post : string → WebhookBody → Net → Completion unit * Net.
Variable getBinary : string → Net → Completion (list Byte.byte) * Net.
Variable sha256 : list Byte.byte → string.
Implicit Types (w : World.t Net) (plugin : IndexedPlugin.t).

#[local] Abbreviation run := (processAllPluginsSequentially config sanitize post getBinary sha256).

(** A key cached before a run is a processed key after it, when every
    entry sat under its own key. *)
Lemma processed_key_kept w w' (calls : list WebhookCall.t) (k : string) :
  wellKeyed (StateFile.entries (World.state w)) →
  (∀ k, k ∈ deliveredKeys calls →
     ∃ entry, StateFile.entries (World.state w') !! k = Some entry
              ∧ CachedEntry.key entry = k) →
  (∀ k, k ∉ deliveredKeys calls →
     StateFile.entries (World.state w') !! k = StateFile.entries (World.state w) !! k) →
  k ∈ keysOf ((map_to_list (StateFile.entries (World.state w))).*2)
  ∨ k ∈ deliveredKeys calls →
  k ∈ keysOf ((map_to_list (StateFile.entries (World.state w'))).*2).
Proof.
  intros Hkeyed Hdelivered Hother Hk.
  destruct (decide (k ∈ deliveredKeys calls)) as [Hin|Hout].
  - destruct (Hdelivered k Hin) as (entry & Hentry & <-). by eapply keysOf_lookup.
  - destruct Hk as [Hk|Hk]; [|done].
    unfold keysOf in Hk.
    apply elem_of_list_to_set, list_elem_of_fmap in Hk as (entry & -> & Hentry).
    apply list_elem_of_fmap in Hentry as ([k' entry'] & -> & Hin).
    apply elem_of_map_to_list in Hin. simpl.
    pose proof (Hkeyed _ _ Hin) as Hkey. simpl in Hkey.
    apply (keysOf_lookup _ entry' k'). rewrite Hother; [done|]. by rewrite <- Hkey.
Qed.

(** X16.  A run of [processAllPluginsSequentially] over any list of records
    returns normally, whatever the sink and the downloads do; when it
    ends, the state file on disk holds the JSON of the state of the
    instance, and the version of the state is the one it started with. *)
Theorem processAll_returns_with_the_state_saved (plugins : list IndexedPlugin.t) w :
  ∃ w',
    run plugins w = (Returns tt, w')
    ∧ World.disk w' !! STATE_PATH = Some (JsonText (stateToJson (World.state w')))
    ∧ StateFile.version (World.state w') = StateFile.version (World.state w).
Proof.
  destruct (processAll_spec config sanitize post getBinary sha256 plugins w)
    as (w' & calls & Hrun & _ & _ & _ & _ & _ & _ & Hversion & Hsynced & _).
  exists w'. by repeat split.
Qed.

(** X17.  The sender is called only for records that were pending when the
    run started (a truthy [raw_url] and a key that was not cached), in the
    order of the list and at most once per position; an attachment it is
    given carries the name derived from the record, is within the size
    limit, and is given for a [.cs] URL only when only [.cs] attachments
    are allowed; and no key has two sends that return. *)
Theorem processAll_sends_pending_records_in_order (plugins : list IndexedPlugin.t) w :
  ∃ w' calls,
    run plugins w = (Returns tt, w')
    ∧ World.webhookCalls w' = (World.webhookCalls w ++ calls)%list
    ∧ WebhookCall.plugin <$> calls `sublist_of` pendingIn w plugins
    ∧ Forall (λ call, pipelineAttachment config (WebhookCall.plugin call)
                        (WebhookCall.attachment call)) calls
    ∧ NoDup (deliveredKeys calls).
Proof.
  destruct (processAll_spec config sanitize post getBinary sha256 plugins w)
    as (w' & calls & Hrun & Hcalls & Hsub & Hall & Hnd & _).
  exists w', calls. split; [done|]. split; [done|].
  split; [|split; [|done]].
  - unfold pendingIn, pendingOf. apply sublist_into_filter; [done|].
    apply Forall_fmap. eapply Forall_impl; [exact Hall|].
    intros call (Hurl & Hkey & _). simpl. by apply is_pending_true.
  - eapply Forall_impl; [exact Hall|]. by intros call (_ & _ & ?).
Qed.

(** X18.  What a run does to the cache: a key whose send returned ends with
    an entry that carries that key; under every other key the cache is
    what it was, so a send that throws records nothing and no entry is
    ever dropped; and a cache whose entries sit under their own keys stays
    so. *)
Theorem processAll_records_exactly_the_delivered (plugins : list IndexedPlugin.t) w :
  ∃ w' calls,
    run plugins w = (Returns tt, w')
    ∧ World.webhookCalls w' = (World.webhookCalls w ++ calls)%list
    ∧ (∀ k, k ∈ deliveredKeys calls →
         ∃ entry, StateFile.entries (World.state w') !! k = Some entry
                  ∧ CachedEntry.key entry = k)
    ∧ (∀ k, k ∉ deliveredKeys calls →
         StateFile.entries (World.state w') !! k = StateFile.entries (World.state w) !! k)
    ∧ (∀ k, is_Some (StateFile.entries (World.state w) !! k) →
         is_Some (StateFile.entries (World.state w') !! k))
    ∧ (wellKeyed (StateFile.entries (World.state w)) →
       wellKeyed (StateFile.entries (World.state w'))).
Proof.
  destruct (processAll_spec config sanitize post getBinary sha256 plugins w)
    as (w' & calls & Hrun & Hcalls & _ & _ & _ & Hdelivered & Hother & _).
  exists w', calls. split; [done|]. split; [done|]. split; [done|]. split; [done|].
  split.
  - intros k Hk. destruct (decide (k ∈ deliveredKeys calls)) as [Hin|Hout].
    + destruct (Hdelivered k Hin) as (entry & -> & _). by eexists.
    + by rewrite Hother.
  - intros Hkeyed k entry Hentry.
    destruct (decide (k ∈ deliveredKeys calls)) as [Hin|Hout].
    + destruct (Hdelivered k Hin) as (entry' & Hentry' & Hkey). congruence.
    + rewrite Hother in Hentry by done. by eapply Hkeyed.
Qed.

Lemma wellKeyed_empty : wellKeyed (∅ : gmap string CachedEntry.t).
Proof. intros key entry H. by rewrite lookup_empty in H. Qed.

(** X19.  When no record of the list is pending, a run sends nothing and
    touches neither the network nor the entries: it saves the state, which
    refreshes [updatedAt] to the time of the save, and returns. *)
Theorem processAll_nothing_pending (plugins : list IndexedPlugin.t) w :
  pendingIn w plugins = [] →
  ∃ w',
    run plugins w = (Returns tt, w')
    ∧ World.webhookCalls w' = World.webhookCalls w
    ∧ World.timeline w' = World.timeline w
    ∧ World.net w' = World.net w
    ∧ StateFile.entries (World.state w') = StateFile.entries (World.state w)
    ∧ StateFile.updatedAt (World.state w') = World.clock w (World.ticks w)
    ∧ synced w'.
Proof.
  intros Hpending.
  destruct (processAll_spec config sanitize post getBinary sha256 plugins w)
    as (w' & calls & _ & _ & _ & _ & _ & _ & _ & _ & _ & _ & Hsave).
  rewrite (Hsave Hpending), save_spec. eexists. split; [reflexivity|].
  cbn -[stateToJson STATE_PATH]. repeat split.
  unfold synced. cbn -[stateToJson STATE_PATH]. apply lookup_insert_eq.
Qed.

(** X20.  After a run from a cache whose entries sit under their own keys,
    a record of the list is still pending only if a send for its key
    threw during the run; so when every send returned, nothing of the
    list is pending any more. *)
Theorem processAll_leaves_only_failed_sends_pending (plugins : list IndexedPlugin.t) w :
  wellKeyed (StateFile.entries (World.state w)) →
  ∃ w' calls,
    run plugins w = (Returns tt, w')
    ∧ World.webhookCalls w' = (World.webhookCalls w ++ calls)%list
    ∧ (∀ plugin, plugin ∈ pendingIn w' plugins →
         ∃ call error, call ∈ calls
                       ∧ pluginKey (WebhookCall.plugin call) = pluginKey plugin
                       ∧ WebhookCall.result call = Throws error)
    ∧ (Forall (λ call, WebhookCall.result call = Returns tt) calls →
       pendingIn w' plugins = []).
Proof.
  intros Hkeyed.
  destruct (processAll_spec config sanitize post getBinary sha256 plugins w)
    as (w' & calls & Hrun & Hcalls & _ & _ & _ & Hdelivered & Hother & _ & _ & Hcover & _).
  exists w', calls. split; [done|]. split; [done|].
  assert (∀ plugin, plugin ∈ pendingIn w' plugins →
            ∃ call error, call ∈ calls
                          ∧ pluginKey (WebhookCall.plugin call) = pluginKey plugin
                          ∧ WebhookCall.result call = Throws error) as Hfailed.
  { intros plugin Hp. unfold pendingIn, pendingOf in Hp.
    apply list_elem_of_filter in Hp as [Hp Hin].
    apply is_pending_true in Hp as [Hurl Hkey].
    assert (pluginKey plugin ∉ deliveredKeys calls) as Hnot.
    { intros Hd. apply Hkey.
      eapply (processed_key_kept w w' calls); eauto. }
    destruct (Hcover plugin Hin Hurl) as [Hold|Hcalled].
    - exfalso. apply Hkey. eapply (processed_key_kept w w' calls); eauto.
    - apply list_elem_of_fmap in Hcalled as (call & Hk & Hcall). simpl in Hk.
      destruct (WebhookCall.result call) as [[]|error] eqn:Hresult.
      + exfalso. apply Hnot. apply elem_of_deliveredKeys. by exists call.
      + by exists call, error. }
  split; [done|].
  intros Hall. destruct (pendingIn w' plugins) as [|plugin rest] eqn:Hrest; [done|].
  destruct (Hfailed plugin (list_elem_of_here _ _)) as (call & error & Hcall & _ & Hresult).
  rewrite Forall_forall in Hall. specialize (Hall call Hcall). congruence.
Qed.

End Pipeline.

Lemma processAll_nothing_pending_witness :
  ∃ w',
    processAllPluginsSequentially Sample.config id Sample2.acceptingSink Sample.noDownload
      (λ _, "") [Sample.alpha] Sample2.resumedWorld = (Returns tt, w')
    ∧ World.webhookCalls w' = World.webhookCalls Sample2.resumedWorld
    ∧ World.timeline w' = World.timeline Sample2.resumedWorld
    ∧ World.net w' = World.net Sample2.resumedWorld
    ∧ StateFile.entries (World.state w') = StateFile.entries (World.state Sample2.resumedWorld)
    ∧ StateFile.updatedAt (World.state w')
      = World.clock Sample2.resumedWorld (World.ticks Sample2.resumedWorld)
    ∧ synced w'.
Proof.
  apply (processAll_nothing_pending Sample.config id Sample2.acceptingSink
           Sample.noDownload (λ _, "") [Sample.alpha] Sample2.resumedWorld).
  vm_compute. reflexivity.
Defined.

Lemma processAll_leaves_only_failed_sends_pending_witness :
  ∃ w' calls,
    processAllPluginsSequentially Sample.config id Sample.onceOnlySink Sample.noDownload
      (λ _, "") [Sample.alpha; Sample.beta] Sample.quietWorld = (Returns tt, w')
    ∧ World.webhookCalls w' = (World.webhookCalls Sample.quietWorld ++ calls)%list
    ∧ (∀ plugin, plugin ∈ pendingIn w' [Sample.alpha; Sample.beta] →
         ∃ call error, call ∈ calls
                       ∧ pluginKey (WebhookCall.plugin call) = pluginKey plugin
                       ∧ WebhookCall.result call = Throws error)
    ∧ (Forall (λ call, WebhookCall.result call = Returns tt) calls →
       pendingIn w' [Sample.alpha; Sample.beta] = []).
Proof.
  apply (processAll_leaves_only_failed_sends_pending Sample.config id Sample.onceOnlySink
           Sample.noDownload (λ _, "") [Sample.alpha; Sample.beta] Sample.quietWorld).
  exact wellKeyed_empty.
Defined.


(* ===================================================================== *)
(** ** Deleted repositories and the list a run works on *)
(* ===================================================================== *)

Lemma survives_false (lowerCase : string → string)
    (deleted : DeletedRepositoriesList.t) (plugin : IndexedPlugin.t) :
  survives lowerCase
    (list_to_set (lowerCase <$> DeletedRepositoriesList.repositories deleted)) plugin
  = false
  ↔ bannedBy lowerCase deleted plugin.
Proof.
  unfold survives, bannedBy. split.
  - destruct (IndexedPlugin.repository plugin) as [repository|]; [|done]. simpl.
    destruct (PluginRepoRef.full_name repository) as [full_name|] eqn:Hname; [|done].
    destruct (truthy (Some full_name)) eqn:Htruthy; [|done].
    intros Hin. apply negb_false_iff, bool_decide_eq_true in Hin. simpl in Hin.
    apply elem_of_list_to_set, list_elem_of_fmap in Hin as (entry & Heq & Hentry).
    exists repository, full_name, entry.
    split; [done|]. split; [done|]. split; [by intros ->|]. by split.
  - intros (repository & full_name & entry & -> & Hname & Hne & Hentry & Heq). simpl.
    rewrite Hname.
    assert (truthy (Some full_name) = true) as -> by (by destruct full_name).
    apply negb_false_iff, bool_decide_eq_true. simpl.
    apply elem_of_list_to_set, list_elem_of_fmap. by exists entry.
Qed.

Lemma filter_twice {A : Type} (P : A → Prop) `{!∀ x, Decision (P x)} (l : list A) :
  filter P (filter P l) = filter P l.
Proof.
  induction l as [|x l IH]; [done|].
  rewrite filter_cons. destruct (decide (P x)); [|done].
  rewrite filter_cons_True by done. by rewrite IH.
Qed.

(** X22.  [filterDeleted] returns the list as it is when there is no list
    of deleted repositories.  With one, it keeps, in their order, exactly
    the records that are not banned: a record is banned when its
    repository has a non-empty [full_name] whose lower-cased form is the
    lower-cased form of an entry of the list, for the lower-casing of the
    language, whatever letters it folds; a record without repository or
    without [full_name] is always kept.  Filtering twice is filtering
    once. *)
Theorem filterDeleted_drops_exactly_the_banned (lowerCase : string → string)
    (items : list IndexedPlugin.t) (deleted : option DeletedRepositoriesList.t) :
  filterDeleted lowerCase items None = items
  ∧ filterDeleted lowerCase items deleted `sublist_of` items
  ∧ (∀ list plugin,
       deleted = Some list →
       plugin ∈ filterDeleted lowerCase items deleted
       ↔ plugin ∈ items ∧ ¬ bannedBy lowerCase list plugin)
  ∧ (∀ plugin,
       plugin ∈ items →
       IndexedPlugin.repository plugin ≫= PluginRepoRef.full_name = None →
       plugin ∈ filterDeleted lowerCase items deleted)
  ∧ filterDeleted lowerCase (filterDeleted lowerCase items deleted) deleted
    = filterDeleted lowerCase items deleted.
Proof.
  split; [done|]. split; [|split; [|split]].
  - destruct deleted as [list|]; [apply sublist_filter | done].
  - intros list plugin ->. unfold filterDeleted. rewrite list_elem_of_filter.
    rewrite <- survives_false.
    destruct (survives lowerCase _ plugin); split; intros [? ?]; by split.
  - intros plugin Hin Hnone. destruct deleted as [list|]; [|done].
    unfold filterDeleted. apply list_elem_of_filter. split; [|done].
    unfold survives. by rewrite Hnone.
  - destruct deleted as [list|]; [|done]. apply filter_twice.
Qed.

(** With a lower-casing that folds the ASCII letters, on ASCII names. *)
Lemma filterDeleted_drops_exactly_the_banned_witness :
  filterDeleted toLowerCase [Sample.alpha; Sample.beta] (Some Sample2.deletedBeta)
  = [Sample.alpha]
  ∧ (Sample.alpha
       ∈ filterDeleted toLowerCase [Sample.alpha; Sample.beta] (Some Sample2.deletedBeta)
     ↔ Sample.alpha ∈ [Sample.alpha; Sample.beta]
       ∧ ¬ bannedBy toLowerCase Sample2.deletedBeta Sample.alpha).
Proof.
  split; [reflexivity|].
  exact (proj1 (proj2 (proj2 (filterDeleted_drops_exactly_the_banned toLowerCase
                                [Sample.alpha; Sample.beta] (Some Sample2.deletedBeta))))
           Sample2.deletedBeta Sample.alpha eq_refl).
Defined.

Lemma sublist_covering_eq {A B : Type} (f : A → B) (l k : list A) :
  l `sublist_of` k →
  NoDup (f <$> k) →
  (∀ x, x ∈ k → f x ∈ f <$> l) →
  l = k.
Proof.
  induction 1 as [|x l k Hs IH|x l k Hs IH]; intros Hnd Hcover.
  - done.
  - rewrite fmap_cons in Hnd. apply NoDup_cons in Hnd as [Hx Hnd].
    f_equal. apply IH; [done|]. intros y Hy.
    specialize (Hcover y (list_elem_of_further _ _ _ Hy)).
    rewrite fmap_cons in Hcover. apply elem_of_cons in Hcover as [Heq|?]; [|done].
    exfalso. apply Hx. rewrite <- Heq. apply list_elem_of_fmap. by exists y.
  - rewrite fmap_cons in Hnd. apply NoDup_cons in Hnd as [Hx Hnd].
    exfalso. apply Hx.
    specialize (Hcover x (list_elem_of_here _ _)).
    apply list_elem_of_fmap in Hcover as (y & -> & Hy).
    apply list_elem_of_fmap. exists y. split; [done|].
    by eapply elem_of_sublist.
Qed.

Lemma JsMap_set_selfKeyed (m : JsMap.t IndexedPlugin.t) (k : string) (v : IndexedPlugin.t) :
  selfKeyed m → pluginKey v = k → selfKeyed (JsMap.set k v m).
Proof.
  unfold selfKeyed. intros Hm Hv. induction m as [|[k' v'] m IH]; simpl.
  - by repeat constructor.
  - apply Forall_cons in Hm as [Hk' Hm]. destruct (String.eqb k' k) eqn:E.
    + apply String.eqb_eq in E as ->. by constructor.
    + constructor; [done|]. by apply IH.
Qed.

Lemma selfKeyed_keys (m : JsMap.t IndexedPlugin.t) :
  selfKeyed m → pluginKey <$> JsMap.values m = JsMap.keys m.
Proof.
  unfold selfKeyed, JsMap.values, JsMap.keys. induction 1 as [|[k v] m Hk Hm IH]; [done|].
  simpl in *. by rewrite Hk, <- IH.
Qed.

Lemma seed_fold_selfKeyed (items : list IndexedPlugin.t) (m : JsMap.t IndexedPlugin.t) :
  selfKeyed m →
  selfKeyed (fold_left (λ merged plugin, JsMap.set (pluginKey plugin) plugin merged) items m).
Proof.
  revert m. induction items as [|x items IH]; intros m Hm; [done|].
  simpl. apply IH. by apply JsMap_set_selfKeyed.
Qed.

Lemma pluginKey_mergePlugin (existing incoming : IndexedPlugin.t) :
  truthy (PluginFileRef.raw_url (IndexedPlugin.file incoming)) = true →
  pluginKey (mergePlugin existing incoming) = pluginKey incoming.
Proof.
  intros Hurl. unfold pluginKey, mergePlugin. simpl. by rewrite !Hurl.
Qed.

Lemma merge_fold_selfKeyed (items : list IndexedPlugin.t) (m : JsMap.t IndexedPlugin.t) :
  Forall (λ plugin, truthy (PluginFileRef.raw_url (IndexedPlugin.file plugin)) = true) items →
  selfKeyed m → selfKeyed (fold_left mergeInto items m).
Proof.
  revert m. induction items as [|x items IH]; intros m Hall Hm; [done|].
  apply Forall_cons in Hall as [Hx Hall]. simpl. apply IH; [done|].
  unfold mergeInto. apply JsMap_set_selfKeyed; [done|].
  destruct (JsMap.get (pluginKey x) m); [by apply pluginKey_mergePlugin | done].
Qed.

(** X23.  The list [fetchAndMergeIndices] hands to the pipeline is the
    merged index without the banned records, in the order of the merged
    index.  When every record of the crawled catalog has a truthy
    [raw_url], each item of the merged index has the key it is stored
    under, so no two records of the list share a plugin key.  This holds
    for the lower-casing of the language, whatever letters it folds. *)
Theorem fetchAndMergeIndices_has_distinct_keys (lowerCase : string → string)
    (now : string) (oxide crawled : PluginIndex.t)
    (deleted : option DeletedRepositoriesList.t) :
  Forall (λ plugin, truthy (PluginFileRef.raw_url (IndexedPlugin.file plugin)) = true)
         (PluginIndex.items crawled) →
  fetchAndMergeIndices lowerCase now oxide crawled deleted
    `sublist_of` PluginIndex.items (mergeIndices now oxide crawled)
  ∧ pluginKey <$> PluginIndex.items (mergeIndices now oxide crawled)
    = JsMap.keys (mergedMap oxide crawled)
  ∧ NoDup (pluginKey <$> fetchAndMergeIndices lowerCase now oxide crawled deleted)
  ∧ (∀ list plugin, deleted = Some list →
       plugin ∈ fetchAndMergeIndices lowerCase now oxide crawled deleted →
       ¬ bannedBy lowerCase list plugin).
Proof.
  intros Hall.
  assert (fetchAndMergeIndices lowerCase now oxide crawled deleted
            `sublist_of` PluginIndex.items (mergeIndices now oxide crawled)) as Hsub.
  { unfold fetchAndMergeIndices. destruct deleted; [apply sublist_filter | done]. }
  assert (pluginKey <$> PluginIndex.items (mergeIndices now oxide crawled)
          = JsMap.keys (mergedMap oxide crawled)) as Hkeys.
  { simpl. apply selfKeyed_keys. unfold mergedMap, seedFromBase.
    apply merge_fold_selfKeyed; [done|]. apply seed_fold_selfKeyed. constructor. }
  split; [done|]. split; [done|]. split.
  - eapply sublist_NoDup; [|by apply fmap_sublist]. rewrite Hkeys.
    apply merge_fold_NoDup, seed_fold_NoDup, NoDup_nil_2.
  - intros list plugin -> Hin. unfold fetchAndMergeIndices, filterDeleted in Hin.
    apply list_elem_of_filter in Hin as [Hok _]. rewrite <- survives_false.
    by destruct (survives lowerCase _ plugin).
Qed.

Lemma fetchAndMergeIndices_has_distinct_keys_witness :
  fetchAndMergeIndices toLowerCase "2024-01-03T00:00:00Z"
    (Sample.catalog [Sample.alpha; Sample.beta])
    (Sample.catalog [Sample.beta]) (Some Sample2.deletedBeta)
    `sublist_of` PluginIndex.items
                   (mergeIndices "2024-01-03T00:00:00Z"
                      (Sample.catalog [Sample.alpha; Sample.beta])
                      (Sample.catalog [Sample.beta]))
  ∧ pluginKey <$> PluginIndex.items
                    (mergeIndices "2024-01-03T00:00:00Z"
                       (Sample.catalog [Sample.alpha; Sample.beta])
                       (Sample.catalog [Sample.beta]))
    = JsMap.keys (mergedMap (Sample.catalog [Sample.alpha; Sample.beta])
                    (Sample.catalog [Sample.beta]))
  ∧ NoDup (pluginKey <$> fetchAndMergeIndices toLowerCase "2024-01-03T00:00:00Z"
                           (Sample.catalog [Sample.alpha; Sample.beta])
                           (Sample.catalog [Sample.beta]) (Some Sample2.deletedBeta))
  ∧ (∀ list plugin, Some Sample2.deletedBeta = Some list →
       plugin ∈ fetchAndMergeIndices toLowerCase "2024-01-03T00:00:00Z"
                  (Sample.catalog [Sample.alpha; Sample.beta])
                  (Sample.catalog [Sample.beta]) (Some Sample2.deletedBeta) →
       ¬ bannedBy toLowerCase list plugin).
Proof.
  apply (fetchAndMergeIndices_has_distinct_keys toLowerCase "2024-01-03T00:00:00Z"
           (Sample.catalog [Sample.alpha; Sample.beta]) (Sample.catalog [Sample.beta])
           (Some Sample2.deletedBeta)).
  repeat constructor.
Defined.

Section PipelineExact.
Context {Net : Type}.
Variable config : Config.t.
Variable sanitize : string → string.
Variable post : string → WebhookBody → Net → Completion unit * Net.
Variable getBinary : string → Net → Completion (list Byte.byte) * Net.
Variable sha256 : list Byte.byte → string.

Lemma processAll_exact (plugins : list IndexedPlugin.t) (w : World.t Net) :
  NoDup (pluginKey <$> plugins) →
  ∃ w' calls,
    processAllPluginsSequentially config sanitize post getBinary sha256 plugins w
      = (Returns tt, w')
    ∧ World.webhookCalls w' = (World.webhookCalls w ++ calls)%list
    ∧ WebhookCall.plugin <$> calls = pendingIn w plugins.
Proof.
  intros Hnd.
  destruct (processAll_spec config sanitize post getBinary sha256 plugins w)
    as (w' & calls & Hrun & Hcalls & Hsub & Hall & _ & _ & _ & _ & _ & Hcover & _).
  exists w', calls. split; [done|]. split; [done|].
  apply (sublist_covering_eq pluginKey).
  - unfold pendingIn, pendingOf. apply sublist_into_filter; [done|].
    apply Forall_fmap. eapply Forall_impl; [exact Hall|].
    intros call (Hurl & Hkey & _). simpl. by apply is_pending_true.
  - eapply sublist_NoDup; [exact Hnd|]. apply fmap_sublist.
    unfold pendingIn, pendingOf. apply sublist_filter.
  - intros plugin Hp. unfold pendingIn, pendingOf in Hp.
    apply list_elem_of_filter in Hp as [Hp Hin].
    apply is_pending_true in Hp as [Hurl Hkey].
    destruct (Hcover plugin Hin Hurl) as [Hold|Hcalled]; [done|].
    by rewrite list_fmap_compose in Hcalled.
Qed.

(** X24.  Over a list in which no two records share a plugin key (as the
    merged index is), a run calls the sender exactly once for each record
    that was pending at its start, in the order of the list, and for no
    other record; so no key is sent twice. *)
Theorem processAll_sends_each_pending_record_once (plugins : list IndexedPlugin.t)
    (w : World.t Net) :
  NoDup (pluginKey <$> plugins) →
  ∃ w' calls,
    processAllPluginsSequentially config sanitize post getBinary sha256 plugins w
      = (Returns tt, w')
    ∧ World.webhookCalls w' = (World.webhookCalls w ++ calls)%list
    ∧ WebhookCall.plugin <$> calls = pendingIn w plugins
    ∧ NoDup (pluginKey <$> (WebhookCall.plugin <$> calls)).
Proof.
  intros Hnd.
  destruct (processAll_exact plugins w Hnd) as (w' & calls & Hrun & Hcalls & Hexact).
  exists w', calls. split; [done|]. split; [done|]. split; [done|].
  rewrite Hexact. eapply sublist_NoDup; [exact Hnd|]. apply fmap_sublist.
  unfold pendingIn, pendingOf. apply sublist_filter.
Qed.

End PipelineExact.


Lemma processAll_sends_each_pending_record_once_witness :
  ∃ w' calls,
    processAllPluginsSequentially Sample.config id Sample.onceOnlySink Sample.noDownload
      (λ _, "") [Sample.alpha; Sample.beta] Sample2.resumedWorld = (Returns tt, w')
    ∧ World.webhookCalls w' = (World.webhookCalls Sample2.resumedWorld ++ calls)%list
    ∧ WebhookCall.plugin <$> calls = pendingIn Sample2.resumedWorld [Sample.alpha; Sample.beta]
    ∧ NoDup (pluginKey <$> (WebhookCall.plugin <$> calls)).
Proof.
  apply (processAll_sends_each_pending_record_once Sample.config id Sample.onceOnlySink
           Sample.noDownload (λ _, "") [Sample.alpha; Sample.beta] Sample2.resumedWorld).
  apply (bool_decide_unpack _). vm_compute. exact I.
Defined.

(* ===================================================================== *)
(** ** Index schema *)
(* ===================================================================== *)

Lemma mapThrowing_Returns {A B : Type} (f : A → Completion B) (items : list A)
    (out : list B) :
  mapThrowing f items = Returns out ↔ Forall2 (λ a b, f a = Returns b) items out.
Proof.
  revert out. induction items as [|a items IH]; intros out; simpl.
  - split; [by intros [= <-]; constructor | by intros ->%Forall2_nil_inv_l].
  - destruct (f a) as [b|e] eqn:Hfa.
    + destruct (mapThrowing f items) as [bs|e] eqn:Hrest.
      * split.
        -- intros [= <-]. constructor; [done|]. by apply IH.
        -- intros (b' & bs' & Hb & Hbs & ->)%Forall2_cons_inv_l.
           apply IH in Hbs. congruence.
      * split; [done|].
        intros (b' & bs' & Hb & Hbs & ->)%Forall2_cons_inv_l. by apply IH in Hbs.
    + split; [done|].
      intros (b' & bs' & Hb & Hbs & ->)%Forall2_cons_inv_l. congruence.
Qed.

Lemma mapThrowing_Throws {A B : Type} (f : A → Completion B) (items : list A)
    (e : JsError.t) :
  mapThrowing f items = Throws e → ∃ a, a ∈ items ∧ f a = Throws e.
Proof.
  induction items as [|a items IH]; simpl; [done|].
  destruct (f a) as [b|e'] eqn:Hfa.
  - destruct (mapThrowing f items) as [bs|e'']; [done|].
    intros [= ->]. destruct (IH eq_refl) as (a' & Hin & Ha'). exists a'. split; [by right|done].
  - intros [= ->]. exists a. split; [by left|done].
Qed.

Lemma toIndexedPlugin_Returns (url : string) (raw : JsonValue) :
  (∃ plugin, toIndexedPlugin url raw = Returns plugin)
  ↔ (∃ rawProps, raw = JObj rawProps) ∧ ∃ fileProps, prop "file" raw = Some (JObj fileProps).
Proof.
  unfold toIndexedPlugin. split.
  - intros [plugin Hp].
    destruct raw as [| | | | | |rawProps]; try (simpl in Hp; done).
    split; [by eexists|].
    destruct (prop "file" (JObj rawProps)) as [[| | | | | |fileProps]|];
      try (simpl in Hp; done).
    by eexists.
  - intros [[rawProps ->] [fileProps Hfile]]. rewrite Hfile. simpl. by eexists.
Qed.

Lemma toIndexedPlugin_Throws (url : string) (raw : JsonValue) (e : JsError.t) :
  toIndexedPlugin url raw = Throws e →
  JsError.message e = "Malformed plugin item in " ++ url
  ∨ JsError.message e = "Missing file reference in " ++ url.
Proof.
  unfold toIndexedPlugin.
  destruct (negb (isRecord (Some raw))); [intros [= <-]; by left|].
  destruct (negb (isRecord (prop "file" raw))); [intros [= <-]; by right | done].
Qed.

(** X26.  [toPluginIndex] returns exactly for a well-formed value: an
    object whose [items] is an array of objects that each have an object
    under [file].  The index it returns has one item per element of the
    array, each the conversion of the element at its position, and its
    [count] is the number under [count] when there is one (whatever the
    number of items) and the number of items otherwise.  When it throws,
    the message is one of the three of the schema check. *)
Theorem toPluginIndex_accepts_exactly_the_well_formed (now : string) (value : JsonValue)
    (url : string) :
  ((∃ index, toPluginIndex now value url = Returns index) ↔ wellFormedIndex value)
  ∧ (∀ index, toPluginIndex now value url = Returns index →
       Forall2 (λ raw plugin, toIndexedPlugin url raw = Returns plugin)
               (elements (prop "items" value)) (PluginIndex.items index)
       ∧ length (PluginIndex.items index) = length (elements (prop "items" value))
       ∧ (∀ n, prop "count" value = Some (JNum n) → PluginIndex.count index = n)
       ∧ (asNumber (prop "count" value) = None →
          PluginIndex.count index = Z.of_nat (length (PluginIndex.items index))))
  ∧ (∀ e, toPluginIndex now value url = Throws e →
       JsError.message e = "Malformed index: " ++ url
       ∨ JsError.message e = "Malformed plugin item in " ++ url
       ∨ JsError.message e = "Missing file reference in " ++ url).
Proof.
  split; [|split].
  - unfold toPluginIndex, wellFormedIndex. split.
    + intros [index Hindex].
      destruct value as [| | | | | |props]; try (simpl in Hindex; done).
      destruct (prop "items" (JObj props)) as [[| | | | |rawItems|]|] eqn:Hitems;
        try (simpl in Hindex; done).
      cbn [negb isRecord isArray orb elements] in Hindex.
      exists props, rawItems. split; [done|]. split; [done|].
      destruct (mapThrowing (toIndexedPlugin url) rawItems) as [items|e] eqn:Hmap; [|done].
      apply mapThrowing_Returns in Hmap.
      apply Forall_forall. intros raw Hraw.
      apply list_elem_of_lookup in Hraw as [i Hi].
      destruct (Forall2_lookup_l _ _ _ _ _ Hmap Hi) as (plugin & _ & Hplugin).
      apply (proj1 (toIndexedPlugin_Returns url raw)). by exists plugin.
    + intros (props & rawItems & -> & Hitems & Hall). rewrite Hitems. simpl.
      destruct (mapThrowing (toIndexedPlugin url) rawItems) as [items|e] eqn:Hmap;
        [by eexists|].
      apply mapThrowing_Throws in Hmap as (raw & Hraw & Hthrows).
      rewrite Forall_forall in Hall.
      destruct (proj2 (toIndexedPlugin_Returns url raw) (Hall raw Hraw)) as [plugin Hplugin].
      congruence.
  - unfold toPluginIndex. intros index.
    destruct (negb (isRecord (Some value)) || negb (isArray (prop "items" value))); [done|].
    destruct (mapThrowing (toIndexedPlugin url) (elements (prop "items" value)))
      as [items|e] eqn:Hmap; [|done].
    intros [= <-]. simpl. apply mapThrowing_Returns in Hmap.
    split; [done|]. split; [symmetry; by eapply Forall2_length|].
    split; [by intros n ->|by intros ->].
  - unfold toPluginIndex. intros e.
    destruct (negb (isRecord (Some value)) || negb (isArray (prop "items" value)));
      [intros [= <-]; by left|].
    destruct (mapThrowing (toIndexedPlugin url) (elements (prop "items" value)))
      as [items|e'] eqn:Hmap; [done|].
    intros [= ->]. right.
    apply mapThrowing_Throws in Hmap as (raw & _ & Hthrows).
    by eapply toIndexedPlugin_Throws.
Qed.

Lemma lookup_filtered_entries (keep : gset string) (props : list (string * JsonValue))
    (k : string) :
  (list_to_map (filter (λ kv, kv.1 ∉ keep) props) : gmap string JsonValue) !! k
  = if decide (k ∈ keep) then None else prop k (JObj props).
Proof.
  unfold prop. induction props as [|[k' v] props IH].
  - simpl. rewrite lookup_empty. by destruct (decide _).
  - rewrite filter_cons. cbn [find fst]. destruct (String.eqb k' k) eqn:E.
    + apply String.eqb_eq in E as ->. simpl.
      destruct (decide (k ∉ keep)) as [Hout|Hin].
      * simpl. rewrite lookup_insert_eq. by destruct (decide (k ∈ keep)).
      * rewrite IH. destruct (decide (k ∈ keep)); [done|]. done.
    + apply String.eqb_neq in E. simpl.
      destruct (decide (k' ∉ keep)); [|exact IH].
      simpl. rewrite lookup_insert_ne by done. exact IH.
Qed.

(** X27.  A converted item keeps in [extra] exactly the properties of the
    raw item that the schema does not name, under their own names and
    with their values; reading one of the eight schema names in [extra]
    finds nothing.  The file reference is read from the object under
    [file], and a [raw_url] that is not a string is dropped. *)
Theorem toIndexedPlugin_extra_holds_the_other_fields (url : string) (raw : JsonValue)
    (plugin : IndexedPlugin.t) :
  toIndexedPlugin url raw = Returns plugin →
  (∃ extra,
     IndexedPlugin.extra plugin = Some extra
     ∧ (∀ k, k ∈ RESERVED_KEYS → extra !! k = None)
     ∧ (∀ k, k ∉ RESERVED_KEYS → extra !! k = prop k raw))
  ∧ (∀ s, PluginFileRef.raw_url (IndexedPlugin.file plugin) = Some s
          ↔ prop "file" raw ≫= prop "raw_url" = Some (JStr s)).
Proof.
  unfold toIndexedPlugin.
  destruct raw as [| | | | | |rawProps]; simpl; try done.
  destruct (isRecord _); simpl; [|done].
  intros [= <-]. simpl. split.
  - eexists. split; [reflexivity|]. split; intros k Hk.
    + rewrite lookup_filtered_entries. by destruct (decide _).
    + rewrite lookup_filtered_entries. by destruct (decide _).
  - intros s. unfold asString.
    destruct (_ ≫= prop "raw_url") as [[| | | | | |]|]; split; congruence.
Qed.

Lemma toIndexedPlugin_extra_holds_the_other_fields_witness :
  ∃ plugin,
    toIndexedPlugin "index.json" Sample2.rawAlpha = Returns plugin
    ∧ pluginKey plugin = "https://example.com/alpha.cs"
    ∧ (∃ extra,
         IndexedPlugin.extra plugin = Some extra
         ∧ (∀ k, k ∈ RESERVED_KEYS → extra !! k = None)
         ∧ (∀ k, k ∉ RESERVED_KEYS → extra !! k = prop k Sample2.rawAlpha))
    ∧ (∀ s, PluginFileRef.raw_url (IndexedPlugin.file plugin) = Some s
            ↔ prop "file" Sample2.rawAlpha ≫= prop "raw_url" = Some (JStr s)).
Proof.
  destruct (toIndexedPlugin "index.json" Sample2.rawAlpha) as [plugin|e] eqn:Hp;
    [|by vm_compute in Hp].
  exists plugin. split; [done|].
  split; [by vm_compute in Hp; injection Hp as <-|].
  exact (toIndexedPlugin_extra_holds_the_other_fields "index.json" Sample2.rawAlpha plugin Hp).
Defined.

(** X28.  [fetchDeleted] gives no list, and [filterDeleted] then filters
    nothing, when the request throws and when the body is not an object
    with an array under [repositories].  Otherwise a record is dropped
    exactly when the full name of its repository is not empty and its
    lower-cased form is the lower-cased form of a string of that array,
    for the lower-casing of the language, whatever letters it folds;
    elements of the array that are not strings ban nothing. *)
Theorem fetchDeleted_failure_filters_nothing (lowerCase : string → string)
    (getJson : string → Completion JsonValue) (items : list IndexedPlugin.t) :
  (∀ e, getJson SOURCES_DELETED = Throws e →
        filterDeleted lowerCase items (fetchDeleted getJson) = items)
  ∧ (∀ data, getJson SOURCES_DELETED = Returns data →
             isRecord (Some data) = false ∨ isArray (prop "repositories" data) = false →
             filterDeleted lowerCase items (fetchDeleted getJson) = items)
  ∧ (∀ props names plugin,
       getJson SOURCES_DELETED = Returns (JObj props) →
       prop "repositories" (JObj props) = Some (JArr names) →
       plugin ∈ filterDeleted lowerCase items (fetchDeleted getJson)
       ↔ plugin ∈ items
         ∧ ¬ ∃ repository full_name entry,
               IndexedPlugin.repository plugin = Some repository
               ∧ PluginRepoRef.full_name repository = Some full_name
               ∧ full_name ≠ ""
               ∧ JStr entry ∈ names
               ∧ lowerCase entry = lowerCase full_name).
Proof.
  split; [|split].
  - intros e He. unfold fetchDeleted. by rewrite He.
  - intros data Hdata Hbad. unfold fetchDeleted. rewrite Hdata.
    by destruct Hbad as [-> | ->]; rewrite ?orb_true_r.
  - intros props names plugin Hdata Hnames. unfold fetchDeleted.
    rewrite Hdata, Hnames. simpl. rewrite list_elem_of_filter.
    match goal with
    | |- context [survives lowerCase (list_to_set (lowerCase <$> ?l))] =>
        pose proof (survives_false lowerCase (DeletedRepositoriesList.mk l None) plugin)
          as Hs
    end.
    simpl in Hs.
    assert (∀ entry, entry ∈ stringsOf names ↔ JStr entry ∈ names) as Hstrings.
    { intros entry. unfold stringsOf. rewrite list_elem_of_omap. split.
      - intros (item & Hin & Hitem). destruct item; by simplify_eq.
      - intros Hin. by exists (JStr entry). }
    unfold bannedBy in Hs. simpl in Hs.
    destruct (survives lowerCase _ plugin).
    + split; [|by intros [? _]]. intros [_ Hin]. split; [done|].
      intros (repository & full_name & entry & ? & ? & ? & Hentry & ?).
      assert (true = false); [|done]. apply Hs.
      exists repository, full_name, entry. by rewrite Hstrings.
    + split; [by intros [? _]|]. intros [_ Hnot]. exfalso. apply Hnot.
      destruct (proj1 Hs eq_refl) as (repository & full_name & entry & ? & ? & ? & Hentry & ?).
      exists repository, full_name, entry. by rewrite <- Hstrings.
Qed.

(* ===================================================================== *)
(** ** Retrying transport *)
(* ===================================================================== *)

Lemma not_retryable (error : JsError.t) :
  negb (isNetworkIssue error) && negb (isRetryableStatus error) = true ↔ ¬ retryable error.
Proof.
  unfold retryable.
  destruct (isNetworkIssue error), (isRetryableStatus error); simpl; split; try done;
    try (intros H; exfalso; apply H; by auto).
  by intros _ [?|?].
Qed.

Lemma retryable_true (error : JsError.t) :
  negb (isNetworkIssue error) && negb (isRetryableStatus error) = false → retryable error.
Proof.
  unfold retryable. destruct (isNetworkIssue error), (isRetryableStatus error); auto.
Qed.

Lemma executeWithRetry_ends {Net T : Type}
    (operation : Net → Completion T * Net) (w : Wire.t Net) :
  ∃ result w', executeWithRetry RETRY_ATTEMPTS operation 0 w = Some (result, w').
Proof.
  unfold RETRY_ATTEMPTS. simpl.
  destruct (operation (Wire.net w)) as [[r1|e1] n1]; [by eexists _, _|].
  destruct (negb (isNetworkIssue e1) && negb (isRetryableStatus e1)); [by eexists _, _|].
  simpl. destruct (operation n1) as [[r2|e2] n2]; [by eexists _, _|].
  destruct (negb (isNetworkIssue e2) && negb (isRetryableStatus e2)); [by eexists _, _|].
  simpl. destruct (operation n2) as [[r3|e3] n3]; by eexists _, _.
Qed.

(** X29.  [executeWithRetry], called for attempt 0, ends for every
    operation, with the same result for every fuel from three on.  It
    calls the operation at most three times; every call but the last
    threw an error that can be retried (a code of [ECONNRESET],
    [ETIMEDOUT] or [ECONNABORTED], or a status from 500 to 599) and was
    followed by a wait of 500 ms after the first and 1000 ms after the
    second.  The result is that of the last call: its value, or the error
    it threw, which either cannot be retried or is that of the third
    call. *)
Theorem executeWithRetry_makes_at_most_three_attempts {Net T : Type}
    (operation : Net → Completion T * Net) (w : Wire.t Net) :
  ∃ result w' errors last,
    (∀ fuel, (RETRY_ATTEMPTS ≤ fuel)%nat →
             executeWithRetry fuel operation 0 w = Some (result, w'))
    ∧ Wire.log w' = (Wire.log w ++ failedAttempts errors ++ [Requested last])%list
    ∧ (length errors ≤ 2)%nat
    ∧ Forall retryable errors
    ∧ (last = None ↔ ∃ response, result = Returns response)
    ∧ (∀ error, last = Some error ↔ result = Throws error)
    ∧ (∀ error, last = Some error → retryable error → length errors = 2%nat).
Proof.
  destruct (operation (Wire.net w)) as [[r1|e1] n1] eqn:H1.
  { exists (Returns r1), (Wire.mk n1 (Wire.log w ++ [Requested None])), [], None.
    split; [|by repeat split; eauto].
    intros [|fuel] Hfuel; [unfold RETRY_ATTEMPTS in Hfuel; lia|]. simpl. by rewrite H1. }
  destruct (negb (isNetworkIssue e1) && negb (isRetryableStatus e1)) eqn:R1.
  { exists (Throws e1), (Wire.mk n1 (Wire.log w ++ [Requested (Some e1)])), [], (Some e1).
    split; [|split; [done|]; split; [simpl; lia|]; split; [done|]; split; [|split]].
    - intros [|fuel] Hfuel; [unfold RETRY_ATTEMPTS in Hfuel; lia|]. simpl.
      by rewrite H1, R1.
    - split; [done | by intros [? ?]].
    - intros error. split; congruence.
    - intros error [= <-] Hr. by apply not_retryable in R1. }
  destruct (operation n1) as [[r2|e2] n2] eqn:H2.
  { exists (Returns r2),
      (Wire.mk n2 (((Wire.log w ++ [Requested (Some e1)]) ++ [Backoff 500])
                   ++ [Requested None])), [e1], None.
    split; [|split; [|split; [simpl; lia|]; split; [|by repeat split; eauto]]].
    - intros [|[|fuel]] Hfuel; try (unfold RETRY_ATTEMPTS in Hfuel; lia).
      simpl. rewrite H1, R1. simpl. by rewrite H2.
    - simpl. by rewrite <- !app_assoc.
    - constructor; [by apply retryable_true | done]. }
  destruct (negb (isNetworkIssue e2) && negb (isRetryableStatus e2)) eqn:R2.
  { exists (Throws e2),
      (Wire.mk n2 (((Wire.log w ++ [Requested (Some e1)]) ++ [Backoff 500])
                   ++ [Requested (Some e2)])), [e1], (Some e2).
    split; [|split; [|split; [simpl; lia|]; split; [|split; [|split]]]].
    - intros [|[|fuel]] Hfuel; try (unfold RETRY_ATTEMPTS in Hfuel; lia).
      simpl. rewrite H1, R1. simpl. by rewrite H2, R2.
    - simpl. by rewrite <- !app_assoc.
    - constructor; [by apply retryable_true | done].
    - split; [done | by intros [? ?]].
    - intros error. split; congruence.
    - intros error [= <-] Hr. by apply not_retryable in R2. }
  destruct (operation n2) as [[r3|e3] n3] eqn:H3.
  { exists (Returns r3),
      (Wire.mk n3 (((((Wire.log w ++ [Requested (Some e1)]) ++ [Backoff 500])
                     ++ [Requested (Some e2)]) ++ [Backoff 1000]) ++ [Requested None])),
      [e1; e2], None.
    split; [|split; [|split; [simpl; lia|]; split; [|by repeat split; eauto]]].
    - intros [|[|[|fuel]]] Hfuel; try (unfold RETRY_ATTEMPTS in Hfuel; lia).
      simpl. rewrite H1, R1. simpl. rewrite H2, R2. simpl. by rewrite H3.
    - simpl. by rewrite <- !app_assoc.
    - by repeat (constructor; [by apply retryable_true|]). }
  exists (Throws e3),
    (Wire.mk n3 (((((Wire.log w ++ [Requested (Some e1)]) ++ [Backoff 500])
                   ++ [Requested (Some e2)]) ++ [Backoff 1000])
                 ++ [Requested (Some e3)])),
    [e1; e2], (Some e3).
  split; [|split; [|split; [simpl; lia|]; split; [|split; [|split]]]].
  - intros [|[|[|fuel]]] Hfuel; try (unfold RETRY_ATTEMPTS in Hfuel; lia).
    simpl. rewrite H1, R1. simpl. rewrite H2, R2. simpl. by rewrite H3.
  - simpl. by rewrite <- !app_assoc.
  - by repeat (constructor; [by apply retryable_true|]).
  - split; [done | by intros [? ?]].
  - intros error. split; congruence.
  - done.
Qed.


Lemma normalise_fold_lookup (headers : list (string * HeaderValue))
    (out : gmap string string) (name : string) :
  fold_left
    (λ out '(key, value),
       match value with
       | HArray items => <[toLowerCase key := String.concat ", " items]> out
       | HString s => <[toLowerCase key := s]> out
       | HOther => out
       end)
    headers out !! name
  = match last (omap (λ kv, if decide (toLowerCase kv.1 = name) then headerText kv.2
                            else None) headers) with
    | Some text => Some text
    | None => out !! name
    end.
Proof.
  revert out. induction headers as [|[key value] headers IH] using rev_ind; intros out.
  - done.
  - rewrite fold_left_app, omap_app. simpl.
    destruct (decide (toLowerCase key = name)) as [<-|Hne].
    + destruct value as [text|items|]; simpl.
      * by rewrite last_snoc, lookup_insert_eq.
      * by rewrite last_snoc, lookup_insert_eq.
      * rewrite app_nil_r. apply IH.
    + rewrite app_nil_r.
      destruct value as [text|items|]; simpl; rewrite ?lookup_insert_ne by done; apply IH.
Qed.

(** X30.  [normaliseHeaders] stores every header under its lower-cased
    name: a name that is found is in lower case, and what is found under a
    name is the text of the last header with that name, in any letter
    case, whose value is a string or an array (the strings of an array
    joined by a comma and a space); values of other kinds are left out.
    [head] ends for every transport, and the headers it returns are
    normalised in this way. *)
Theorem normaliseHeaders_lower_cases_names {Net : Type}
    (httpHead : string → Net → Completion RawResponse.t * Net)
    (headers : list (string * HeaderValue)) (url : string) (w : Wire.t Net) :
  (∀ name, normaliseHeaders headers !! name
           = last (omap (λ kv, if decide (toLowerCase kv.1 = name) then headerText kv.2
                               else None) headers))
  ∧ (∀ name, is_Some (normaliseHeaders headers !! name) → toLowerCase name = name)
  ∧ ∃ result w',
      head httpHead url w = Some (result, w')
      ∧ ∀ response name,
          result = Returns response →
          is_Some (HeadResponse.headers response !! name) → toLowerCase name = name.
Proof.
  assert (∀ headers name,
            normaliseHeaders headers !! name
            = last (omap (λ kv, if decide (toLowerCase kv.1 = name) then headerText kv.2
                                else None) headers)) as Hlookup.
  { intros hs name. unfold normaliseHeaders. rewrite normalise_fold_lookup.
    rewrite lookup_empty. by destruct (last _). }
  assert (∀ headers name,
            is_Some (normaliseHeaders headers !! name) → toLowerCase name = name) as Hlower.
  { intros hs name [text Htext]. rewrite Hlookup in Htext.
    apply last_Some_elem_of, list_elem_of_omap in Htext as ([key value] & _ & Hkv).
    simpl in Hkv. destruct (decide (toLowerCase key = name)) as [<-|]; [|done].
    apply toLowerCase_idemp. }
  split; [apply Hlookup|]. split; [apply Hlower|].
  unfold head.
  destruct (executeWithRetry_ends (httpHead url) w) as (result & w' & Hrun).
  rewrite Hrun.
  destruct result as [response|error].
  - eexists _, w'. split; [reflexivity|]. intros ? name [= <-]. simpl. apply Hlower.
  - eexists _, w'. split; [reflexivity|]. by intros ? name.
Qed.
